(** * paper-animate: timeline, keyframe engine and script repair

    A shallow embedding of the three pure cores of the repository:

    - the timeline (class [TimelineController], in [src/lib/three-scene.ts]),
    - the keyframe engine ([easeProgress], [interpolateKeyframes], in
      [src/lib/keyframes.ts]),
    - the script repairer ([alignSegmentsToSteps] and its helpers).

    Conventions of the embedding.

    - A JavaScript [number] is an exact rational ([Q]); [NaN], the
      infinities and rounding are outside the model.  Numeric results are
      compared with [==] ([Qeq]); structures that only copy numbers around
      are compared with Leibniz equality.  Where a statement speaks of a
      sum of durations, the durations are added in the order in which the
      code adds them, and a time is compared with the offsets the
      controller itself has computed.
    - A JavaScript string is a [string] of code units below 256; the
      white space class and the case mappings are those of these code
      units.
    - An optional field [f?: T] is an [option T].
    - A [TypeError] raised by the code is the result [None]; so is, in
      the keyframe engine, a result computed from an eased progress that
      is not a number. *)

From Stdlib Require Import QArith Qminmax Qround Lqa ZArith List String Ascii Bool Lia Arith.
From Stdlib Require Import DecimalString Sorted.
Import ListNotations.

Open Scope Q_scope.

(** ** Numbers *)

(** [a >= b] and [a < b] on numbers, as the boolean tests of the source. *)
Definition Qgeb (a b : Q) : bool := Qle_bool b a.
Definition Qltb (a b : Q) : bool := negb (Qle_bool b a).
Definition Qgtb (a b : Q) : bool := negb (Qle_bool a b).
Definition Qleb (a b : Q) : bool := Qle_bool a b.

(** ** Data model ([src/types/index.ts]) *)

Inductive PacingType := PauseBefore | PauseAfter | Normal.

Inductive TransitionType :=
  Crossfade | SlideLeft | ZoomOutIn | Cut | PerspectivePush | ParallaxWipe.

Record NarrationSegment := mkSegment {
  seg_id : string;
  seg_text : string;
  seg_stepId : string;
  seg_estimatedDuration : Q;
  seg_startTime : Q;
  seg_endTime : Q;
  seg_emphasis : option (list string);
  seg_pacing : PacingType
}.

Record SectionScript := mkSectionScript {
  ss_sectionId : string;
  ss_fullText : string;
  ss_segments : list NarrationSegment;
  ss_totalDuration : Q
}.

Record SectionTransition := mkTransition {
  tr_fromSectionId : string;
  tr_toSectionId : string;
  tr_type : TransitionType;
  tr_duration : Q
}.

Record PresentationScript := mkPresentation {
  ps_paperTitle : string;
  ps_sections : list SectionScript;
  ps_transitions : list SectionTransition;
  ps_totalDuration : Q
}.

Inductive Phase := PhaseSection | PhaseTransition | PhaseComplete.

Record TimelineState := mkState {
  phase : Phase;
  sectionIndex : Z;
  segmentIndex : Z;
  sectionProgress : Q;
  segmentProgress : Q;
  activeStepId : string;
  currentText : string;
  emphasis : list string;
  globalTime : Q;
  fromSection : option Z;
  toSection : option Z;
  transitionProgress : option Q
}.

(** ** Timeline ([TimelineController]) *)

Definition COMPLETE_STATE : TimelineState :=
  {| phase := PhaseComplete;
     sectionIndex := 0;
     segmentIndex := 0;
     sectionProgress := 1;
     segmentProgress := 1;
     activeStepId := EmptyString;
     currentText := EmptyString;
     emphasis := [];
     globalTime := 0;
     fromSection := None;
     toSection := None;
     transitionProgress := None |}.

(** A subscriber is identified by a number; the [Set] of listeners keeps
    insertion order and has no duplicates. *)
Definition TimelineListener := nat.

Record TimelineController := mkController {
  currentTime : Q;
  speed : Q;
  playing : bool;
  rafId : option nat;
  lastTimestamp : option Q;
  listeners : list TimelineListener;
  sectionScripts : list SectionScript;
  transitions : list SectionTransition;
  totalDuration : Q;
  sectionStartTimes : list Q;
  transitionStartTimes : list Q
}.

(** The [for] loop of [computeStartTimes]: [secs] is what is left of
    [sectionScripts] from index [i] on, [sst] and [tst] are the two arrays
    being pushed to. *)
Fixpoint computeStartTimes_loop (secs : list SectionScript) (i : nat)
    (trs : list SectionTransition) (offset : Q) (sst tst : list Q)
    : list Q * list Q :=
  match secs with
  | [] => (sst, tst)
  | s :: rest =>
      let sst' := sst ++ [offset] in
      let offset1 := offset + ss_totalDuration s in
      match nth_error trs i with
      | Some tr =>
          computeStartTimes_loop rest (S i) trs (offset1 + tr_duration tr)
                                 sst' (tst ++ [offset1])
      | None => computeStartTimes_loop rest (S i) trs offset1 sst' tst
      end
  end.

Definition computeStartTimes (secs : list SectionScript)
    (trs : list SectionTransition) : list Q * list Q :=
  computeStartTimes_loop secs 0 trs 0 [] [].

(** [new TimelineController(script)] *)
Definition newTimelineController (script : PresentationScript)
    : TimelineController :=
  let st := computeStartTimes (ps_sections script) (ps_transitions script) in
  {| currentTime := 0;
     speed := 1;
     playing := false;
     rafId := None;
     lastTimestamp := None;
     listeners := [];
     sectionScripts := ps_sections script;
     transitions := ps_transitions script;
     totalDuration := ps_totalDuration script;
     sectionStartTimes := fst st;
     transitionStartTimes := snd st |}.

(** The scan for the active segment.  [cur] is the pair
    [(segmentIndex, activeSegment)] of the source, [s] the loop index and
    [len] is [script.segments.length]. *)
Fixpoint findActiveSegment (segs : list NarrationSegment) (s len : nat)
    (sectionTime : Q) (cur : nat * option NarrationSegment)
    : nat * option NarrationSegment :=
  match segs with
  | [] => cur
  | seg :: rest =>
      if Qgeb sectionTime (seg_startTime seg)
         && Qltb sectionTime (seg_endTime seg)
      then (s, Some seg)
      else findActiveSegment rest (S s) len sectionTime
             (if Nat.eqb s (len - 1) then (s, Some seg) else cur)
  end.

(** The state reported inside section [i]; [None] when the section has no
    segment at all ([activeSegment] is [undefined] and reading its
    [endTime] raises). *)
Definition sectionState (i : nat) (script : SectionScript)
    (sectionStart clampedTime : Q) : option TimelineState :=
  let sectionTime := clampedTime - sectionStart in
  let sectionProgress :=
    if Qgtb (ss_totalDuration script) 0
    then sectionTime / ss_totalDuration script else 0 in
  let found :=
    findActiveSegment (ss_segments script) 0 (List.length (ss_segments script))
      sectionTime (0%nat, nth_error (ss_segments script) 0) in
  match snd found with
  | None => None
  | Some activeSegment =>
      let segmentDuration :=
        seg_endTime activeSegment - seg_startTime activeSegment in
      let segmentProgress :=
        if Qgtb segmentDuration 0
        then Qmin 1 ((sectionTime - seg_startTime activeSegment)
                     / segmentDuration)
        else 0 in
      Some {| phase := PhaseSection;
              sectionIndex := Z.of_nat i;
              segmentIndex := Z.of_nat (fst found);
              sectionProgress := sectionProgress;
              segmentProgress := segmentProgress;
              activeStepId := seg_stepId activeSegment;
              currentText := seg_text activeSegment;
              emphasis := match seg_emphasis activeSegment with
                          | Some e => e
                          | None => []
                          end;
              globalTime := clampedTime;
              fromSection := None;
              toSection := None;
              transitionProgress := None |}
  end.

Definition transitionState (i : nat) (tr : SectionTransition)
    (transitionStart clampedTime : Q) : TimelineState :=
  {| phase := PhaseTransition;
     sectionIndex := Z.of_nat i;
     segmentIndex := 0;
     sectionProgress := 1;
     segmentProgress := 1;
     activeStepId := EmptyString;
     currentText := EmptyString;
     emphasis := [];
     globalTime := clampedTime;
     fromSection := Some (Z.of_nat i);
     toSection := Some (Z.of_nat i + 1)%Z;
     transitionProgress :=
       Some (if Qgtb (tr_duration tr) 0
             then (clampedTime - transitionStart) / tr_duration tr
             else 0) |}.

(** The main [for] loop of [getStateAtTime]: [secs] is what is left of
    [sectionScripts] from index [i] on. *)
Fixpoint getStateAtTime_loop (c : TimelineController)
    (secs : list SectionScript) (i : nat) (clampedTime : Q)
    : option TimelineState :=
  match secs with
  | [] => Some {| phase := phase COMPLETE_STATE;
                  sectionIndex := sectionIndex COMPLETE_STATE;
                  segmentIndex := segmentIndex COMPLETE_STATE;
                  sectionProgress := sectionProgress COMPLETE_STATE;
                  segmentProgress := segmentProgress COMPLETE_STATE;
                  activeStepId := activeStepId COMPLETE_STATE;
                  currentText := currentText COMPLETE_STATE;
                  emphasis := emphasis COMPLETE_STATE;
                  globalTime := clampedTime;
                  fromSection := fromSection COMPLETE_STATE;
                  toSection := toSection COMPLETE_STATE;
                  transitionProgress := transitionProgress COMPLETE_STATE |}
  | script :: rest =>
      let sectionStart := nth i (sectionStartTimes c) 0 in
      let sectionEnd := sectionStart + ss_totalDuration script in
      if Qgeb clampedTime sectionStart && Qltb clampedTime sectionEnd
      then sectionState i script sectionStart clampedTime
      else
        match nth_error (transitions c) i with
        | Some transition =>
            let transitionStart := nth i (transitionStartTimes c) 0 in
            let transitionEnd := transitionStart + tr_duration transition in
            if Qgeb clampedTime transitionStart
               && Qltb clampedTime transitionEnd
            then Some (transitionState i transition transitionStart
                         clampedTime)
            else getStateAtTime_loop c rest (S i) clampedTime
        | None => getStateAtTime_loop c rest (S i) clampedTime
        end
  end.

Definition getStateAtTime (c : TimelineController) (time : Q)
    : option TimelineState :=
  if Qgeb time (totalDuration c) then
    Some {| phase := phase COMPLETE_STATE;
            sectionIndex := Z.of_nat (List.length (sectionScripts c)) - 1;
            segmentIndex := segmentIndex COMPLETE_STATE;
            sectionProgress := sectionProgress COMPLETE_STATE;
            segmentProgress := segmentProgress COMPLETE_STATE;
            activeStepId := activeStepId COMPLETE_STATE;
            currentText := currentText COMPLETE_STATE;
            emphasis := emphasis COMPLETE_STATE;
            globalTime := totalDuration c;
            fromSection := fromSection COMPLETE_STATE;
            toSection := toSection COMPLETE_STATE;
            transitionProgress := transitionProgress COMPLETE_STATE |}
  else
    let clampedTime := Qmax 0 time in
    getStateAtTime_loop c (sectionScripts c) 0 clampedTime.

(** Field updates of the controller object. *)
Definition set_currentTime (v : Q) (c : TimelineController) :=
  mkController v (speed c) (playing c) (rafId c) (lastTimestamp c)
    (listeners c) (sectionScripts c) (transitions c) (totalDuration c)
    (sectionStartTimes c) (transitionStartTimes c).

Definition set_speed (v : Q) (c : TimelineController) :=
  mkController (currentTime c) v (playing c) (rafId c) (lastTimestamp c)
    (listeners c) (sectionScripts c) (transitions c) (totalDuration c)
    (sectionStartTimes c) (transitionStartTimes c).

Definition set_playing (v : bool) (c : TimelineController) :=
  mkController (currentTime c) (speed c) v (rafId c) (lastTimestamp c)
    (listeners c) (sectionScripts c) (transitions c) (totalDuration c)
    (sectionStartTimes c) (transitionStartTimes c).

Definition set_rafId (v : option nat) (c : TimelineController) :=
  mkController (currentTime c) (speed c) (playing c) v (lastTimestamp c)
    (listeners c) (sectionScripts c) (transitions c) (totalDuration c)
    (sectionStartTimes c) (transitionStartTimes c).

Definition set_lastTimestamp (v : option Q) (c : TimelineController) :=
  mkController (currentTime c) (speed c) (playing c) (rafId c) v
    (listeners c) (sectionScripts c) (transitions c) (totalDuration c)
    (sectionStartTimes c) (transitionStartTimes c).

Definition set_listeners (v : list TimelineListener)
    (c : TimelineController) :=
  mkController (currentTime c) (speed c) (playing c) (rafId c)
    (lastTimestamp c) v (sectionScripts c) (transitions c) (totalDuration c)
    (sectionStartTimes c) (transitionStartTimes c).

(** What a call hands to the subscribers: one state per listener, in the
    order of the listener set; [Raised] when [getStateAtTime] raises. *)
Inductive Output :=
| Delivered (d : list (TimelineListener * TimelineState))
| Raised.

Definition notify (c : TimelineController) : Output :=
  match getStateAtTime c (currentTime c) with
  | Some state => Delivered (map (fun listener => (listener, state))
                                 (listeners c))
  | None => Raised
  end.

(** [tick(timestamp)]; [h] is the handle [requestAnimationFrame] returns
    if the tick reschedules itself, and the boolean tells whether it did. *)
Definition tick (h : nat) (timestamp : Q) (c : TimelineController)
    : TimelineController * bool * Output :=
  let last := match lastTimestamp c with
              | None => timestamp
              | Some l => l
              end in
  let delta := (timestamp - last) / 1000 in
  let c := set_lastTimestamp (Some timestamp) c in
  let c := set_currentTime (currentTime c + delta * speed c) c in
  if Qgeb (currentTime c) (totalDuration c) then
    let c := set_currentTime (totalDuration c) c in
    let c := set_playing false c in
    let c := set_rafId None c in
    (c, false, notify c)
  else
    match notify c with
    | Raised => (c, false, Raised)
    | Delivered d =>
        if playing c then (set_rafId (Some h) c, true, Delivered d)
        else (c, false, Delivered d)
    end.

(** [play()]; the boolean tells whether a frame was requested. *)
Definition play (h : nat) (c : TimelineController)
    : TimelineController * bool :=
  if playing c then (c, false)
  else
    let c := if Qgeb (currentTime c) (totalDuration c)
             then set_currentTime 0 c else c in
    let c := set_playing true c in
    let c := set_lastTimestamp None c in
    (set_rafId (Some h) c, true).

(** [pause()]; the second component is the handle passed to
    [cancelAnimationFrame], if any. *)
Definition pause (c : TimelineController)
    : TimelineController * option nat :=
  let c := set_playing false c in
  let cancelled := rafId c in
  let c := match rafId c with
           | Some _ => set_rafId None c
           | None => c
           end in
  (set_lastTimestamp None c, cancelled).

Definition seek (time : Q) (c : TimelineController)
    : TimelineController * Output :=
  let c := set_currentTime (Qmax 0 (Qmin time (totalDuration c))) c in
  let c := set_lastTimestamp None c in
  (c, notify c).

Definition seekToSection (sectionIndex : Z) (c : TimelineController)
    : TimelineController * Output :=
  if (0 <=? sectionIndex)%Z
     && (sectionIndex <? Z.of_nat (List.length (sectionStartTimes c)))%Z
  then seek (nth (Z.to_nat sectionIndex) (sectionStartTimes c) 0) c
  else (c, Delivered []).

Definition setSpeed (s : Q) (c : TimelineController) : TimelineController :=
  set_speed s c.

Definition getSpeed (c : TimelineController) : Q := speed c.
Definition isPlaying (c : TimelineController) : bool := playing c.
Definition getCurrentTime (c : TimelineController) : Q := currentTime c.
Definition getTotalDuration (c : TimelineController) : Q := totalDuration c.

Definition subscribe (listener : TimelineListener) (c : TimelineController)
    : TimelineController :=
  if existsb (Nat.eqb listener) (listeners c) then c
  else set_listeners (listeners c ++ [listener]) c.

(** The handle [subscribe] returns. *)
Definition unsubscribe (listener : TimelineListener)
    (c : TimelineController) : TimelineController :=
  set_listeners (filter (fun l => negb (Nat.eqb listener l)) (listeners c)) c.

Definition destroy (c : TimelineController)
    : TimelineController * option nat :=
  let '(c, cancelled) := pause c in
  (set_listeners [] c, cancelled).

(** *** The host

    The controller lives in a single-threaded host.  The host keeps the
    animation frame that is currently requested ([pending]) and hands out
    fresh handles; it runs the tick only for a pending frame. *)
Record World := mkWorld {
  ctl : TimelineController;
  pending : option nat;
  fresh : nat
}.

Inductive Event :=
| EvPlay
| EvPause
| EvSeek (time : Q)
| EvSeekToSection (sectionIndex : Z)
| EvSetSpeed (s : Q)
| EvSubscribe (listener : TimelineListener)
| EvUnsubscribe (listener : TimelineListener)
| EvDestroy
| EvFrame (timestamp : Q).

Definition cancelAnimationFrame (h : option nat) (p : option nat)
    : option nat :=
  match h, p with
  | Some a, Some b => if Nat.eqb a b then None else p
  | _, _ => p
  end.

Definition step (w : World) (e : Event) : World * Output :=
  match e with
  | EvPlay =>
      let '(c, requested) := play (fresh w) (ctl w) in
      if requested
      then (mkWorld c (Some (fresh w)) (S (fresh w)), Delivered [])
      else (mkWorld c (pending w) (fresh w), Delivered [])
  | EvPause =>
      let '(c, cancelled) := pause (ctl w) in
      (mkWorld c (cancelAnimationFrame cancelled (pending w)) (fresh w),
       Delivered [])
  | EvSeek time =>
      let '(c, out) := seek time (ctl w) in
      (mkWorld c (pending w) (fresh w), out)
  | EvSeekToSection i =>
      let '(c, out) := seekToSection i (ctl w) in
      (mkWorld c (pending w) (fresh w), out)
  | EvSetSpeed s => (mkWorld (setSpeed s (ctl w)) (pending w) (fresh w),
                     Delivered [])
  | EvSubscribe l => (mkWorld (subscribe l (ctl w)) (pending w) (fresh w),
                      Delivered [])
  | EvUnsubscribe l => (mkWorld (unsubscribe l (ctl w)) (pending w) (fresh w),
                        Delivered [])
  | EvDestroy =>
      let '(c, cancelled) := destroy (ctl w) in
      (mkWorld c (cancelAnimationFrame cancelled (pending w)) (fresh w),
       Delivered [])
  | EvFrame timestamp =>
      match pending w with
      | None => (w, Delivered [])
      | Some _ =>
          let '(c, rescheduled, out) := tick (fresh w) timestamp (ctl w) in
          if rescheduled
          then (mkWorld c (Some (fresh w)) (S (fresh w)), out)
          else (mkWorld c None (fresh w), out)
      end
  end.

Definition delivered (o : Output) : list (TimelineListener * TimelineState) :=
  match o with
  | Delivered d => d
  | Raised => []
  end.

(** The states handed to subscribers while [evs] are processed, in order. *)
Fixpoint run (w : World) (evs : list Event)
    : World * list (TimelineListener * TimelineState) :=
  match evs with
  | [] => (w, [])
  | e :: rest =>
      let '(w1, out) := step w e in
      let '(w2, outs) := run w1 rest in
      (w2, delivered out ++ outs)
  end.

Definition newWorld (script : PresentationScript) : World :=
  mkWorld (newTimelineController script) None 0.

(** ** Keyframe engine ([src/lib/keyframes.ts]) *)

Inductive ScaleValue :=
| ScaleNumber (s : Q)
| ScaleTuple (t : Q * Q * Q).

Record Keyframe := mkKeyframe {
  kf_time : Q;
  kf_x : option Q;
  kf_y : option Q;
  kf_z : option Q;
  kf_rotateX : option Q;
  kf_rotateY : option Q;
  kf_rotateZ : option Q;
  kf_scale : option ScaleValue;
  kf_opacity : option Q;
  kf_color : option string;
  kf_easing : option string
}.

Record InterpolatedState := mkInterpolated {
  is_x : Q;
  is_y : Q;
  is_z : Q;
  is_rotateX : Q;
  is_rotateY : Q;
  is_rotateZ : Q;
  is_scaleX : Q;
  is_scaleY : Q;
  is_scaleZ : Q;
  is_opacity : Q;
  is_color : option string
}.

(** [a ?? b] when [a] is an optional number. *)
Definition nullish {A} (a : option A) (b : A) : A :=
  match a with
  | Some v => v
  | None => b
  end.

(** Truthiness of an optional string: defined and not empty. *)
Definition truthy (a : option string) : bool :=
  match a with
  | Some s => negb (String.eqb s EmptyString)
  | None => false
  end.

(** [a || b] on optional strings. *)
Definition orElse (a b : option string) : option string :=
  if truthy a then a else b.

(** [a || d] when [d] is a string. *)
Definition orString (a : option string) (d : string) : string :=
  match a with
  | Some s => if String.eqb s EmptyString then d else s
  | None => d
  end.

Definition easingAliases : list (string * string) :=
  [ ("linear", "none");
    ("easeIn", "power1.in");
    ("easeOut", "power1.out");
    ("easeInOut", "power2.inOut");
    ("backOut", "back.out(1.7)");
    ("cubicOut", "power3.out");
    ("cubicInOut", "power3.inOut");
    ("bounceOut", "bounce.out");
    ("elasticOut", "elastic.out(1, 0.3)");
    ("quadOut", "power1.out");
    ("spring", "back.out(2.5)") ]%string.

Fixpoint lookup {A} (key : string) (m : list (string * A)) : option A :=
  match m with
  | [] => None
  | (k, v) :: rest => if String.eqb key k then Some v else lookup key rest
  end.

(** The names that [easingAliases], a plain object, inherits from
    [Object.prototype]: for each of them [easingAliases[name]] is a member
    of the prototype (a function, or the prototype itself for
    [__proto__]), which is truthy. *)
Definition objectPrototypeKeys : list string :=
  [ "constructor"; "hasOwnProperty"; "isPrototypeOf";
    "propertyIsEnumerable"; "toLocaleString"; "toString"; "valueOf";
    "__defineGetter__"; "__defineSetter__"; "__lookupGetter__";
    "__lookupSetter__"; "__proto__" ]%string.

Definition isPrototypeKey (name : string) : bool :=
  existsb (String.eqb name) objectPrototypeKeys.

(** What [easingAliases[easing] || easing] evaluates to: a string, or a
    member of [Object.prototype]. *)
Inductive EaseTarget :=
| EaseName (gsapName : string)
| PrototypeMember (key : string).

(** [easingAliases[easing] || easing]: an own key of the table first, then
    the prototype chain, then the name itself. *)
Definition resolveAlias (easing : string) : EaseTarget :=
  match lookup easing easingAliases with
  | Some a => if String.eqb a EmptyString then EaseName easing
              else EaseName a
  | None => if isPrototypeKey easing then PrototypeMember easing
            else EaseName easing
  end.

Definition lerp (a b t : Q) : Q := a + (b - a) * t.

Definition normalizeScale (s : option ScaleValue) (fallback : Q)
    : Q * Q * Q :=
  match s with
  | None => (fallback, fallback, fallback)
  | Some (ScaleNumber n) => (n, n, n)
  | Some (ScaleTuple t) => t
  end.

(** The state of one keyframe with every unspecified field defaulted: the
    object literal that [interpolateKeyframes] returns in its three
    boundary branches. *)
Definition keyframeState (kf : Keyframe) : InterpolatedState :=
  let '(sx, sy, sz) := normalizeScale (kf_scale kf) 1 in
  {| is_x := nullish (kf_x kf) 0;
     is_y := nullish (kf_y kf) 0;
     is_z := nullish (kf_z kf) 0;
     is_rotateX := nullish (kf_rotateX kf) 0;
     is_rotateY := nullish (kf_rotateY kf) 0;
     is_rotateZ := nullish (kf_rotateZ kf) 0;
     is_scaleX := sx;
     is_scaleY := sy;
     is_scaleZ := sz;
     is_opacity := nullish (kf_opacity kf) 1;
     is_color := kf_color kf |}.

(** The loop that looks for the bracketing pair; [i] is the loop index and
    [kfs] what is left of the array from index [i] on.  The result is
    [fromIdx], which stays [0] when no pair matches. *)
Fixpoint findFromIdx (kfs : list Keyframe) (i : nat) (p : Q) : nat :=
  match kfs with
  | a :: ((b :: _) as rest) =>
      if Qgeb p (kf_time a) && Qltb p (kf_time b) then i
      else findFromIdx rest (S i) p
  | _ => 0%nat
  end.

Section Gsap.

(** Modelled from the spec: the curve table behind [gsap.parseEase] of
    the animation library, which is not part of the repository
    (section 4.2: a named curve is evaluated at the clamped input, an
    unrecognized name has no curve). *)
Variable parseEase : string -> option (Q -> Q).

(** What the same [gsap.parseEase] makes of a member of
    [Object.prototype] handed to it in place of a name: nothing
    ([None]), or a function.  Calling that function on the clamped
    progress gives a number, or no number ([None]: a value of another
    type, or a [TypeError]). *)
Variable parseMember : string -> option (Q -> option Q).

(** Modelled from the spec: [gsap.utils.interpolate] on two colours, of
    the same library; [None] is the failure that [lerpColor] catches
    (section 7: an unparseable colour gives a hard cut). *)
Variable gsapInterpolate : string -> string -> Q -> option string.

(** [easeProgress(progress, easing)]; [None] when the call gives no
    number: it raises, or returns a value of another type. *)
Definition easeProgress (progress : Q) (easing : string) : option Q :=
  let clamped := Qmax 0 (Qmin 1 progress) in
  match resolveAlias easing with
  | EaseName gsapName =>
      match parseEase gsapName with
      | Some easeFn => Some (easeFn clamped)
      | None => Some clamped
      end
  | PrototypeMember key =>
      match parseMember key with
      | Some easeFn => easeFn clamped
      | None => Some clamped
      end
  end.

Definition lerpColor (c1 c2 : string) (t : Q) : string :=
  match gsapInterpolate c1 c2 t with
  | Some c => c
  | None => if Qltb t (1 # 2) then c1 else c2
  end.

(** The object literal that ends [interpolateKeyframes], for an eased
    progress that is a number. *)
Definition pairState (from to : Keyframe) (eased : Q)
    : InterpolatedState :=
  let '(fsx, fsy, fsz) := normalizeScale (kf_scale from) 1 in
  let '(tsx, tsy, tsz) := normalizeScale (kf_scale to) 1 in
  let num (f : Keyframe -> option Q) (d : Q) :=
    lerp (nullish (f from) d) (nullish (f to) (nullish (f from) d)) eased in
  {| is_x := num kf_x 0;
     is_y := num kf_y 0;
     is_z := num kf_z 0;
     is_rotateX := num kf_rotateX 0;
     is_rotateY := num kf_rotateY 0;
     is_rotateZ := num kf_rotateZ 0;
     is_scaleX := lerp fsx tsx eased;
     is_scaleY := lerp fsy tsy eased;
     is_scaleZ := lerp fsz tsz eased;
     is_opacity := num kf_opacity 1;
     is_color :=
       if truthy (kf_color from) && truthy (kf_color to)
       then Some (lerpColor (nullish (kf_color from) EmptyString)
                            (nullish (kf_color to) EmptyString) eased)
       else orElse (kf_color to) (kf_color from) |}.

(** The last part of [interpolateKeyframes]: interpolation between
    [from] and [to] at the clamped progress [p].  [None] when the easing
    call gives no number: the function raises there, or goes on to
    compute with a value that is not a number. *)
Definition interpolatePair (from to : Keyframe) (p : Q)
    : option InterpolatedState :=
  let segmentLength := kf_time to - kf_time from in
  let localProgress :=
    if Qgtb segmentLength 0 then (p - kf_time from) / segmentLength
    else 0 in
  match easeProgress localProgress
          (orString (kf_easing from) "easeInOut") with
  | Some eased => Some (pairState from to eased)
  | None => None
  end.

(** [interpolateKeyframes(keyframes, progress)].  [None] is a
    [TypeError], or a result computed from an eased value that is not a
    number: inside the easing call of the bracketing pair, or when
    reading [keyframes[fromIdx + 1]] past the end, which the guards
    exclude. *)
Definition interpolateKeyframes (keyframes : list Keyframe) (progress : Q)
    : option InterpolatedState :=
  match keyframes with
  | [] =>
      Some {| is_x := 0; is_y := 0; is_z := 0;
              is_rotateX := 0; is_rotateY := 0; is_rotateZ := 0;
              is_scaleX := 1; is_scaleY := 1; is_scaleZ := 1;
              is_opacity := 1; is_color := None |}
  | first :: others =>
      let p := Qmax 0 (Qmin 1 progress) in
      match others with
      | [] => Some (keyframeState first)
      | _ :: _ =>
          if Qleb p (kf_time first) then Some (keyframeState first)
          else
            let last := List.last keyframes first in
            if Qgeb p (kf_time last) then Some (keyframeState last)
            else
              let fromIdx := findFromIdx keyframes 0 p in
              match nth_error keyframes fromIdx,
                    nth_error keyframes (fromIdx + 1) with
              | Some from, Some to => interpolatePair from to p
              | _, _ => None
              end
      end
  end.

End Gsap.

(** ** Script repair ([alignSegmentsToSteps] and its helpers) *)

Inductive ElementType :=
| TyText | TyShape | TyEquation | TyLine | TyNode | TyEdge | TyMolecule
| TyArrow | TyHighlight.

(** The value of a property of an element, as far as the repairer looks
    at it. *)
Inductive JsValue :=
| JsUndefined
| JsNull
| JsString (s : string)
| JsOther.

Record AnimationElement := mkElement {
  el_type : ElementType;
  el_props : option (list (string * JsValue))
}.

Record AnimationStep := mkStep {
  step_id : string;
  step_description : string;
  step_duration : Q;
  step_elements : list AnimationElement
}.

Record AnimationData := mkAnimationData {
  ad_steps : list AnimationStep
}.

Open Scope string_scope.

(** *** Strings *)

(** The class [\s] of the regular expressions, which is also the white
    space of [trim], on the code units below 256: tab to carriage return,
    the space and the no-break space. *)
Definition isSpace (c : ascii) : bool :=
  let n := nat_of_ascii c in
  ((9 <=? n)%nat && (n <=? 13)%nat) || (n =? 32)%nat || (n =? 160)%nat.

Definition isLower (c : ascii) : bool :=
  let n := nat_of_ascii c in (97 <=? n)%nat && (n <=? 122)%nat.

Definition isUpper (c : ascii) : bool :=
  let n := nat_of_ascii c in (65 <=? n)%nat && (n <=? 90)%nat.

Definition isDigit (c : ascii) : bool :=
  let n := nat_of_ascii c in (48 <=? n)%nat && (n <=? 57)%nat.

(** The lower-case letters of the code units 224 to 254 (not the division
    sign, 247) and the upper-case letters of the code units 192 to 222
    (not the multiplication sign, 215). *)
Definition isLatinLower (c : ascii) : bool :=
  let n := nat_of_ascii c in
  (224 <=? n)%nat && (n <=? 254)%nat && negb (n =? 247)%nat.

Definition isLatinUpper (c : ascii) : bool :=
  let n := nat_of_ascii c in
  (192 <=? n)%nat && (n <=? 222)%nat && negb (n =? 215)%nat.

(** The three code units below 256 whose upper case is not one code unit
    below 256: the micro sign (181), the sharp s (223, to two letters) and
    the y with diaeresis (255). *)
Definition upperCaseOutside (c : ascii) : bool :=
  let n := nat_of_ascii c in
  (n =? 181)%nat || (n =? 223)%nat || (n =? 255)%nat.

(** [c.toUpperCase()] on one code unit; the three code units of
    [upperCaseOutside] are left as they are. *)
Definition toUpperChar (c : ascii) : ascii :=
  if isLower c || isLatinLower c
  then ascii_of_nat (nat_of_ascii c - 32) else c.

(** [c.toLowerCase()] on one code unit. *)
Definition toLowerChar (c : ascii) : ascii :=
  if isUpper c || isLatinUpper c
  then ascii_of_nat (nat_of_ascii c + 32) else c.

(** Upper-casing leaves the code unit as it is. *)
Definition upperCaseKeeps (c : ascii) : bool :=
  negb (isLower c || isLatinLower c || upperCaseOutside c).

Fixpoint toLowerCase (s : string) : string :=
  match s with
  | EmptyString => EmptyString
  | String c r => String (toLowerChar c) (toLowerCase r)
  end.

Fixpoint filterChars (f : ascii -> bool) (s : string) : string :=
  match s with
  | EmptyString => EmptyString
  | String c r => if f c then String c (filterChars f r)
                  else filterChars f r
  end.

(** [s.replace(/\s+/g, ' ')]; [inRun] tells that the previous code unit
    was white space. *)
Fixpoint collapseFrom (inRun : bool) (s : string) : string :=
  match s with
  | EmptyString => EmptyString
  | String c r =>
      if isSpace c
      then if inRun then collapseFrom true r
           else String " " (collapseFrom true r)
      else String c (collapseFrom false r)
  end.

Definition collapseSpaces (s : string) : string := collapseFrom false s.

Fixpoint trimStart (s : string) : string :=
  match s with
  | EmptyString => EmptyString
  | String c r => if isSpace c then trimStart r else s
  end.

Fixpoint trimEnd (s : string) : string :=
  match s with
  | EmptyString => EmptyString
  | String c r =>
      match trimEnd r with
      | EmptyString => if isSpace c then EmptyString
                       else String c EmptyString
      | r' => String c r'
      end
  end.

Definition trim (s : string) : string := trimEnd (trimStart s).

Definition isEmpty (s : string) : bool :=
  match s with
  | EmptyString => true
  | String _ _ => false
  end.

(** [s.split(/\s+/)]; [cur] is the piece being read, reversed, and [inRun]
    tells that the previous code unit was white space. *)
Fixpoint splitSpacesFrom (inRun : bool) (cur : list ascii) (s : string)
    : list string :=
  match s with
  | EmptyString => [string_of_list_ascii (rev cur)]
  | String c r =>
      if isSpace c
      then if inRun then splitSpacesFrom true cur r
           else string_of_list_ascii (rev cur) :: splitSpacesFrom true [] r
      else splitSpacesFrom false (c :: cur) r
  end.

Definition splitSpaces (s : string) : list string :=
  splitSpacesFrom false [] s.

(** [s.split(/\s+/).filter(Boolean).length] *)
Definition wordCount (s : string) : nat :=
  List.length (filter (fun w => negb (isEmpty w)) (splitSpaces s)).

Definition isTerminal (c : ascii) : bool :=
  Ascii.eqb c "." || Ascii.eqb c "!" || Ascii.eqb c "?".

(** Where the scan of [text.split(/(?<=[.!?])\s+/)] stands: just after a
    terminal mark (a match may start here), inside a matched run of white
    space, or elsewhere. *)
Inductive SplitState := AfterMark | InGap | Elsewhere.

Fixpoint splitAfterMarks (st : SplitState) (cur : list ascii) (s : string)
    : list string :=
  match s with
  | EmptyString => [string_of_list_ascii (rev cur)]
  | String c r =>
      if isSpace c then
        match st with
        | AfterMark =>
            string_of_list_ascii (rev cur) :: splitAfterMarks InGap [] r
        | InGap => splitAfterMarks InGap [] r
        | Elsewhere => splitAfterMarks Elsewhere (c :: cur) r
        end
      else
        splitAfterMarks (if isTerminal c then AfterMark else Elsewhere)
                        (c :: cur) r
  end.

Definition splitIntoSentences (text : string) : list string :=
  if isEmpty text then []
  else
    filter (fun sentence => negb (isEmpty sentence))
      (map (fun sentence => trim (collapseSpaces sentence))
           (splitAfterMarks Elsewhere [] text)).

Fixpoint lastChar (s : string) : option ascii :=
  match s with
  | EmptyString => None
  | String c EmptyString => Some c
  | String _ r => lastChar r
  end.

Definition ensureSentence (text : string) : string :=
  match trim (collapseSpaces text) with
  | EmptyString => EmptyString
  | String c rest =>
      let capitalized := String (toUpperChar c) rest in
      match lastChar capitalized with
      | Some l => if isTerminal l then capitalized else capitalized ++ "."
      | None => capitalized ++ "."
      end
  end.

(** [Array.from(new Set(xs))]: first occurrences, in order. *)
Fixpoint dedupe (seen xs : list string) : list string :=
  match xs with
  | [] => []
  | x :: rest =>
      if existsb (String.eqb x) seen then dedupe seen rest
      else x :: dedupe (x :: seen) rest
  end.

Definition isFocusType (t : ElementType) : bool :=
  match t with
  | TyHighlight | TyShape | TyNode | TyText => true
  | _ => false
  end.

(** [props?.content ?? props?.label] *)
Definition rawContent (props : option (list (string * JsValue))) : JsValue :=
  let get key :=
    match props with
    | Some m => match lookup key m with
                | Some v => v
                | None => JsUndefined
                end
    | None => JsUndefined
    end in
  match get "content" with
  | JsUndefined | JsNull => get "label"
  | v => v
  end.

Fixpoint highlightPhrases (elements : list AnimationElement) : list string :=
  match elements with
  | [] => []
  | element :: rest =>
      if isFocusType (el_type element) then
        match rawContent (el_props element) with
        | JsString raw =>
            let cleaned := trim (collapseSpaces raw) in
            if (0 <? String.length cleaned)%nat
            then cleaned :: highlightPhrases rest
            else highlightPhrases rest
        | _ => highlightPhrases rest
        end
      else highlightPhrases rest
  end.

Definition extractStepHighlights (step : AnimationStep) : list string :=
  firstn 3 (dedupe [] (highlightPhrases (step_elements step))).

(** [sectionConcept || sectionTitle || 'this concept'] *)
Definition focusSubjectOf (sectionConcept sectionTitle : string) : string :=
  if negb (isEmpty sectionConcept) then sectionConcept
  else if negb (isEmpty sectionTitle) then sectionTitle
  else "this concept".

Definition showNat (n : nat) : string :=
  NilEmpty.string_of_uint (Nat.to_uint n).

Definition buildSegmentNarration (step : AnimationStep)
    (fallbackSentence : option string)
    (sectionConcept sectionTitle : string) (stepIndex : nat) : string :=
  if truthy fallbackSentence
     && (0 <? String.length (nullish fallbackSentence EmptyString))%nat
  then ensureSentence (nullish fallbackSentence EmptyString)
  else
    let highlights := extractStepHighlights step in
    let focusSubject := focusSubjectOf sectionConcept sectionTitle in
    match highlights with
    | h0 :: more =>
        let joined := match more with
                      | [] => h0
                      | h1 :: _ => h0 ++ " and " ++ h1
                      end in
        ensureSentence ("We spotlight " ++ joined
                        ++ " to show how it connects to " ++ focusSubject
                        ++ ".")
    | [] =>
        if negb (isEmpty (step_description step))
           && (0 <? String.length (trim (step_description step)))%nat
        then ensureSentence (step_description step)
        else ensureSentence ("Step " ++ showNat (stepIndex + 1)
                             ++ " deepens the understanding of "
                             ++ focusSubject ++ ".")
    end.

(** [word.replace(/[^a-zA-Z0-9-]/g, '')] *)
Definition cleanWord (word : string) : string :=
  filterChars (fun c => isLower c || isUpper c || isDigit c
                        || Ascii.eqb c "-") word.

(** One of the two [for] loops of [buildEmphasis]; the boolean tells that
    the loop was left because two words were found. *)
Fixpoint emphasisLoop (words emphasis : list string)
    : list string * bool :=
  match words with
  | [] => (emphasis, false)
  | word :: rest =>
      let normalized := toLowerCase word in
      let emphasis :=
        if negb (isEmpty normalized)
           && negb (existsb (fun w => String.eqb (toLowerCase w) normalized)
                            emphasis)
        then (emphasis ++ [word])%list else emphasis in
      if (2 <=? List.length emphasis)%nat then (emphasis, true)
      else emphasisLoop rest emphasis
  end.

Definition wordsLongerThan (n : nat) (s : string) : list string :=
  filter (fun word => (n <? String.length word)%nat)
         (map cleanWord (splitSpaces s)).

Definition buildEmphasis (step : AnimationStep) (segmentText : string)
    : list string :=
  let highlightWords :=
    flat_map (wordsLongerThan 3) (extractStepHighlights step) in
  let '(emphasis, full) := emphasisLoop highlightWords [] in
  if full then firstn 2 emphasis
  else
    let fallbackWords := wordsLongerThan 4 segmentText in
    firstn 2 (fst (emphasisLoop fallbackWords emphasis)).

(** [Number(x.toFixed(2))] *)
Definition toFixed2 (x : Q) : Q :=
  Qmake (Qfloor (x * 100 + (1 # 2))) 100.

(** The body of the [steps.map] callback of [alignSegmentsToSteps]. *)
Definition segmentForStep (sentences : list string)
    (sectionId sectionTitle sectionConcept : string)
    (index : nat) (step : AnimationStep) : NarrationSegment :=
  let fallbackSentence := nth_error sentences index in
  let text := buildSegmentNarration step fallbackSentence sectionConcept
                sectionTitle index in
  let estimatedFromWords :=
    Qmax (5 # 2) (inject_Z (Z.of_nat (wordCount text)) / 150 * 60)%Q in
  let emphasis := buildEmphasis step text in
  {| seg_id := "seg-" ++ sectionId ++ "-" ++ showNat (index + 1);
     seg_text := text;
     seg_stepId := if negb (isEmpty (step_id step)) then step_id step
                   else sectionId ++ "-step-" ++ showNat (index + 1);
     seg_estimatedDuration :=
       if Qeq_bool (step_duration step) 0 then toFixed2 estimatedFromWords
       else step_duration step;
     seg_startTime := 0;
     seg_endTime := 0;
     seg_emphasis := match emphasis with
                     | [] => None
                     | _ :: _ => Some emphasis
                     end;
     seg_pacing := Normal |}.

(** [xs.map((x, index) => f(index, x))], from index [i] on. *)
Fixpoint mapi {A B} (f : nat -> A -> B) (i : nat) (xs : list A) : list B :=
  match xs with
  | [] => []
  | x :: rest => f i x :: mapi f (S i) rest
  end.

(** [xs.join(' ')] *)
Fixpoint joinSpace (xs : list string) : string :=
  match xs with
  | [] => EmptyString
  | [x] => x
  | x :: rest => x ++ " " ++ joinSpace rest
  end.

Definition alignSegmentsToSteps (script : SectionScript)
    (animationData : AnimationData)
    (narration sectionId sectionTitle sectionConcept : string)
    : SectionScript :=
  let steps := ad_steps animationData in
  match steps with
  | [] =>
      {| ss_sectionId := sectionId;
         ss_fullText := narration;
         ss_segments := ss_segments script;
         ss_totalDuration := 0 |}
  | _ :: _ =>
      let sentences := splitIntoSentences narration in
      let segments :=
        mapi (segmentForStep sentences sectionId sectionTitle sectionConcept)
             0 steps in
      {| ss_sectionId := sectionId;
         ss_fullText := joinSpace (map seg_text segments);
         ss_segments := segments;
         ss_totalDuration := 0 |}
  end.

(** The validity check of the caller: whether the section is repaired. *)
Definition shouldRegenerate (script : SectionScript)
    (animationData : AnimationData) : bool :=
  let segCount := List.length (ss_segments script) in
  let stepCount := List.length (ad_steps animationData) in
  let uniqueTexts :=
    dedupe []
      (filter (fun t => negb (isEmpty t))
         (map (fun seg => toLowerCase (trim (seg_text seg)))
              (ss_segments script))) in
  negb (segCount =? stepCount)%nat || (segCount =? 0)%nat
  || (List.length uniqueTexts <=? 1)%nat.

Close Scope string_scope.

(** ** Specification predicates *)

Fixpoint sumQ (xs : list Q) : Q :=
  match xs with
  | [] => 0
  | x :: rest => x + sumQ rest
  end.

(** The data-model invariant of a [PresentationScript]. *)
Definition script_invariant (p : PresentationScript) : Prop :=
  List.length (ps_transitions p)
    = Nat.max 0 (List.length (ps_sections p) - 1)
  /\ ps_totalDuration p
       == sumQ (map ss_totalDuration (ps_sections p))
          + sumQ (map tr_duration (ps_transitions p)).

Definition durations_nonneg (p : PresentationScript) : Prop :=
  Forall (fun s => 0 <= ss_totalDuration s) (ps_sections p)
  /\ Forall (fun tr => 0 <= tr_duration tr) (ps_transitions p).

(** The arrays [computeStartTimes] builds, read off the loop without the
    accumulators: the start of every section from index [i] on, the start
    of every transition from index [i] on, and the offset the loop ends
    with. *)
Fixpoint sec_starts (secs : list SectionScript) (i : nat)
    (trs : list SectionTransition) (offset : Q) : list Q :=
  match secs with
  | [] => []
  | s :: rest =>
      offset
      :: match nth_error trs i with
         | Some tr =>
             sec_starts rest (S i) trs
               (offset + ss_totalDuration s + tr_duration tr)
         | None => sec_starts rest (S i) trs (offset + ss_totalDuration s)
         end
  end.

Fixpoint tr_starts (secs : list SectionScript) (i : nat)
    (trs : list SectionTransition) (offset : Q) : list Q :=
  match secs with
  | [] => []
  | s :: rest =>
      match nth_error trs i with
      | Some tr =>
          (offset + ss_totalDuration s)
          :: tr_starts rest (S i) trs
               (offset + ss_totalDuration s + tr_duration tr)
      | None => tr_starts rest (S i) trs (offset + ss_totalDuration s)
      end
  end.

Fixpoint endOffset (secs : list SectionScript) (i : nat)
    (trs : list SectionTransition) (offset : Q) : Q :=
  match secs with
  | [] => offset
  | s :: rest =>
      match nth_error trs i with
      | Some tr =>
          endOffset rest (S i) trs
            (offset + ss_totalDuration s + tr_duration tr)
      | None => endOffset rest (S i) trs (offset + ss_totalDuration s)
      end
  end.

(** The durations of a script added up in timeline order, as the pass of
    [computeStartTimes] adds them: section 0, transition 0, section 1 and
    so on. *)
Definition timelineTotal (p : PresentationScript) : Q :=
  endOffset (ps_sections p) 0 (ps_transitions p) 0.

(** The data-model invariant with the total taken in that order. *)
Definition timeline_invariant (p : PresentationScript) : Prop :=
  List.length (ps_transitions p)
    = Nat.max 0 (List.length (ps_sections p) - 1)
  /\ ps_totalDuration p == timelineTotal p.

(** [wired c secs i offset]: from section [i] on, the start arrays of [c]
    hold the offsets of the forward pass that reaches section [i] at
    [offset]. *)
Fixpoint wired (c : TimelineController) (secs : list SectionScript)
    (i : nat) (offset : Q) : Prop :=
  match secs with
  | [] => True
  | s :: rest =>
      nth i (sectionStartTimes c) 0 = offset
      /\ match nth_error (transitions c) i with
         | Some tr =>
             nth i (transitionStartTimes c) 0 = offset + ss_totalDuration s
             /\ wired c rest (S i)
                  (offset + ss_totalDuration s + tr_duration tr)
         | None => wired c rest (S i) (offset + ss_totalDuration s)
         end
  end.

(** The spans that [getStateAtTime] scans, in scan order: section [i],
    then the transition after it, from index [i] on. *)
Fixpoint spans_from (c : TimelineController) (secs : list SectionScript)
    (i : nat) : list (Q * Q) :=
  match secs with
  | [] => []
  | script :: rest =>
      let sectionStart := nth i (sectionStartTimes c) 0 in
      (sectionStart, sectionStart + ss_totalDuration script)
      :: match nth_error (transitions c) i with
         | Some transition =>
             let transitionStart := nth i (transitionStartTimes c) 0 in
             (transitionStart, transitionStart + tr_duration transition)
             :: spans_from c rest (S i)
         | None => spans_from c rest (S i)
         end
  end.

Definition spans (c : TimelineController) : list (Q * Q) :=
  spans_from c (sectionScripts c) 0.

Definition in_span (t : Q) (sp : Q * Q) : Prop := fst sp <= t /\ t < snd sp.

(** [abut a l b]: the first span of [l] starts at [a], every span starts
    where the one before it ends, and the last one ends at [b]. *)
Fixpoint abut (a : Q) (l : list (Q * Q)) (b : Q) : Prop :=
  match l with
  | [] => a == b
  | sp :: rest => fst sp == a /\ abut (snd sp) rest b
  end.

(** The invariant of the segments of a [SectionScript]: sorted by start
    time, contiguous, covering [[0, totalDuration)]. *)
Fixpoint contiguous_sorted (segs : list NarrationSegment) : Prop :=
  match segs with
  | a :: ((b :: _) as rest) =>
      seg_startTime a <= seg_startTime b
      /\ seg_endTime a == seg_startTime b
      /\ contiguous_sorted rest
  | _ => True
  end.

Definition section_invariant (s : SectionScript) : Prop :=
  contiguous_sorted (ss_segments s)
  /\ match ss_segments s with
     | [] => True
     | a :: _ => seg_startTime a == 0
     end
  /\ match List.last (map Some (ss_segments s)) None with
     | None => True
     | Some z => seg_endTime z == ss_totalDuration s
     end.


(** A playing session: what may happen after [play()] and before any
    [pause()], [seek()] or [destroy()].  Frames arrive with timestamps
    that do not go back ([last] is the timestamp of the previous frame, if
    any) and the speed multiplier is never negative. *)
Fixpoint session_ok (last : option Q) (evs : list Event) : Prop :=
  match evs with
  | [] => True
  | EvFrame timestamp :: rest =>
      match last with
      | Some l => l <= timestamp
      | None => True
      end
      /\ session_ok (Some timestamp) rest
  | EvSetSpeed s :: rest => 0 <= s /\ session_ok last rest
  | EvSubscribe _ :: rest => session_ok last rest
  | EvUnsubscribe _ :: rest => session_ok last rest
  | _ => False
  end.


(** Whether a string has a code unit that is not white space. *)
Fixpoint hasNonSpace (s : string) : bool :=
  match s with
  | EmptyString => false
  | String c r => negb (isSpace c) || hasNonSpace r
  end.

(** Keyframe times in ascending order, and in strictly ascending order. *)
Fixpoint sorted_by_time (kfs : list Keyframe) : Prop :=
  match kfs with
  | a :: ((b :: _) as rest) => kf_time a <= kf_time b /\ sorted_by_time rest
  | _ => True
  end.

Fixpoint increasing_by_time (kfs : list Keyframe) : Prop :=
  match kfs with
  | a :: ((b :: _) as rest) =>
      kf_time a < kf_time b /\ increasing_by_time rest
  | _ => True
  end.

(** A keyframe that only gives a time and an [x]. *)
Definition kfX (time x : Q) : Keyframe :=
  {| kf_time := time; kf_x := Some x; kf_y := None; kf_z := None;
     kf_rotateX := None; kf_rotateY := None; kf_rotateZ := None;
     kf_scale := None; kf_opacity := None; kf_color := None;
     kf_easing := None |}.

(** A small curve table and a colour interpolation that always fails,
    to run the engine on. *)
Definition sampleCurves (name : string) : option (Q -> Q) :=
  if String.eqb name "none" then Some (fun p => p)
  else if String.eqb name "power1.in" then Some (fun p => p * p)
  else if String.eqb name "power1.out"
       then Some (fun p => 1 - (1 - p) * (1 - p))
  else None.

Definition noInterpolate (c1 c2 : string) (t : Q) : option string := None.

(** A sample of what the library makes of the inherited members: it hands
    a function back as it is, and calling it on a progress gives no
    number ([toString] gives a string, [constructor] an object, [valueOf]
    raises a [TypeError]). *)
Definition sampleMembers (key : string) : option (Q -> option Q) :=
  Some (fun _ => None).

(** The easing of a keyframe, [from.easing || 'easeInOut'], is not a name
    inherited from [Object.prototype]. *)
Definition plainEasing (easing : option string) : Prop :=
  isPrototypeKey (orString easing "easeInOut") = false.

(** Scenario C: three steps, a narration of one sentence. *)
Definition scenarioC_steps : list AnimationStep :=
  [ mkStep "s1" "intro the topic" 0 [];
    mkStep EmptyString EmptyString 3
      [ mkElement TyShape (Some [("label", JsString "Encoder  block")]);
        mkElement TyArrow None;
        mkElement TyText
          (Some [("content", JsNull); ("label", JsString "Decoder")]) ];
    mkStep "s3" "  " 0 [] ]%string.

Definition scenarioC_script : SectionScript :=
  {| ss_sectionId := "draft"; ss_fullText := "Intro";
     ss_segments := [ mkSegment "g1" "Intro" "s1" 4 0 4 None Normal ];
     ss_totalDuration := 4 |}.

(** ** Example scripts *)

(** The script without sections. *)
Definition emptyScript : PresentationScript :=
  {| ps_paperTitle := EmptyString; ps_sections := []; ps_transitions := [];
     ps_totalDuration := 0 |}.

(** Scenario A: two sections of 10 and 8 seconds and a transition of 2. *)
Definition scenarioA : PresentationScript :=
  {| ps_paperTitle := "paper";
     ps_sections := [ mkSectionScript "a" EmptyString [] 10;
                      mkSectionScript "b" EmptyString [] 8 ];
     ps_transitions := [ mkTransition "a" "b" Crossfade 2 ];
     ps_totalDuration := 20 |}.

(** Two sections of 5 seconds and a transition of -2 seconds between
    them; the total is 8. *)
Definition backwardTransition : PresentationScript :=
  {| ps_paperTitle := "paper";
     ps_sections := [ mkSectionScript "a" EmptyString [] 5;
                      mkSectionScript "b" EmptyString [] 5 ];
     ps_transitions := [ mkTransition "a" "b" Crossfade (-2) ];
     ps_totalDuration := 8 |}.

(** Scenario B: one section with three segments of three seconds. *)
Definition seg3 (a b : Q) : NarrationSegment :=
  {| seg_id := EmptyString; seg_text := EmptyString; seg_stepId := EmptyString;
     seg_estimatedDuration := 3; seg_startTime := a; seg_endTime := b;
     seg_emphasis := None; seg_pacing := Normal |}.

Definition scenarioB_section : SectionScript :=
  {| ss_sectionId := "b"; ss_fullText := EmptyString;
     ss_segments := [seg3 0 3; seg3 3 6; seg3 6 9];
     ss_totalDuration := 9 |}.

Definition scenarioB : PresentationScript :=
  {| ps_paperTitle := "paper"; ps_sections := [scenarioB_section];
     ps_transitions := []; ps_totalDuration := 9 |}.


(** ** More example scripts *)

(** A second section, of six seconds, in two segments. *)
Definition sectionC : SectionScript :=
  {| ss_sectionId := "c"; ss_fullText := EmptyString;
     ss_segments := [seg3 0 2; seg3 2 6];
     ss_totalDuration := 6 |}.

(** Scenario B followed, after a transition of one second, by [sectionC]. *)
Definition scenarioBC : PresentationScript :=
  {| ps_paperTitle := "paper";
     ps_sections := [scenarioB_section; sectionC];
     ps_transitions := [mkTransition "b" "c" Crossfade 1];
     ps_totalDuration := 16 |}.

(** Every section of the controller has at least one segment. *)
Definition has_segments (c : TimelineController) : Prop :=
  Forall (fun s => ss_segments s <> []) (sectionScripts c).

(** Two controllers over the same script: [getStateAtTime] reads nothing
    else. *)
Definition same_script (c c' : TimelineController) : Prop :=
  sectionScripts c' = sectionScripts c
  /\ transitions c' = transitions c
  /\ totalDuration c' = totalDuration c
  /\ sectionStartTimes c' = sectionStartTimes c
  /\ transitionStartTimes c' = transitionStartTimes c.

(** What [notify] hands out for a given result of [getStateAtTime]. *)
Definition broadcast (ls : list TimelineListener)
    (r : option TimelineState) : Output :=
  match r with
  | Some st => Delivered (map (fun listener => (listener, st)) ls)
  | None => Raised
  end.

(** The baseline a tick measures its delta from: the previous timestamp,
    or the tick's own timestamp on the first tick after a (re)start. *)
Definition tickBaseline (c : TimelineController) (timestamp : Q) : Q :=
  match lastTimestamp c with
  | Some l => l
  | None => timestamp
  end.

(** The time a tick advances the controller to, before clamping. *)
Definition tickTarget (c : TimelineController) (timestamp : Q) : Q :=
  currentTime c + (timestamp - tickBaseline c timestamp) / 1000 * speed c.

(** The host's frames arrive in time order and no speed is negative:
    [behaved w evs] follows the run of [evs] from [w]. *)
Definition event_ok (w : World) (e : Event) : Prop :=
  match e with
  | EvFrame timestamp => tickBaseline (ctl w) timestamp <= timestamp
  | EvSetSpeed s => 0 <= s
  | _ => True
  end.

Fixpoint behaved (w : World) (evs : list Event) : Prop :=
  match evs with
  | [] => True
  | e :: rest => event_ok w e /\ behaved (fst (step w e)) rest
  end.

(** What every world reached from [newWorld p] satisfies. *)
Definition world_inv (p : PresentationScript) (w : World) : Prop :=
  same_script (newTimelineController p) (ctl w)
  /\ NoDup (listeners (ctl w))
  /\ forall h, pending w = Some h ->
               rafId (ctl w) = Some h /\ playing (ctl w) = true.

(** Scenario B-C with two subscribers, playing. *)
Definition playingB2 : World :=
  fst (run (newWorld scenarioBC)
         [EvSubscribe 4%nat; EvSubscribe 7%nat; EvPlay]).

(** ** Keyframe engine: 3D tracks, camera tracks, legacy descriptors *)

Definition Vec3 : Type := (Q * Q * Q)%type.

Record Keyframe3D := mkKeyframe3D {
  k3_time : Q;
  k3_position : option Vec3;
  k3_rotation : option Vec3;
  k3_scale : option ScaleValue;
  k3_opacity : option Q;
  k3_easing : option string
}.

Record CameraKeyframe := mkCameraKeyframe {
  ck_time : Q;
  ck_position : Vec3;
  ck_lookAt : option Vec3;
  ck_fov : option Q;
  ck_easing : option string
}.

Record Interpolated3DState := mkInterpolated3D {
  i3_position : Vec3;
  i3_rotation : Vec3;
  i3_scale : Vec3;
  i3_opacity : Q
}.

Record InterpolatedCameraState := mkInterpolatedCamera {
  ic_position : Vec3;
  ic_lookAt : Vec3;
  ic_fov : Q
}.

Definition lerpTuple3 (a b : Vec3) (t : Q) : Vec3 :=
  let '(a0, a1, a2) := a in
  let '(b0, b1, b2) := b in
  (lerp a0 b0 t, lerp a1 b1 t, lerp a2 b2 t).

(** The search for the bracketing pair, as the three interpolation
    functions write it, over any kind of keyframe. *)
Fixpoint findBracket {A} (time : A -> Q) (kfs : list A) (i : nat) (p : Q)
    : nat :=
  match kfs with
  | a :: ((b :: _) as rest) =>
      if Qgeb p (time a) && Qltb p (time b) then i
      else findBracket time rest (S i) p
  | _ => 0%nat
  end.

(** The object literal of the boundary branches of
    [interpolate3DKeyframes]. *)
Definition keyframe3DState (kf : Keyframe3D) : Interpolated3DState :=
  {| i3_position := nullish (k3_position kf) (0, 0, 0);
     i3_rotation := nullish (k3_rotation kf) (0, 0, 0);
     i3_scale := normalizeScale (k3_scale kf) 1;
     i3_opacity := nullish (k3_opacity kf) 1 |}.

(** The object literal of the boundary branches of
    [interpolateCameraTrack]. *)
Definition cameraState (kf : CameraKeyframe) : InterpolatedCameraState :=
  {| ic_position := ck_position kf;
     ic_lookAt := nullish (ck_lookAt kf) (0, 0, 0);
     ic_fov := nullish (ck_fov kf) 50 |}.

Section GsapTracks.

(** Modelled from the spec: the curve table behind [gsap.parseEase] of the
    animation library, which is not part of the repository (section 4.2). *)
Variable parseEase : string -> option (Q -> Q).

(** What [gsap.parseEase] makes of a member of [Object.prototype], as for
    the 2D tracks. *)
Variable parseMember : string -> option (Q -> option Q).

(** The object literal that ends [interpolate3DKeyframes], for an eased
    progress that is a number. *)
Definition pair3DState (from to : Keyframe3D) (eased : Q)
    : Interpolated3DState :=
  {| i3_position :=
       lerpTuple3 (nullish (k3_position from) (0, 0, 0))
         (nullish (k3_position to) (nullish (k3_position from) (0, 0, 0)))
         eased;
     i3_rotation :=
       lerpTuple3 (nullish (k3_rotation from) (0, 0, 0))
         (nullish (k3_rotation to) (nullish (k3_rotation from) (0, 0, 0)))
         eased;
     i3_scale :=
       lerpTuple3 (normalizeScale (k3_scale from) 1)
         (normalizeScale (k3_scale to) 1) eased;
     i3_opacity :=
       lerp (nullish (k3_opacity from) 1)
         (nullish (k3_opacity to) (nullish (k3_opacity from) 1)) eased |}.

(** The last part of [interpolate3DKeyframes]; [None] when the easing
    call gives no number. *)
Definition interpolate3DPair (from to : Keyframe3D) (p : Q)
    : option Interpolated3DState :=
  let segLen := k3_time to - k3_time from in
  let local := if Qgtb segLen 0 then (p - k3_time from) / segLen else 0 in
  match easeProgress parseEase parseMember local
          (orString (k3_easing from) "easeInOut") with
  | Some eased => Some (pair3DState from to eased)
  | None => None
  end.

(** [interpolate3DKeyframes(keyframes, progress)]; [None] is a
    [TypeError], or a result computed from an eased value that is not a
    number: inside the easing call of the bracketing pair, or when
    reading a keyframe past the end of the array. *)
Definition interpolate3DKeyframes (keyframes : list Keyframe3D)
    (progress : Q) : option Interpolated3DState :=
  match keyframes with
  | [] =>
      Some {| i3_position := (0, 0, 0); i3_rotation := (0, 0, 0);
              i3_scale := (1, 1, 1); i3_opacity := 1 |}
  | first :: others =>
      let p := Qmax 0 (Qmin 1 progress) in
      match others with
      | [] => Some (keyframe3DState first)
      | _ :: _ =>
          if Qleb p (k3_time first) then Some (keyframe3DState first)
          else
            let last := List.last keyframes first in
            if Qgeb p (k3_time last) then Some (keyframe3DState last)
            else
              let fromIdx := findBracket k3_time keyframes 0 p in
              match nth_error keyframes fromIdx,
                    nth_error keyframes (fromIdx + 1) with
              | Some from, Some to => interpolate3DPair from to p
              | _, _ => None
              end
      end
  end.

(** The object literal that ends [interpolateCameraTrack], for an eased
    progress that is a number. *)
Definition cameraPairState (from to : CameraKeyframe) (eased : Q)
    : InterpolatedCameraState :=
  {| ic_position := lerpTuple3 (ck_position from) (ck_position to) eased;
     ic_lookAt :=
       lerpTuple3 (nullish (ck_lookAt from) (0, 0, 0))
         (nullish (ck_lookAt to) (0, 0, 0)) eased;
     ic_fov := lerp (nullish (ck_fov from) 50) (nullish (ck_fov to) 50)
                 eased |}.

(** The last part of [interpolateCameraTrack]; [None] when the easing
    call gives no number. *)
Definition interpolateCameraPair (from to : CameraKeyframe) (p : Q)
    : option InterpolatedCameraState :=
  let segLen := ck_time to - ck_time from in
  let local := if Qgtb segLen 0 then (p - ck_time from) / segLen else 0 in
  match easeProgress parseEase parseMember local
          (orString (ck_easing from) "easeInOut") with
  | Some eased => Some (cameraPairState from to eased)
  | None => None
  end.

(** [interpolateCameraTrack(keyframes, progress)]; [None] as for
    [interpolate3DKeyframes]. *)
Definition interpolateCameraTrack (keyframes : list CameraKeyframe)
    (progress : Q) : option InterpolatedCameraState :=
  match keyframes with
  | [] =>
      Some {| ic_position := (0, 0, 6); ic_lookAt := (0, 0, 0);
              ic_fov := 50 |}
  | first :: others =>
      let p := Qmax 0 (Qmin 1 progress) in
      match others with
      | [] => Some (cameraState first)
      | _ :: _ =>
          if Qleb p (ck_time first) then Some (cameraState first)
          else
            let last := List.last keyframes first in
            if Qgeb p (ck_time last) then Some (cameraState last)
            else
              let fromIdx := findBracket ck_time keyframes 0 p in
              match nth_error keyframes fromIdx,
                    nth_error keyframes (fromIdx + 1) with
              | Some from, Some to => interpolateCameraPair from to p
              | _, _ => None
              end
      end
  end.

End GsapTracks.

(** The [animation] block of an element, as far as the legacy lowering
    reads it, and the [x]/[y] of its props. *)
Record LegacyAnimation := mkLegacyAnimation {
  la_enter : string;
  la_exit : option string;
  la_continuous : option string;
  la_duration : Q;
  la_delay : Q
}.

Record ElementXY := mkElementXY {
  xy_x : option Q;
  xy_y : option Q
}.

(** [(v as number) || 0] *)
Definition orZero (v : option Q) : Q :=
  match v with
  | Some q => if Qeq_bool q 0 then 0 else q
  | None => 0
  end.

(** A keyframe literal [{ time, x, y, opacity, scale?, easing? }]. *)
Definition legacyKeyframe (time x y opacity : Q)
    (scale : option ScaleValue) (easing : option string) : Keyframe :=
  {| kf_time := time; kf_x := Some x; kf_y := Some y; kf_z := None;
     kf_rotateX := None; kf_rotateY := None; kf_rotateZ := None;
     kf_scale := scale; kf_opacity := Some opacity; kf_color := None;
     kf_easing := easing |}.

Definition clampedEnterEnd (index : nat) : Q :=
  Qmin ((15 # 100) + inject_Z (Z.of_nat index) * (5 # 100)) (4 # 10).

Definition keyframesFromLegacyAnimation (animation : LegacyAnimation)
    (elementProps : ElementXY) (index : nat) : list Keyframe :=
  let baseX := orZero (xy_x elementProps) in
  let baseY := orZero (xy_y elementProps) in
  let enterEnd := clampedEnterEnd index in
  let enter :=
    if String.eqb (la_enter animation) "slideUp" then
      [ legacyKeyframe 0 baseX (baseY + 40) 0 None (Some "cubicOut"%string);
        legacyKeyframe enterEnd baseX baseY 1 None None ]
    else if String.eqb (la_enter animation) "slideRight" then
      [ legacyKeyframe 0 (baseX - 40) baseY 0 None (Some "cubicOut"%string);
        legacyKeyframe enterEnd baseX baseY 1 None None ]
    else if String.eqb (la_enter animation) "scale" then
      [ legacyKeyframe 0 baseX baseY 0 (Some (ScaleNumber 0))
          (Some "backOut"%string);
        legacyKeyframe enterEnd baseX baseY 1 (Some (ScaleNumber 1)) None ]
    else
      [ legacyKeyframe 0 baseX baseY 0 None (Some "easeOut"%string);
        legacyKeyframe enterEnd baseX baseY 1 None None ] in
  let hold :=
    [ legacyKeyframe (75 # 100) baseX baseY 1 None
        (Some "easeInOut"%string) ] in
  let exitName := orString (la_exit animation) "fadeOut" in
  let exit :=
    if String.eqb exitName "slideDown" then
      [ legacyKeyframe 1 baseX (baseY + 40) 0 None None ]
    else if String.eqb exitName "scaleDown" then
      [ legacyKeyframe 1 baseX baseY 0 (Some (ScaleNumber (5 # 10))) None ]
    else if String.eqb exitName "slideLeft" then
      [ legacyKeyframe 1 (baseX - 40) baseY 0 None None ]
    else
      [ legacyKeyframe 1 baseX baseY 0 None None ] in
  (enter ++ hold ++ exit)%list.

(** A curve table maps [[0, 1]] into [[0, 1]]: no curve overshoots. *)
Definition no_overshoot (parseEase : string -> option (Q -> Q)) : Prop :=
  forall name curve q,
    parseEase name = Some curve -> 0 <= q -> q <= 1 ->
    0 <= curve q /\ curve q <= 1.

(** A curve table is exact at the start of every curve. *)
Definition exact_at_0 (parseEase : string -> option (Q -> Q)) : Prop :=
  forall name curve, parseEase name = Some curve -> curve 0 == 0.

(** [v] lies between [a] and [b], whichever of the two is larger. *)
Definition between (a b v : Q) : Prop := Qmin a b <= v /\ v <= Qmax a b.

(** The numeric channels of a 2D keyframe that are interpolated field by
    field: the field of the keyframe, the default of the [??] chain, and
    the field of the result. *)
Definition channels
    : list ((Keyframe -> option Q) * Q * (InterpolatedState -> Q)) :=
  [ (kf_x, 0, is_x); (kf_y, 0, is_y); (kf_z, 0, is_z);
    (kf_rotateX, 0, is_rotateX); (kf_rotateY, 0, is_rotateY);
    (kf_rotateZ, 0, is_rotateZ); (kf_opacity, 1, is_opacity) ].

(** The three scale components of a state. *)
Definition scaleOf (st : InterpolatedState) : Q * Q * Q :=
  (is_scaleX st, is_scaleY st, is_scaleZ st).

(** Component-wise numeric equality and betweenness of triples. *)
Definition Vec3_eq (a b : Vec3) : Prop :=
  let '(a0, a1, a2) := a in
  let '(b0, b1, b2) := b in
  a0 == b0 /\ a1 == b1 /\ a2 == b2.

Definition Vec3_between (a b v : Vec3) : Prop :=
  let '(a0, a1, a2) := a in
  let '(b0, b1, b2) := b in
  let '(v0, v1, v2) := v in
  between a0 b0 v0 /\ between a1 b1 v1 /\ between a2 b2 v2.

(** A 3D keyframe that only gives a time and a position, and a camera
    keyframe that only gives a time and a position. *)
Definition k3At (time : Q) (position : Vec3) : Keyframe3D :=
  {| k3_time := time; k3_position := Some position; k3_rotation := None;
     k3_scale := None; k3_opacity := None; k3_easing := None |}.

Definition ckAt (time : Q) (position : Vec3) : CameraKeyframe :=
  {| ck_time := time; ck_position := position; ck_lookAt := None;
     ck_fov := None; ck_easing := None |}.

(** An element's legacy animation block with the given enter and exit
    names. *)
Definition legacyOf (enter : string) (exit : option string)
    : LegacyAnimation :=
  {| la_enter := enter; la_exit := exit; la_continuous := None;
     la_duration := 1; la_delay := 0 |}.

(** A string as [s.replace(/\s+/g, ' ')] leaves it: every white space is
    one blank; [inRun] tells that a white space came just before. *)
Fixpoint tidy (inRun : bool) (s : string) : bool :=
  match s with
  | EmptyString => true
  | String c r =>
      if isSpace c then negb inRun && Ascii.eqb c " "%char && tidy true r
      else tidy false r
  end.

Definition firstChar (s : string) : option ascii :=
  match s with
  | EmptyString => None
  | String c _ => Some c
  end.

(** The normal form of a text: single blanks between words and no white
    space at either end. *)
Definition normalized (s : string) : Prop :=
  tidy false s = true
  /\ (forall c, firstChar s = Some c -> isSpace c = false)
  /\ (forall c, lastChar s = Some c -> isSpace c = false).

(** The string ends with [.], [!] or [?]. *)
Definition endsWithMark (s : string) : bool :=
  match lastChar s with
  | Some l => isTerminal l
  | None => false
  end.

(** A sentence as the repairer writes it: in normal form, not starting
    with a lower-case letter, ending with a terminal mark. *)
Definition sentence (s : string) : Prop :=
  normalized s
  /\ (forall c, firstChar s = Some c -> isLower c = false)
  /\ endsWithMark s = true.

(** *** The caller of the repair *)

(** A section of the analysis as the validation in [analyzePaper] reads
    and rewrites it; the other fields of [PaperSection] are copied as they
    are.  An absent narration is the empty string. *)
Record PaperSection := mkPaperSection {
  sec_id : string;
  sec_title : string;
  sec_concept : string;
  sec_narration : string;
  sec_script : option SectionScript;
  sec_animationData : option AnimationData
}.

(** The callback of [segments.map] in the branch that keeps the script:
    the segment takes the id and the duration of its step. *)
Definition syncSegment (step : AnimationStep) (segment : NarrationSegment)
    : NarrationSegment :=
  let textWordCount :=
    if isEmpty (seg_text segment) then 0%nat
    else wordCount (seg_text segment) in
  let estimatedFromText :=
    if (0 <? textWordCount)%nat
    then Qmax (5 # 2) (inject_Z (Z.of_nat textWordCount) / 150 * 60)
    else 4 in
  {| seg_id := seg_id segment;
     seg_text := seg_text segment;
     seg_stepId := step_id step;
     seg_estimatedDuration :=
       if negb (Qeq_bool (step_duration step) 0) then step_duration step
       else if negb (Qeq_bool (seg_estimatedDuration segment) 0)
            then seg_estimatedDuration segment
            else estimatedFromText;
     seg_startTime := seg_startTime segment;
     seg_endTime := seg_endTime segment;
     seg_emphasis := seg_emphasis segment;
     seg_pacing := seg_pacing segment |}.

(** [segments.map((segment, segmentIndex) => ...)] of that branch, from
    index [i] on; [None] is the [TypeError] of reading [step.id] when
    [steps[segmentIndex]] is undefined. *)
Fixpoint syncSegments (steps : list AnimationStep) (i : nat)
    (segments : list NarrationSegment) : option (list NarrationSegment) :=
  match segments with
  | [] => Some []
  | segment :: rest =>
      match nth_error steps i with
      | None => None
      | Some step =>
          match syncSegments steps (S i) rest with
          | None => None
          | Some synced => Some (syncSegment step segment :: synced)
          end
      end
  end.

(** The callback of [analysis.sections.map] in [analyzePaper]: the section
    gets an id, its script is validated against its animation steps and
    repaired or synchronised, and the script's metadata is brought in
    line.  [None] is a [TypeError]. *)
Definition fixSection (section : PaperSection) (index : nat)
    : option PaperSection :=
  let id :=
    if negb (isEmpty (sec_id section)) then sec_id section
    else ("section-" ++ showNat (index + 1))%string in
  let narration :=
    match sec_script section with
    | Some script =>
        if isEmpty (sec_narration section) then ss_fullText script
        else sec_narration section
    | None => sec_narration section
    end in
  let validated : option (option SectionScript) :=
    match sec_script section, sec_animationData section with
    | Some script, Some animationData =>
        if shouldRegenerate script animationData
        then Some (Some (alignSegmentsToSteps script animationData
                           narration id (sec_title section)
                           (sec_concept section)))
        else
          match syncSegments (ad_steps animationData) 0
                  (ss_segments script) with
          | Some segments =>
              Some (Some {| ss_sectionId := ss_sectionId script;
                            ss_fullText := joinSpace (map seg_text segments);
                            ss_segments := segments;
                            ss_totalDuration := 0 |})
          | None => None
          end
    | script, _ => Some script
    end in
  match validated with
  | None => None
  | Some None =>
      Some {| sec_id := id;
              sec_title := sec_title section;
              sec_concept := sec_concept section;
              sec_narration := narration;
              sec_script := None;
              sec_animationData := sec_animationData section |}
  | Some (Some script) =>
      Some {| sec_id := id;
              sec_title := sec_title section;
              sec_concept := sec_concept section;
              sec_narration :=
                if negb (isEmpty (ss_fullText script))
                then ss_fullText script else narration;
              sec_script :=
                Some {| ss_sectionId := id;
                        ss_fullText := ss_fullText script;
                        ss_segments := ss_segments script;
                        ss_totalDuration := ss_totalDuration script |};
              sec_animationData := sec_animationData section |}
  end.

(** A section whose script has two segments with different texts, for
    scenario C's three steps and for two steps. *)
Definition twoSegments : SectionScript :=
  {| ss_sectionId := "raw"%string;
     ss_fullText := "One. Two."%string;
     ss_segments :=
       [ mkSegment "a"%string "One."%string "x"%string 0 0 0 None Normal;
         mkSegment "b"%string "Two."%string "y"%string 7 0 0 None Normal ];
     ss_totalDuration := 9 |}.

Definition twoSteps : list AnimationStep :=
  [ mkStep "s1"%string "first"%string 3 [];
    mkStep EmptyString "second"%string 0 [] ].

Definition syncedSection : PaperSection :=
  {| sec_id := EmptyString; sec_title := "Title"%string;
     sec_concept := "attention"%string;
     sec_narration := EmptyString;
     sec_script := Some twoSegments;
     sec_animationData := Some (mkAnimationData twoSteps) |}.

(** ** Retrying a rate-limited request ([withGeminiRetry]) *)

Record RetryConfig := mkRetryConfig {
  maxAttempts : Q;
  initialDelayMs : Q;
  multiplier : Q;
  maxDelayMs : Q;
  jitterRatio : Q
}.

Definition DEFAULT_RETRY_CONFIG : RetryConfig :=
  {| maxAttempts := 4;
     initialDelayMs := 1000;
     multiplier := 2;
     maxDelayMs := 20000;
     jitterRatio := 2 # 10 |}.

(** What [isRateLimitError] reads of a thrown value.  A field is [None]
    when it is absent or has not the type the function asks for (a number
    for a status, a string for a message). *)
Record ErrorResponse := mkErrorResponse {
  resp_status : option Q;
  resp_statusText : option string;
  resp_errorMessage : option string
}.

Record ErrorPayload := mkErrorPayload {
  err_status : option Q;
  err_message : option string;
  err_response : option ErrorResponse
}.

(** A thrown value: something falsy or not an object, or an object. *)
Inductive Thrown :=
| ThrownValue
| ThrownObject (err : ErrorPayload).

(** [hay.includes(needle)] *)
Fixpoint includes (needle hay : string) : bool :=
  String.prefix needle hay
  || match hay with
     | EmptyString => false
     | String _ rest => includes needle rest
     end.

(** [/429|resource exhausted|rate limit|quota/i.test(msg)] *)
Definition mentionsRateLimit (msg : string) : bool :=
  let lower := toLowerCase msg in
  includes "429" lower || includes "resource exhausted" lower
  || includes "rate limit" lower || includes "quota" lower.

Definition optionToList {A} (o : option A) : list A :=
  match o with
  | Some a => [a]
  | None => []
  end.

Definition isRateLimitError (error : Thrown) : bool :=
  match error with
  | ThrownValue => false
  | ThrownObject err =>
      let response := err_response err in
      let status :=
        match err_status err with
        | Some s => Some s
        | None => match response with
                  | Some r => resp_status r
                  | None => None
                  end
        end in
      let messages :=
        (optionToList (err_message err)
         ++ optionToList (match response with
                          | Some r => resp_statusText r
                          | None => None
                          end)
         ++ optionToList (match response with
                          | Some r => resp_errorMessage r
                          | None => None
                          end))%list in
      match status with
      | Some s => if Qeq_bool s 429 then true
                  else existsb mentionsRateLimit messages
      | None => existsb mentionsRateLimit messages
      end
  end.

(** How a call of the operation ends, and how [withGeminiRetry] ends: with
    the operation's value, with the error that tells that the service is
    busy, or with the operation's own error. *)
Inductive Outcome (T : Type) :=
| Resolved (value : T)
| Rejected (error : Thrown).

Inductive RetryResult (T : Type) :=
| Returned (value : T)
| ThrewBusy
| Rethrew (error : Thrown).

Arguments Resolved {T} value.
Arguments Rejected {T} error.
Arguments Returned {T} value.
Arguments ThrewBusy {T}.
Arguments Rethrew {T} error.

Section Retry.

Context {T : Type}.

(** The outcome of the call of [operation] that follows [k] failed ones,
    and the value of [Math.random()] drawn after the failure number
    [k + 1]. *)
Variable operation : nat -> Outcome T.
Variable random : nat -> Q.
Variable config : RetryConfig.

(** The [while (true)] loop; [attempt] and [delay] are its variables,
    [waits] the times waited so far.  The result comes with the number of
    calls of [operation] and the times waited; [None] tells that [fuel]
    iterations were not enough.  The warning written to the console is
    left out. *)
Fixpoint retryLoop (fuel attempt : nat) (delay : Q) (waits : list Q)
    : option (RetryResult T * nat * list Q) :=
  match fuel with
  | O => None
  | S fuel' =>
      match operation attempt with
      | Resolved value => Some (Returned value, S attempt, waits)
      | Rejected error =>
          let attempt' := (attempt + 1)%nat in
          if negb (isRateLimitError error)
             || Qgeb (inject_Z (Z.of_nat attempt')) (maxAttempts config)
          then
            Some (if isRateLimitError error then ThrewBusy
                  else Rethrew error,
                  attempt', waits)
          else
            let jitter :=
              delay * jitterRatio config * (random attempt - (1 # 2)) * 2 in
            let waitTime :=
              Qmin (maxDelayMs config)
                   (Qmax (initialDelayMs config) (delay + jitter)) in
            retryLoop fuel' attempt'
              (Qmin (maxDelayMs config) (delay * multiplier config))
              (waits ++ [waitTime])%list
      end
  end.

Definition withGeminiRetry (fuel : nat)
    : option (RetryResult T * nat * list Q) :=
  retryLoop fuel 0 (initialDelayMs config) [].

End Retry.

(** The largest number of calls a configuration allows. *)
Definition callLimit (config : RetryConfig) : nat :=
  Nat.max 1 (Z.to_nat (Qceiling (maxAttempts config))).

(** An operation that is rate-limited twice and then answers 7. *)
Definition busyTwice (k : nat) : Outcome nat :=
  if (k <? 2)%nat
  then Rejected (ThrownObject
                   {| err_status := Some 429; err_message := None;
                      err_response := None |})
  else Resolved 7%nat.

(** * Theorems *)

(** ** Numbers *)

Lemma Qgeb_true a b : Qgeb a b = true <-> b <= a.
Proof. unfold Qgeb. apply Qle_bool_iff. Qed.

Lemma Qgeb_false a b : Qgeb a b = false <-> a < b.
Proof.
  unfold Qgeb. split; intro H.
  - apply Qnot_le_lt. intro L. apply Qle_bool_iff in L. congruence.
  - destruct (Qle_bool b a) eqn:E; [|reflexivity].
    apply Qle_bool_iff in E. exfalso. apply (Qlt_not_le _ _ H E).
Qed.

Lemma Qltb_true a b : Qltb a b = true <-> a < b.
Proof.
  unfold Qltb. rewrite negb_true_iff. apply (Qgeb_false a b).
Qed.

Lemma Qltb_false a b : Qltb a b = false <-> b <= a.
Proof.
  unfold Qltb. rewrite negb_false_iff. apply Qle_bool_iff.
Qed.

Lemma Qgtb_true a b : Qgtb a b = true <-> b < a.
Proof. apply (Qltb_true b a). Qed.

Lemma Qgtb_false a b : Qgtb a b = false <-> a <= b.
Proof. apply (Qltb_false b a). Qed.

Lemma Qleb_true a b : Qleb a b = true <-> a <= b.
Proof. apply Qle_bool_iff. Qed.

Lemma Qleb_false a b : Qleb a b = false <-> b < a.
Proof. apply (Qgeb_false b a). Qed.


Ltac qbool :=
  repeat match goal with
  | H : Qgeb _ _ = true |- _ => apply Qgeb_true in H
  | H : Qgeb _ _ = false |- _ => apply Qgeb_false in H
  | H : Qltb _ _ = true |- _ => apply Qltb_true in H
  | H : Qltb _ _ = false |- _ => apply Qltb_false in H
  | H : Qgtb _ _ = true |- _ => apply Qgtb_true in H
  | H : Qgtb _ _ = false |- _ => apply Qgtb_false in H
  | H : Qleb _ _ = true |- _ => apply Qleb_true in H
  | H : Qleb _ _ = false |- _ => apply Qleb_false in H
  | H : (_ && _)%bool = true |- _ => apply andb_true_iff in H; destruct H
  end.

Lemma Qmax_0_neg t : t < 0 -> Qmax 0 t = 0.
Proof.
  intro H. unfold Qmax, GenericMinMax.gmax.
  destruct (0 ?= t) eqn:E; try reflexivity.
  apply Qlt_alt in E. lra.
Qed.

Lemma Qmax_0_cases t : (t <= 0 /\ Qmax 0 t == 0) \/ (0 <= t /\ Qmax 0 t == t).
Proof.
  destruct (Q.max_spec 0 t) as [[H E]|[H E]]; [right|left]; split;
    try lra; exact E.
Qed.

Lemma Qmin_cases a b :
  (a <= b /\ Qmin a b == a) \/ (b <= a /\ Qmin a b == b).
Proof.
  destruct (Q.min_spec a b) as [[H E]|[H E]]; [left|right]; split;
    try lra; exact E.
Qed.

(** ** Timeline: terminal state and clamping *)


(** A negative time is read as time [0], on every timeline of positive
    duration. *)
Lemma getStateAtTime_negative (c : TimelineController) (t : Q) :
  t < 0 -> 0 < totalDuration c ->
  getStateAtTime c t = getStateAtTime c 0.
Proof.
  intros Ht Hd. unfold getStateAtTime.
  destruct (Qgeb t (totalDuration c)) eqn:E1;
    destruct (Qgeb 0 (totalDuration c)) eqn:E0; qbool; try lra.
  rewrite (Qmax_0_neg t Ht). reflexivity.
Qed.

(** C3.  On the timeline of a script without sections (duration [0]), a
    negative time is clamped to [0] only after the test against the end:
    [getStateAtTime(-1)] falls through the scan to the fallback state,
    with [sectionIndex = 0], while [getStateAtTime(0)] is the terminal
    state, with [sectionIndex = -1].  The two states differ, although the
    script satisfies the data-model invariant. *)
Theorem getStateAtTime_negative_on_empty_script :
  script_invariant emptyScript
  /\ (exists st, getStateAtTime (newTimelineController emptyScript) (-1)
                  = Some st
                 /\ phase st = PhaseComplete /\ sectionIndex st = 0%Z)
  /\ (exists st, getStateAtTime (newTimelineController emptyScript) 0
                  = Some st
                 /\ phase st = PhaseComplete /\ sectionIndex st = (-1)%Z)
  /\ getStateAtTime (newTimelineController emptyScript) (-1)
     <> getStateAtTime (newTimelineController emptyScript) 0.
Proof.
  split; [split; reflexivity|].
  split; [eexists; split; [reflexivity|split; reflexivity]|].
  split; [eexists; split; [reflexivity|split; reflexivity]|].
  discriminate.
Qed.

(** ** Timeline: scenario A *)

(** C5.  Two sections of 10 and 8 seconds joined by a transition of 2
    seconds: at time 10.5 the timeline is a quarter into the transition
    from section 0 to section 1, whatever the sections contain. *)
Theorem scenario_A_transition
    (title id0 text0 id1 text1 from to : string)
    (segs0 segs1 : list NarrationSegment) (ty : TransitionType) :
  let script :=
    {| ps_paperTitle := title;
       ps_sections := [ mkSectionScript id0 text0 segs0 10;
                        mkSectionScript id1 text1 segs1 8 ];
       ps_transitions := [ mkTransition from to ty 2 ];
       ps_totalDuration := 20 |} in
  exists st,
    getStateAtTime (newTimelineController script) (21 # 2) = Some st
    /\ phase st = PhaseTransition
    /\ fromSection st = Some 0%Z
    /\ toSection st = Some 1%Z
    /\ transitionProgress st = Some (1 # 4).
Proof.
  intro script. eexists. split; [vm_compute; reflexivity|].
  repeat split.
Qed.

(** ** Timeline: what [seek] touches *)

(** C10.  [seek(t)] sets the current time to [t] clamped into
    [[0, totalDuration]] and clears the tick baseline; the playing flag,
    the speed, the listeners, the frame handle, the script and the
    precomputed start offsets are the ones before the call, and the host
    neither gains nor loses a pending frame. *)
Theorem seek_frame (w : World) (t : Q) :
  let c := ctl w in
  let c' := fst (seek t c) in
  currentTime c' = Qmax 0 (Qmin t (totalDuration c))
  /\ 0 <= currentTime c'
  /\ currentTime c' <= Qmax 0 (totalDuration c)
  /\ lastTimestamp c' = None
  /\ playing c' = playing c
  /\ speed c' = speed c
  /\ listeners c' = listeners c
  /\ rafId c' = rafId c
  /\ sectionScripts c' = sectionScripts c
  /\ transitions c' = transitions c
  /\ totalDuration c' = totalDuration c
  /\ sectionStartTimes c' = sectionStartTimes c
  /\ transitionStartTimes c' = transitionStartTimes c
  /\ ctl (fst (step w (EvSeek t))) = c'
  /\ pending (fst (step w (EvSeek t))) = pending w.
Proof.
  intros c c'. subst c'. cbn.
  repeat split.
  - apply Q.le_max_l.
  - apply Q.max_le_compat_l. apply Q.le_min_r.
Qed.

(** ** Timeline: the spans tile the timeline *)

Lemma computeStartTimes_loop_eq secs : forall i trs offset sst tst,
  computeStartTimes_loop secs i trs offset sst tst
  = ((sst ++ sec_starts secs i trs offset)%list,
     (tst ++ tr_starts secs i trs offset)%list).
Proof.
  induction secs as [|s rest IH]; intros i trs offset sst tst; simpl.
  - now rewrite !app_nil_r.
  - destruct (nth_error trs i) as [tr|]; rewrite IH, <- !app_assoc;
      reflexivity.
Qed.

Lemma sec_starts_length secs : forall i trs offset,
  List.length (sec_starts secs i trs offset) = List.length secs.
Proof.
  induction secs as [|s rest IH]; intros i trs offset; simpl; [reflexivity|].
  destruct (nth_error trs i); now rewrite IH.
Qed.

Lemma tr_starts_length secs : forall i trs offset,
  List.length (tr_starts secs i trs offset)
  = Nat.min (List.length secs) (List.length trs - i).
Proof.
  induction secs as [|s rest IH]; intros i trs offset;
    cbn [tr_starts List.length]; [reflexivity|].
  destruct (nth_error trs i) as [tr|] eqn:E.
  - assert (i < List.length trs)%nat
      by (apply nth_error_Some; congruence).
    cbn [List.length]. rewrite IH. lia.
  - apply nth_error_None in E. rewrite IH. lia.
Qed.

Lemma wired_arrays (c : TimelineController) secs : forall i offset sst tst,
  List.length sst = i ->
  List.length tst = Nat.min i (List.length (transitions c)) ->
  sectionStartTimes c
    = (sst ++ sec_starts secs i (transitions c) offset)%list ->
  transitionStartTimes c
    = (tst ++ tr_starts secs i (transitions c) offset)%list ->
  wired c secs i offset.
Proof.
  induction secs as [|s rest IH]; intros i offset sst tst Ls Lt Es Et;
    simpl; [exact I|].
  simpl in Es, Et. split.
  - rewrite Es, app_nth2 by lia. rewrite Ls, Nat.sub_diag.
    destruct (nth_error (transitions c) i); reflexivity.
  - destruct (nth_error (transitions c) i) as [tr|] eqn:E.
    + assert (i < List.length (transitions c))%nat
        by (apply nth_error_Some; congruence).
      split.
      * rewrite Et, app_nth2 by lia.
        replace (i - List.length tst)%nat with 0%nat by lia. reflexivity.
      * apply (IH (S i) _ (sst ++ [offset])%list
                  (tst ++ [offset + ss_totalDuration s])%list).
        -- rewrite length_app; cbn [List.length]; lia.
        -- rewrite length_app; cbn [List.length]; lia.
        -- rewrite Es, <- app_assoc. reflexivity.
        -- rewrite Et, <- app_assoc. reflexivity.
    + apply nth_error_None in E.
      apply (IH (S i) _ (sst ++ [offset])%list tst).
      * rewrite length_app; cbn [List.length]; lia.
      * lia.
      * rewrite Es, <- app_assoc. reflexivity.
      * exact Et.
Qed.

Lemma newTimelineController_wired (p : PresentationScript) :
  wired (newTimelineController p) (ps_sections p) 0 0.
Proof.
  apply (wired_arrays (newTimelineController p) (ps_sections p) 0 0 [] []);
    try reflexivity.
  - simpl. unfold computeStartTimes.
    rewrite computeStartTimes_loop_eq. reflexivity.
  - simpl. unfold computeStartTimes.
    rewrite computeStartTimes_loop_eq. reflexivity.
Qed.

Lemma wired_abut (c : TimelineController) secs : forall i offset,
  wired c secs i offset ->
  abut offset (spans_from c secs i) (endOffset secs i (transitions c) offset).
Proof.
  induction secs as [|s rest IH]; intros i offset W; simpl.
  - reflexivity.
  - simpl in W. destruct W as [Hs W]. rewrite Hs. split; [reflexivity|].
    destruct (nth_error (transitions c) i) as [tr|].
    + destruct W as [Ht W]. simpl. rewrite Ht. split; [reflexivity|].
      apply IH. exact W.
    + apply IH. exact W.
Qed.

Lemma skipn_nth_error {A} (l : list A) : forall i,
  skipn i l = match nth_error l i with
              | Some x => x :: skipn (S i) l
              | None => []
              end.
Proof.
  induction l as [|a l IH]; intros [|i]; simpl; try reflexivity.
  rewrite IH. destruct (nth_error l i); reflexivity.
Qed.

Lemma In_skipn {A} (x : A) n l : In x (skipn n l) -> In x l.
Proof.
  intro H. rewrite <- (firstn_skipn n l). apply in_or_app. now right.
Qed.

Lemma In_firstn {A} (x : A) n l : In x (firstn n l) -> In x l.
Proof.
  intro H. rewrite <- (firstn_skipn n l). apply in_or_app. now left.
Qed.

Lemma endOffset_sum secs : forall i trs offset,
  endOffset secs i trs offset
  == offset + sumQ (map ss_totalDuration secs)
     + sumQ (map tr_duration (firstn (List.length secs) (skipn i trs))).
Proof.
  induction secs as [|s rest IH]; intros i trs offset; simpl.
  - lra.
  - destruct (nth_error trs i) as [tr|] eqn:E.
    + rewrite IH, (skipn_nth_error trs i), E. simpl. lra.
    + rewrite IH. apply nth_error_None in E.
      rewrite !skipn_all2 by lia. rewrite firstn_nil. simpl. lra.
Qed.

Lemma endOffset_total (p : PresentationScript) :
  script_invariant p ->
  endOffset (ps_sections p) 0 (ps_transitions p) 0 == ps_totalDuration p.
Proof.
  intros [Hlen Hsum]. rewrite endOffset_sum, Hsum. simpl skipn.
  rewrite firstn_all2 by lia. lra.
Qed.

Lemma abut_proper l : forall a a' b b',
  a == a' -> b == b' -> abut a l b -> abut a' l b'.
Proof.
  induction l as [|sp rest IH]; intros a a' b b' Ha Hb H; simpl in *.
  - lra.
  - destruct H as [H1 H2]. split; [lra|].
    apply (IH (snd sp) (snd sp) b b'); auto. reflexivity.
Qed.

Lemma abut_end l : forall a b,
  abut a l b -> Forall (fun sp => fst sp <= snd sp) l -> a <= b.
Proof.
  induction l as [|sp rest IH]; intros a b H F; simpl in *.
  - lra.
  - destruct H as [H1 H2]. inversion F; subst.
    specialize (IH _ _ H2 H4). lra.
Qed.

Lemma abut_starts l : forall a b,
  abut a l b -> Forall (fun sp => fst sp <= snd sp) l ->
  forall k, (k < List.length l)%nat ->
    a <= fst (nth k l (0, 0)) /\ snd (nth k l (0, 0)) <= b.
Proof.
  induction l as [|sp rest IH]; intros a b H F k Hk; simpl in *; [lia|].
  destruct H as [H1 H2]. inversion F; subst.
  destruct k as [|k].
  - split; [lra|]. apply (abut_end rest); assumption.
  - destruct (IH _ _ H2 H4 k) as [A B]; [lia|]. split; lra.
Qed.

(** A chain of abutting spans of non-negative length covers every point of
    [[a, b)] exactly once. *)
Lemma abut_tiles l : forall a b,
  abut a l b -> Forall (fun sp => fst sp <= snd sp) l ->
  forall t, a <= t -> t < b ->
  exists k, (k < List.length l)%nat
            /\ in_span t (nth k l (0, 0))
            /\ forall k', (k' < List.length l)%nat ->
                          in_span t (nth k' l (0, 0)) -> k' = k.
Proof.
  induction l as [|sp rest IH]; intros a b H F t Ha Hb; simpl in *.
  - lra.
  - destruct H as [H1 H2]. inversion F as [|? ? Hsp Hrest]; subst.
    destruct (Qlt_le_dec t (snd sp)) as [Hlt|Hge].
    + exists 0%nat. split; [lia|]. split; [split; lra|].
      intros [|k'] Hk' [I1 I2]; [reflexivity|]. exfalso.
      destruct (abut_starts rest _ _ H2 Hrest k') as [A _]; [lia|]. lra.
    + destruct (IH _ _ H2 Hrest t Hge Hb) as [k [Hk [Hin Huniq]]].
      exists (S k). split; [lia|]. split; [exact Hin|].
      intros [|k'] Hk' [I1 I2].
      * exfalso. lra.
      * f_equal. apply Huniq; [lia|]. split; assumption.
Qed.

Lemma spans_from_nonneg (c : TimelineController) secs : forall i,
  Forall (fun s => 0 <= ss_totalDuration s) secs ->
  Forall (fun tr => 0 <= tr_duration tr) (transitions c) ->
  Forall (fun sp => fst sp <= snd sp) (spans_from c secs i).
Proof.
  induction secs as [|s rest IH]; intros i Fs Ft; simpl; [constructor|].
  inversion Fs; subst. constructor; [simpl; lra|].
  destruct (nth_error (transitions c) i) as [tr|] eqn:E.
  - constructor; [|apply IH; assumption].
    simpl. apply nth_error_In in E.
    rewrite Forall_forall in Ft. specialize (Ft _ E). simpl in Ft. lra.
  - apply IH; assumption.
Qed.

Lemma wired_section_start (c : TimelineController) secs : forall i offset,
  wired c secs i offset ->
  forall k s s' tr,
    nth_error secs k = Some s ->
    nth_error secs (S k) = Some s' ->
    nth_error (transitions c) (i + k) = Some tr ->
    nth (i + k) (transitionStartTimes c) 0
      = nth (i + k) (sectionStartTimes c) 0 + ss_totalDuration s
    /\ nth (S (i + k)) (sectionStartTimes c) 0
       = nth (i + k) (transitionStartTimes c) 0 + tr_duration tr.
Proof.
  induction secs as [|s0 rest IH]; intros i offset W k s s' tr Hk Hk' Ht.
  - destruct k; discriminate.
  - simpl in W. destruct W as [Hs W]. destruct k as [|k].
    + simpl in Hk, Hk'. injection Hk as <-. rewrite Nat.add_0_r in *.
      rewrite Ht in W. destruct W as [HT W].
      destruct rest as [|s1 rest']; [discriminate|].
      simpl in W. destruct W as [Hs1 _].
      rewrite Hs1, HT, Hs. split; reflexivity.
    + simpl in Hk, Hk'.
      replace (i + S k)%nat with (S i + k)%nat in * by lia.
      destruct (nth_error (transitions c) i) as [tr0|].
      * destruct W as [_ W]. apply (IH _ _ W k s s' tr); assumption.
      * apply (IH _ _ W k s s' tr); assumption.
Qed.

(** With exact sums the order of the additions does not matter: the
    data-model invariant gives the one with the total in timeline
    order. *)
Lemma script_invariant_timeline (p : PresentationScript) :
  script_invariant p -> timeline_invariant p.
Proof.
  intro Inv. split; [exact (proj1 Inv)|].
  symmetry. exact (endOffset_total p Inv).
Qed.

(** C4, as stated, fails.  Two sections of 5 seconds with a transition of
    -2 seconds between them and a total of 8 satisfy the data-model
    invariant, and the constructor has no test on the sign of a duration:
    the spans are [[0, 5)], the empty [[5, 3)] and [[3, 8)], so time 4 of
    [[0, 8)] lies in the span of section 0 and in the span of section 1:
    the spans overlap. *)
Lemma negative_transition_overlaps :
  script_invariant backwardTransition
  /\ spans (newTimelineController backwardTransition)
     = [(0, 5); (5, 3); (3, 8)]
  /\ 0 <= 4 /\ 4 < ps_totalDuration backwardTransition
  /\ in_span 4 (nth 0 (spans (newTimelineController backwardTransition))
                  (0, 0))
  /\ in_span 4 (nth 2 (spans (newTimelineController backwardTransition))
                  (0, 0)).
Proof.
  split; [split; reflexivity|]. split; [reflexivity|].
  split; [discriminate|]. split; [reflexivity|].
  split; split; vm_compute; first [discriminate|reflexivity].
Qed.

(** C4, amended.  Let a script have durations that are not negative, as
    many transitions as the invariant asks for, and a [totalDuration]
    equal to its durations added up in timeline order, the order in which
    the constructor adds them.  On its controller the precomputed spans
    tile the timeline: there is a start offset for every section and
    every transition; section 0 starts at 0; transition [i] starts at the
    end of section [i] and section [i+1] at the end of transition [i];
    read in scan order the spans abut, from 0 to [totalDuration]; and
    every time of [[0, totalDuration)] lies in exactly one span. *)
Theorem start_times_tile (p : PresentationScript) :
  timeline_invariant p ->
  durations_nonneg p ->
  let c := newTimelineController p in
  List.length (sectionStartTimes c) = List.length (ps_sections p)
  /\ List.length (transitionStartTimes c) = List.length (ps_transitions p)
  /\ (ps_sections p <> [] -> nth 0 (sectionStartTimes c) 0 = 0)
  /\ (forall i s s',
        nth_error (ps_sections p) i = Some s ->
        nth_error (ps_sections p) (S i) = Some s' ->
        exists tr,
          nth_error (ps_transitions p) i = Some tr
          /\ nth i (transitionStartTimes c) 0
             = nth i (sectionStartTimes c) 0 + ss_totalDuration s
          /\ nth (S i) (sectionStartTimes c) 0
             = nth i (transitionStartTimes c) 0 + tr_duration tr)
  /\ abut 0 (spans c) (ps_totalDuration p)
  /\ (forall t, 0 <= t -> t < ps_totalDuration p ->
      exists k, (k < List.length (spans c))%nat
                /\ in_span t (nth k (spans c) (0, 0))
                /\ forall k', (k' < List.length (spans c))%nat ->
                              in_span t (nth k' (spans c) (0, 0)) ->
                              k' = k).
Proof.
  intros [Hlen Hsum] [Fs Ft] c.
  pose proof (newTimelineController_wired p) as W. fold c in W.
  assert (Hab : abut 0 (spans c) (ps_totalDuration p)).
  { apply (abut_proper _ 0 0 (endOffset (ps_sections p) 0
                                (ps_transitions p) 0)).
    - reflexivity.
    - symmetry. exact Hsum.
    - apply (wired_abut c (ps_sections p) 0 0 W). }
  split; [|split; [|split; [|split; [|split]]]].
  - simpl. unfold computeStartTimes. rewrite computeStartTimes_loop_eq.
    simpl. apply sec_starts_length.
  - simpl. unfold computeStartTimes. rewrite computeStartTimes_loop_eq.
    simpl. rewrite tr_starts_length. lia.
  - intro Hne. destruct (ps_sections p) as [|s rest] eqn:E;
      [congruence|]. simpl in W. apply W.
  - intros i s s' Hi Hi'.
    assert (Hlt : (S i < List.length (ps_sections p))%nat)
      by (apply nth_error_Some; congruence).
    destruct (nth_error (ps_transitions p) i) as [tr|] eqn:Et.
    + exists tr. split; [reflexivity|].
      apply (wired_section_start c (ps_sections p) 0 0 W i s s' tr);
        assumption.
    + apply nth_error_None in Et. lia.
  - exact Hab.
  - intros t Ht0 Ht1.
    apply (abut_tiles (spans c) 0 (ps_totalDuration p)); try assumption.
    apply spans_from_nonneg; assumption.
Qed.

Lemma start_times_tile_witness :
  timeline_invariant scenarioA
  /\ durations_nonneg scenarioA
  /\ abut 0 (spans (newTimelineController scenarioA))
          (ps_totalDuration scenarioA).
Proof.
  assert (H : timeline_invariant scenarioA) by (split; reflexivity).
  assert (N : durations_nonneg scenarioA)
    by (split; repeat constructor; discriminate).
  split; [exact H|]. split; [exact N|].
  apply (start_times_tile scenarioA H N).
Defined.

(** ** Timeline: which segment owns a boundary *)

Lemma wired_mono (c : TimelineController) secs : forall i offset,
  wired c secs i offset ->
  Forall (fun s => 0 <= ss_totalDuration s) secs ->
  Forall (fun tr => 0 <= tr_duration tr) (transitions c) ->
  forall k s, nth_error secs k = Some s ->
    offset <= nth (i + k) (sectionStartTimes c) 0
    /\ nth (i + k) (sectionStartTimes c) 0 + ss_totalDuration s
       <= endOffset secs i (transitions c) offset.
Proof.
  induction secs as [|s0 rest IH]; intros i offset W Fs Ft k s Hk.
  - destruct k; discriminate.
  - simpl in W. destruct W as [Hs W].
    apply Forall_cons_iff in Fs. destruct Fs as [H0 Frest].
    assert (Hend : forall o, o <= endOffset rest (S i) (transitions c) o).
    { intro o. rewrite endOffset_sum.
      assert (G : forall xs, Forall (fun q => 0 <= q) xs -> 0 <= sumQ xs).
      { induction xs as [|q xs IHxs]; intro F; simpl; [lra|].
        inversion F; subst. specialize (IHxs H3). lra. }
      assert (0 <= sumQ (map ss_totalDuration rest)).
      { apply G. rewrite Forall_map. exact Frest. }
      assert (0 <= sumQ (map tr_duration
                 (firstn (List.length rest) (skipn (S i) (transitions c))))).
      { apply G. rewrite Forall_map. rewrite Forall_forall in *.
        intros tr Hin. apply Ft.
        apply (In_skipn _ (S i)). exact (In_firstn _ _ _ Hin). }
      lra. }
    destruct k as [|k].
    + simpl in Hk. injection Hk as <-. rewrite Nat.add_0_r, Hs. simpl.
      split; [lra|].
      destruct (nth_error (transitions c) i) as [tr|] eqn:E.
      * apply nth_error_In in E. rewrite Forall_forall in Ft.
        specialize (Ft _ E). simpl in Ft.
        specialize (Hend (offset + ss_totalDuration s0 + tr_duration tr)).
        lra.
      * apply Hend.
    + simpl in Hk. replace (i + S k)%nat with (S i + k)%nat by lia. simpl.
      destruct (nth_error (transitions c) i) as [tr|] eqn:E.
      * destruct W as [_ W].
        destruct (IH _ _ W Frest Ft k s Hk) as [A B].
        cbn [Nat.add] in A, B.
        apply nth_error_In in E. rewrite Forall_forall in Ft.
        specialize (Ft _ E). simpl in Ft. split; [lra|exact B].
      * destruct (IH _ _ W Frest Ft k s Hk) as [A B].
        cbn [Nat.add] in A, B. split; [lra|exact B].
Qed.

(** The scan of [getStateAtTime] reaches the section whose span holds the
    clamped time. *)
Lemma getStateAtTime_loop_section (c : TimelineController) secs :
  forall i offset,
  wired c secs i offset ->
  Forall (fun s => 0 <= ss_totalDuration s) secs ->
  Forall (fun tr => 0 <= tr_duration tr) (transitions c) ->
  forall k s x, nth_error secs k = Some s ->
    nth (i + k) (sectionStartTimes c) 0 <= x ->
    x < nth (i + k) (sectionStartTimes c) 0 + ss_totalDuration s ->
    getStateAtTime_loop c secs i x
    = sectionState (i + k) s (nth (i + k) (sectionStartTimes c) 0) x.
Proof.
  induction secs as [|s0 rest IH]; intros i offset W Fs Ft k s x Hk Hlo Hhi.
  - destruct k; discriminate.
  - destruct k as [|k].
    + simpl in Hk. injection Hk as <-. rewrite Nat.add_0_r in *. simpl.
      apply Qgeb_true in Hlo. apply Qltb_true in Hhi.
      rewrite Hlo, Hhi. reflexivity.
    + simpl in Hk. pose proof W as W0. simpl in W. destruct W as [Hs W].
      apply Forall_cons_iff in Fs. destruct Fs as [H0 Frest].
      replace (i + S k)%nat with (S i + k)%nat in * by lia.
      simpl getStateAtTime_loop.
      destruct (nth_error (transitions c) i) as [tr|] eqn:E.
      * destruct W as [HT W].
        destruct (wired_mono c rest _ _ W Frest Ft k s Hk) as [A _].
        assert (Htr : 0 <= tr_duration tr).
        { apply nth_error_In in E. rewrite Forall_forall in Ft.
          apply (Ft _ E). }
        assert (E1 : Qltb x (nth i (sectionStartTimes c) 0
                             + ss_totalDuration s0) = false)
          by (apply Qltb_false; rewrite Hs; cbn [Nat.add] in *; lra).
        assert (E2 : Qltb x (nth i (transitionStartTimes c) 0
                             + tr_duration tr) = false)
          by (apply Qltb_false; rewrite HT; cbn [Nat.add] in *; lra).
        rewrite E1, E2, !andb_false_r.
        apply (IH _ _ W Frest Ft k s x Hk Hlo Hhi).
      * destruct (wired_mono c rest _ _ W Frest Ft k s Hk) as [A _].
        assert (E1 : Qltb x (nth i (sectionStartTimes c) 0
                             + ss_totalDuration s0) = false)
          by (apply Qltb_false; rewrite Hs; cbn [Nat.add] in *; lra).
        rewrite E1, !andb_false_r.
        apply (IH _ _ W Frest Ft k s x Hk Hlo Hhi).
Qed.

Lemma contiguous_sorted_head segs : forall a j z,
  contiguous_sorted (a :: segs) ->
  nth_error (a :: segs) j = Some z ->
  seg_startTime a <= seg_startTime z.
Proof.
  induction segs as [|b rest IH]; intros a j z H Hj.
  - destruct j as [|[|j]]; simpl in Hj; try discriminate.
    injection Hj as <-. lra.
  - destruct j as [|j].
    + simpl in Hj. injection Hj as <-. lra.
    + simpl in H. destruct H as [H1 [_ H3]].
      specialize (IH b j z H3 Hj). lra.
Qed.

Lemma findActiveSegment_cons seg rest s len x cur :
  findActiveSegment (seg :: rest) s len x cur
  = if Qgeb x (seg_startTime seg) && Qltb x (seg_endTime seg)
    then (s, Some seg)
    else findActiveSegment rest (S s) len x
           (if Nat.eqb s (len - 1) then (s, Some seg) else cur).
Proof. reflexivity. Qed.

Lemma contiguous_sorted_adjacent segs : forall i a b,
  contiguous_sorted segs ->
  nth_error segs i = Some a ->
  nth_error segs (S i) = Some b ->
  seg_endTime a == seg_startTime b.
Proof.
  induction segs as [|u l IH]; intros i a b C Hi Hi';
    [destruct i; discriminate|].
  destruct l as [|v l']; [destruct i; discriminate|].
  destruct C as [_ [Huv C]].
  destruct i as [|i].
  - simpl in Hi, Hi'. injection Hi as <-. injection Hi' as <-. exact Huv.
  - apply (IH i a b C Hi Hi').
Qed.

(** At the boundary between segments [i] and [i+1] the scan passes the
    segments up to [i] and stops at [i+1]. *)
Lemma findActiveSegment_boundary segs : forall s len x cur i a b,
  contiguous_sorted segs ->
  nth_error segs i = Some a ->
  nth_error segs (S i) = Some b ->
  x == seg_endTime a ->
  seg_startTime b < seg_endTime b ->
  findActiveSegment segs s len x cur = ((s + S i)%nat, Some b).
Proof.
  induction segs as [|x0 rest IH]; intros s len x cur i a b C Ha Hb Hx Hpos.
  - destruct i; discriminate.
  - destruct i as [|i].
    + simpl in Ha, Hb. injection Ha as <-.
      destruct rest as [|b0 rest']; [discriminate|].
      simpl in Hb. injection Hb as <-.
      simpl in C. destruct C as [_ [Hc _]].
      simpl.
      assert (E1 : Qltb x (seg_endTime x0) = false)
        by (apply Qltb_false; lra).
      assert (E2 : Qgeb x (seg_startTime b0) = true)
        by (apply Qgeb_true; lra).
      assert (E3 : Qltb x (seg_endTime b0) = true)
        by (apply Qltb_true; lra).
      rewrite E1, E2, E3, andb_false_r. simpl.
      now rewrite Nat.add_1_r.
    + destruct rest as [|y rest']; [simpl in Ha; destruct i; discriminate|].
      assert (Ha' : nth_error (y :: rest') i = Some a) by exact Ha.
      assert (Hb' : nth_error (y :: rest') (S i) = Some b) by exact Hb.
      assert (Crest : contiguous_sorted (y :: rest')) by apply C.
      assert (Hc : seg_endTime x0 == seg_startTime y) by apply C.
      pose proof (contiguous_sorted_head rest' y (S i) b Crest Hb') as Hle.
      pose proof (contiguous_sorted_adjacent _ _ _ _ Crest Ha' Hb') as Hab.
      assert (E1 : Qltb x (seg_endTime x0) = false)
        by (apply Qltb_false; lra).
      rewrite findActiveSegment_cons, E1, andb_false_r.
      rewrite (IH (S s) len x _ i a b Crest Ha' Hb' Hx Hpos).
      f_equal. lia.
Qed.

(** C6, as stated, fails.  Scenario B has one section with the segments
    [[0,3)], [[3,6)], [[6,9)]; time 3 is the end of segment 0 and the start
    of segment 1, strictly inside the section, and segment 0 is not the
    last one: the state at time 3 is in segment 1, not in segment 0. *)
Lemma boundary_not_earlier_scenarioB :
  script_invariant scenarioB
  /\ section_invariant scenarioB_section
  /\ (exists a b,
        nth_error (ss_segments scenarioB_section) 0 = Some a
        /\ nth_error (ss_segments scenarioB_section) 1 = Some b
        /\ 3 == seg_endTime a /\ 3 == seg_startTime b
        /\ 0 < 3 /\ 3 < ss_totalDuration scenarioB_section)
  /\ exists st,
       getStateAtTime (newTimelineController scenarioB) 3 = Some st
       /\ segmentIndex st = 1%Z
       /\ segmentIndex st <> 0%Z.
Proof.
  split; [split; reflexivity|].
  split; [repeat split; simpl; try reflexivity; discriminate|].
  split.
  - eexists. eexists. repeat split; try reflexivity.
  - eexists. split; [vm_compute; reflexivity|]. split; [reflexivity|].
    discriminate.
Qed.

(** C6, amended.  In a script that satisfies the data-model invariant,
    with non-negative durations, take a section whose segments are sorted,
    contiguous and cover the section, and a time whose local time in that
    section is the boundary between segment [i] and segment [i+1].  If
    segment [i+1] is not empty, the state at that time is in segment
    [i+1], the later of the two. *)
Theorem boundary_resolves_to_later_segment
    (p : PresentationScript) (k i : nat) (s : SectionScript)
    (a b : NarrationSegment) (t : Q) :
  script_invariant p ->
  durations_nonneg p ->
  nth_error (ps_sections p) k = Some s ->
  section_invariant s ->
  nth_error (ss_segments s) i = Some a ->
  nth_error (ss_segments s) (S i) = Some b ->
  let c := newTimelineController p in
  let sectionTime := t - nth k (sectionStartTimes c) 0 in
  sectionTime == seg_endTime a ->
  sectionTime == seg_startTime b ->
  0 < sectionTime -> sectionTime < ss_totalDuration s ->
  seg_startTime b < seg_endTime b ->
  exists st,
    getStateAtTime c t = Some st
    /\ phase st = PhaseSection
    /\ sectionIndex st = Z.of_nat k
    /\ segmentIndex st = Z.of_nat (S i)
    /\ currentText st = seg_text b
    /\ activeStepId st = seg_stepId b.
Proof.
  intros Inv [Fs Ft] Hk [Cs _] Ha Hb c sectionTime Hea Hsb Hlo Hhi Hpos.
  pose proof (newTimelineController_wired p) as W. fold c in W.
  destruct (wired_mono c _ _ _ W Fs Ft k s Hk) as [M1 M2].
  cbn [Nat.add] in M1, M2.
  change (transitions c) with (ps_transitions p) in M2.
  rewrite (endOffset_total p Inv) in M2.
  subst sectionTime.
  set (start := nth k (sectionStartTimes c) 0) in *.
  unfold getStateAtTime.
  assert (E0 : Qgeb t (totalDuration c) = false)
    by (apply Qgeb_false; change (totalDuration c) with (ps_totalDuration p);
        lra).
  rewrite E0.
  destruct (Qmax_0_cases t) as [[Hneg _]|[_ Hmax]]; [lra|].
  set (x := Qmax 0 t) in *.
  change (sectionScripts c) with (ps_sections p).
  rewrite (getStateAtTime_loop_section c _ 0 0 W Fs Ft k s x Hk);
    [| cbn [Nat.add]; fold start; lra | cbn [Nat.add]; fold start; lra].
  cbn [Nat.add]. fold start. unfold sectionState.
  rewrite (findActiveSegment_boundary (ss_segments s) 0
             (List.length (ss_segments s)) (x - start) _ i a b Cs Ha Hb);
    [| lra | exact Hpos].
  simpl. eexists. split; [reflexivity|]. simpl. repeat split.
Qed.

Lemma boundary_resolves_to_later_segment_witness :
  exists st,
    getStateAtTime (newTimelineController scenarioB) 3 = Some st
    /\ phase st = PhaseSection
    /\ sectionIndex st = 0%Z
    /\ segmentIndex st = 1%Z
    /\ currentText st = seg_text (seg3 3 6)
    /\ activeStepId st = seg_stepId (seg3 3 6).
Proof.
  apply (boundary_resolves_to_later_segment scenarioB 0 0 scenarioB_section
           (seg3 0 3) (seg3 3 6) 3).
  - split; reflexivity.
  - split; repeat constructor; discriminate.
  - reflexivity.
  - repeat split; simpl; try reflexivity; discriminate.
  - reflexivity.
  - reflexivity.
  - reflexivity.
  - reflexivity.
  - reflexivity.
  - reflexivity.
  - reflexivity.
Defined.

(** ** Timeline: observed time during playback *)

Lemma sectionState_globalTime i script start x st :
  sectionState i script start x = Some st -> globalTime st = x.
Proof.
  unfold sectionState.
  destruct (snd (findActiveSegment _ _ _ _ _)); [|discriminate].
  intro H. injection H as <-. reflexivity.
Qed.

Lemma getStateAtTime_loop_globalTime c secs : forall i x st,
  getStateAtTime_loop c secs i x = Some st -> globalTime st = x.
Proof.
  induction secs as [|s rest IH]; intros i x st H; simpl in H.
  - injection H as <-. reflexivity.
  - destruct (Qgeb x _ && Qltb x _).
    + apply (sectionState_globalTime _ _ _ _ _ H).
    + destruct (nth_error (transitions c) i) as [tr|]; [|apply (IH _ _ _ H)].
      destruct (Qgeb x _ && Qltb x _); [|apply (IH _ _ _ H)].
      injection H as <-. reflexivity.
Qed.

Lemma getStateAtTime_globalTime c t st :
  getStateAtTime c t = Some st ->
  (totalDuration c <= t /\ globalTime st = totalDuration c)
  \/ (t < totalDuration c /\ globalTime st = Qmax 0 t).
Proof.
  unfold getStateAtTime. destruct (Qgeb t (totalDuration c)) eqn:E; intro H.
  - left. apply Qgeb_true in E. injection H as <-. split; [exact E|reflexivity].
  - right. apply Qgeb_false in E. split; [exact E|].
    apply (getStateAtTime_loop_globalTime _ _ _ _ _ H).
Qed.


Lemma run_cons w e rest :
  snd (run w (e :: rest))
  = (delivered (snd (step w e)) ++ snd (run (fst (step w e)) rest))%list.
Proof.
  simpl. destruct (step w e) as [w1 out]. simpl.
  destruct (run w1 rest) as [w2 outs]. reflexivity.
Qed.







Lemma subscribe_frame l c :
  currentTime (subscribe l c) = currentTime c
  /\ speed (subscribe l c) = speed c
  /\ lastTimestamp (subscribe l c) = lastTimestamp c
  /\ totalDuration (subscribe l c) = totalDuration c.
Proof.
  unfold subscribe. destruct (existsb _ _); repeat split.
Qed.





(** ** Keyframe engine: easing *)

Lemma clamp_0 : Qmax 0 (Qmin 1 0) = 0.
Proof. reflexivity. Qed.

Lemma clamp_1 : Qmax 0 (Qmin 1 1) = 1.
Proof. reflexivity. Qed.

(** A name that is not inherited resolves to a name. *)
Lemma resolveAlias_plain name :
  isPrototypeKey name = false -> exists gsapName,
    resolveAlias name = EaseName gsapName.
Proof.
  intro H. unfold resolveAlias.
  destruct (lookup name easingAliases) as [a|].
  - destruct (String.eqb a EmptyString); eexists; reflexivity.
  - rewrite H. eexists. reflexivity.
Qed.

(** For a name that resolves to a name, the easing is the curve of the
    table at the clamped progress, or the clamped progress itself. *)
Lemma easeProgress_name parseEase parseMember p name gsapName :
  resolveAlias name = EaseName gsapName ->
  easeProgress parseEase parseMember p name
  = Some match parseEase gsapName with
         | Some curve => curve (Qmax 0 (Qmin 1 p))
         | None => Qmax 0 (Qmin 1 p)
         end.
Proof.
  intro H. unfold easeProgress. rewrite H.
  destruct (parseEase gsapName); reflexivity.
Qed.

(** The part of the easing claim that holds on the code.  Let the curve
    table of the animation library be any table whose curves are exact at
    both ends.  For every easing name that resolves to a name with a
    curve, [easeProgress] is 0 at 0 and 1 at 1; for every name that
    resolves to a name without a curve it is the clamped progress; every
    legacy alias resolves to its library name, and a name that is no
    alias and that nothing inherits resolves to itself. *)
Lemma easeProgress_supported (parseEase : string -> option (Q -> Q))
    (parseMember : string -> option (Q -> option Q)) :
  (forall name curve,
     parseEase name = Some curve -> curve 0 == 0 /\ curve 1 == 1) ->
  (forall name gsapName curve,
     resolveAlias name = EaseName gsapName ->
     parseEase gsapName = Some curve ->
     exists a b,
       easeProgress parseEase parseMember 0 name = Some a /\ a == 0
       /\ easeProgress parseEase parseMember 1 name = Some b /\ b == 1)
  /\ (forall name gsapName p,
        resolveAlias name = EaseName gsapName ->
        parseEase gsapName = None ->
        easeProgress parseEase parseMember p name
        = Some (Qmax 0 (Qmin 1 p)))
  /\ map (fun name => resolveAlias name)
         [ "linear"; "easeIn"; "easeOut"; "easeInOut"; "backOut";
           "cubicOut"; "cubicInOut"; "bounceOut"; "elasticOut"; "quadOut";
           "spring" ]%string
     = map EaseName
         [ "none"; "power1.in"; "power1.out"; "power2.inOut";
           "back.out(1.7)"; "power3.out"; "power3.inOut"; "bounce.out";
           "elastic.out(1, 0.3)"; "power1.out"; "back.out(2.5)" ]%string
  /\ (forall name,
        lookup name easingAliases = None ->
        isPrototypeKey name = false -> resolveAlias name = EaseName name).
Proof.
  intro Hends. split; [|split; [|split]].
  - intros name gsapName curve R H.
    exists (curve 0), (curve 1).
    rewrite !(easeProgress_name _ _ _ _ _ R), H, clamp_0, clamp_1.
    destruct (Hends _ _ H) as [A B].
    split; [reflexivity|]. split; [exact A|]. split; [reflexivity|exact B].
  - intros name gsapName p R H.
    rewrite (easeProgress_name _ _ _ _ _ R), H. reflexivity.
  - reflexivity.
  - intros name H P. unfold resolveAlias. rewrite H, P. reflexivity.
Qed.

Lemma sampleCurves_endpoints name curve :
  sampleCurves name = Some curve -> curve 0 == 0 /\ curve 1 == 1.
Proof.
  unfold sampleCurves.
  destruct (String.eqb name "none");
    [intro H; injection H as <-; split; reflexivity|].
  destruct (String.eqb name "power1.in");
    [intro H; injection H as <-; split; reflexivity|].
  destruct (String.eqb name "power1.out");
    [intro H; injection H as <-; split; reflexivity|].
  discriminate.
Qed.

(** C8, on the code.  [valueOf] is no legacy alias and no curve of the
    table, so the claim makes [easeProgress(p, 'valueOf')] the clamped
    progress.  The lookup in the alias table finds the member that the
    table inherits from [Object.prototype] instead; the library is handed
    that member, not a name, and calling what it returns gives no number:
    [easeProgress(1/2, 'valueOf')] is not [1/2].  A name that nothing
    inherits, such as [wobble], takes the fallback and gives [1/2]. *)
Theorem easeProgress_inherited_name :
  lookup "valueOf"%string easingAliases = None
  /\ sampleCurves "valueOf" = None
  /\ resolveAlias "valueOf" = PrototypeMember "valueOf"
  /\ easeProgress sampleCurves sampleMembers (1 # 2) "valueOf" = None
  /\ easeProgress sampleCurves sampleMembers (1 # 2) "valueOf"
     <> Some (Qmax 0 (Qmin 1 (1 # 2)))
  /\ easeProgress sampleCurves sampleMembers (1 # 2) "wobble"
     = Some (Qmax 0 (Qmin 1 (1 # 2))).
Proof.
  split; [reflexivity|]. split; [reflexivity|]. split; [reflexivity|].
  split; [reflexivity|]. split; [discriminate|reflexivity].
Qed.

(** ** Keyframe engine: boundary keyframes *)

(** C7, as stated, fails.  The two keyframes [{time: 0.5, x: 0}] and
    [{time: 0.5, x: 100}] are sorted by time; progress 0.5 is at the last
    keyframe's time, yet the result is the first keyframe ([x = 0]), not
    the last one ([x = 100]): the test against the first keyframe comes
    first. *)
Lemma equal_times_first_wins :
  sorted_by_time [kfX (1 # 2) 0; kfX (1 # 2) 100]
  /\ kf_time (kfX (1 # 2) 100) <= Qmax 0 (Qmin 1 (1 # 2))
  /\ interpolateKeyframes sampleCurves sampleMembers noInterpolate
       [kfX (1 # 2) 0; kfX (1 # 2) 100] (1 # 2)
     = Some (keyframeState (kfX (1 # 2) 0))
  /\ interpolateKeyframes sampleCurves sampleMembers noInterpolate
       [kfX (1 # 2) 0; kfX (1 # 2) 100] (1 # 2)
     <> Some (keyframeState (kfX (1 # 2) 100)).
Proof.
  split; [simpl; split; [apply Qle_refl|exact I]|].
  split; [vm_compute; discriminate|].
  split; [reflexivity|]. vm_compute. discriminate.
Qed.

Lemma increasing_first_lt_last (first : Keyframe) others :
  increasing_by_time (first :: others) -> others <> [] ->
  kf_time first < kf_time (List.last (first :: others) first).
Proof.
  revert first. induction others as [|b rest IH]; intros first H Hne;
    [congruence|].
  destruct H as [Hlt H]. destruct rest as [|c rest'].
  - exact Hlt.
  - assert (Hb : kf_time b < kf_time (List.last (b :: c :: rest') b))
      by (apply IH; [exact H|discriminate]).
    change (List.last (first :: b :: c :: rest') first)
      with (List.last (c :: rest') first).
    change (List.last (b :: c :: rest') b)
      with (List.last (c :: rest') b) in Hb.
    assert (E : forall d d', List.last (c :: rest') d
                             = List.last (c :: rest') d').
    { clear. revert c. induction rest' as [|e r IHr]; intros c d d';
        [reflexivity|].
      change (List.last (e :: r) d = List.last (e :: r) d'). apply IHr. }
    rewrite (E first b). lra.
Qed.

(** C7, amended.  For a non-empty list of keyframes and any progress [p],
    clamped to [[0, 1]]: at or before the first keyframe's time the result
    is the first keyframe with its unspecified fields defaulted; at or
    after the last keyframe's time, and strictly after the first
    keyframe's time unless the list has a single keyframe, it is the last
    keyframe so defaulted.  The proviso holds whenever the times are
    strictly ascending.  In particular progress 0 gives the first keyframe
    when its time is not negative, and progress 1 gives the last keyframe
    when its time is at most 1 and the first one's is below 1. *)
Theorem interpolateKeyframes_boundaries
    (parseEase : string -> option (Q -> Q))
    (parseMember : string -> option (Q -> option Q))
    (gsapInterpolate : string -> string -> Q -> option string)
    (first : Keyframe) (others : list Keyframe) (progress : Q) :
  sorted_by_time (first :: others) ->
  let keyframes := first :: others in
  let last := List.last keyframes first in
  let p := Qmax 0 (Qmin 1 progress) in
  let result q :=
    interpolateKeyframes parseEase parseMember gsapInterpolate keyframes q in
  (p <= kf_time first -> result progress = Some (keyframeState first))
  /\ (kf_time last <= p -> others = [] \/ kf_time first < p ->
      result progress = Some (keyframeState last))
  /\ (increasing_by_time keyframes -> kf_time last <= p ->
      result progress = Some (keyframeState last))
  /\ (0 <= kf_time first -> result 0 = Some (keyframeState first))
  /\ (kf_time last <= 1 -> others = [] \/ kf_time first < 1 ->
      result 1 = Some (keyframeState last))
  /\ (forall kf,
        keyframeState kf
        = {| is_x := nullish (kf_x kf) 0;
             is_y := nullish (kf_y kf) 0;
             is_z := nullish (kf_z kf) 0;
             is_rotateX := nullish (kf_rotateX kf) 0;
             is_rotateY := nullish (kf_rotateY kf) 0;
             is_rotateZ := nullish (kf_rotateZ kf) 0;
             is_scaleX := fst (fst (normalizeScale (kf_scale kf) 1));
             is_scaleY := snd (fst (normalizeScale (kf_scale kf) 1));
             is_scaleZ := snd (normalizeScale (kf_scale kf) 1);
             is_opacity := nullish (kf_opacity kf) 1;
             is_color := kf_color kf |}).
Proof.
  intros _ keyframes last p result.
  assert (B1 : forall q, Qmax 0 (Qmin 1 q) <= kf_time first ->
                         result q = Some (keyframeState first)).
  { intros q H. unfold result, interpolateKeyframes, keyframes.
    destruct others as [|b rest]; [reflexivity|].
    apply Qleb_true in H. rewrite H. reflexivity. }
  assert (B2 : forall q, kf_time last <= Qmax 0 (Qmin 1 q) ->
                         others = [] \/ kf_time first < Qmax 0 (Qmin 1 q) ->
                         result q = Some (keyframeState last)).
  { intros q H Hor. unfold result, interpolateKeyframes.
    subst last keyframes.
    destruct others as [|b rest]; [reflexivity|].
    destruct Hor as [Hnil|Hlt]; [discriminate|].
    apply Qleb_false in Hlt. rewrite Hlt.
    apply Qgeb_true in H. rewrite H. reflexivity. }
  split; [apply B1|]. split; [apply B2|]. split; [|split; [|split]].
  - intros Hinc H. apply B2; [exact H|].
    destruct others as [|b rest] eqn:E; [left; reflexivity|right].
    assert (Hfl := increasing_first_lt_last first (b :: rest) Hinc).
    fold last in Hfl. subst p.
    assert (kf_time first < kf_time last) by (apply Hfl; discriminate).
    lra.
  - intro H. apply B1. rewrite clamp_0. exact H.
  - intros H Hor. apply B2; rewrite clamp_1; assumption.
  - intro kf. unfold keyframeState.
    destruct (normalizeScale (kf_scale kf) 1) as [[sx sy] sz]. reflexivity.
Qed.

Lemma interpolateKeyframes_boundaries_witness :
  interpolateKeyframes sampleCurves sampleMembers noInterpolate
    [kfX 0 0; kfX (1 # 2) 50; kfX 1 100] 0
  = Some (keyframeState (kfX 0 0))
  /\ interpolateKeyframes sampleCurves sampleMembers noInterpolate
       [kfX 0 0; kfX (1 # 2) 50; kfX 1 100] 1
     = Some (keyframeState (kfX 1 100)).
Proof.
  assert (S : sorted_by_time [kfX 0 0; kfX (1 # 2) 50; kfX 1 100])
    by (simpl; repeat split; discriminate).
  destruct (interpolateKeyframes_boundaries sampleCurves sampleMembers
              noInterpolate
              (kfX 0 0) [kfX (1 # 2) 50; kfX 1 100] 0 S)
    as [_ [_ [_ [H0 [H1 _]]]]].
  split.
  - apply H0. discriminate.
  - apply H1; [discriminate|right; reflexivity].
Defined.

(** ** Script repair *)

Lemma trimStart_hasNonSpace s : hasNonSpace (trimStart s) = hasNonSpace s.
Proof.
  induction s as [|c r IH]; [reflexivity|]. simpl.
  destruct (isSpace c) eqn:E; simpl; [exact IH|now rewrite E].
Qed.

Lemma trimEnd_hasNonSpace s : hasNonSpace (trimEnd s) = hasNonSpace s.
Proof.
  induction s as [|c r IH]; [reflexivity|]. simpl.
  destruct (trimEnd r) as [|c' r'] eqn:E.
  - rewrite <- IH. destruct (isSpace c) eqn:Ec; simpl; now rewrite ?Ec.
  - simpl. simpl in IH. now rewrite IH.
Qed.

Lemma trimEnd_nonempty s : hasNonSpace s = true -> trimEnd s <> EmptyString.
Proof.
  intro H. rewrite <- trimEnd_hasNonSpace in H.
  destruct (trimEnd s); [discriminate|discriminate].
Qed.

Lemma trimEnd_empty s : hasNonSpace s = false -> trimEnd s = EmptyString.
Proof.
  induction s as [|c r IH]; [reflexivity|]. simpl. intro H.
  apply orb_false_iff in H. destruct H as [Hc Hr].
  rewrite (IH Hr). apply negb_false_iff in Hc. now rewrite Hc.
Qed.

Lemma collapseFrom_hasNonSpace s : forall inRun,
  hasNonSpace (collapseFrom inRun s) = hasNonSpace s.
Proof.
  induction s as [|c r IH]; intro inRun; [reflexivity|]. simpl.
  destruct (isSpace c) eqn:E.
  - destruct inRun; simpl; apply IH.
  - simpl. now rewrite E, IH.
Qed.

Lemma trim_collapse_hasNonSpace s :
  hasNonSpace (trim (collapseSpaces s)) = hasNonSpace s.
Proof.
  unfold trim, collapseSpaces.
  now rewrite trimEnd_hasNonSpace, trimStart_hasNonSpace,
    collapseFrom_hasNonSpace.
Qed.

Lemma nonempty_hasNonSpace_trim s :
  trim s <> EmptyString -> hasNonSpace s = true.
Proof.
  intro H. destruct (hasNonSpace s) eqn:E; [reflexivity|].
  exfalso. apply H. unfold trim. apply trimEnd_empty.
  now rewrite trimStart_hasNonSpace.
Qed.

Lemma isEmpty_false s : isEmpty s = false <-> s <> EmptyString.
Proof. destruct s; simpl; split; congruence. Qed.

Lemma length_pos_nonempty s :
  (0 <? String.length s)%nat = true -> s <> EmptyString.
Proof. destruct s; simpl; [discriminate|congruence]. Qed.

(** Every sentence [splitIntoSentences] returns has a visible character. *)
Lemma splitIntoSentences_hasNonSpace text t :
  In t (splitIntoSentences text) -> hasNonSpace t = true.
Proof.
  unfold splitIntoSentences. destruct (isEmpty text); [contradiction|].
  intro H. apply filter_In in H. destruct H as [Hin Hne].
  apply in_map_iff in Hin. destruct Hin as [x [<- _]].
  apply negb_true_iff, isEmpty_false in Hne.
  pose proof (nonempty_hasNonSpace_trim _ Hne) as H1.
  unfold trim. now rewrite trimEnd_hasNonSpace, trimStart_hasNonSpace.
Qed.

Lemma ensureSentence_nonempty text :
  hasNonSpace text = true -> ensureSentence text <> EmptyString.
Proof.
  intro H. unfold ensureSentence.
  destruct (trim (collapseSpaces text)) as [|c rest] eqn:E.
  - exfalso. rewrite <- trim_collapse_hasNonSpace, E in H. discriminate.
  - destruct (lastChar (String (toUpperChar c) rest)) as [l|];
      [destruct (isTerminal l)|]; simpl; discriminate.
Qed.

Lemma buildSegmentNarration_nonempty step fallbackSentence concept title i :
  (forall t, fallbackSentence = Some t -> hasNonSpace t = true) ->
  buildSegmentNarration step fallbackSentence concept title i
  <> EmptyString.
Proof.
  intro Hfb. unfold buildSegmentNarration.
  destruct (truthy fallbackSentence
            && (0 <? String.length (nullish fallbackSentence EmptyString))%nat)
    eqn:E.
  - destruct fallbackSentence as [t|]; [|discriminate].
    apply ensureSentence_nonempty. simpl. apply Hfb. reflexivity.
  - destruct (extractStepHighlights step) as [|h0 more].
    + destruct (negb (isEmpty (step_description step))
                && (0 <? String.length (trim (step_description step)))%nat)
        eqn:D.
      * apply andb_true_iff in D. destruct D as [_ D].
        apply ensureSentence_nonempty, nonempty_hasNonSpace_trim.
        apply (length_pos_nonempty _ D).
      * apply ensureSentence_nonempty. reflexivity.
    + apply ensureSentence_nonempty. reflexivity.
Qed.

Lemma mapi_length {A B} (f : nat -> A -> B) xs : forall i,
  List.length (mapi f i xs) = List.length xs.
Proof.
  induction xs as [|x rest IH]; intro i; simpl; [reflexivity|].
  now rewrite IH.
Qed.

Lemma mapi_Forall {A B} (P : B -> Prop) (f : nat -> A -> B) xs :
  (forall i x, P (f i x)) -> forall i, Forall P (mapi f i xs).
Proof.
  intro H. induction xs as [|x rest IH]; intro i; simpl; constructor.
  - apply H.
  - apply IH.
Qed.

(** C1.  With at least one step, the repaired script has one segment per
    step and no segment has an empty text, whatever the raw segments, the
    narration, the title and the concept are. *)
Theorem alignSegmentsToSteps_aligned
    (script : SectionScript) (animationData : AnimationData)
    (narration sectionId sectionTitle sectionConcept : string) :
  ad_steps animationData <> [] ->
  let repaired :=
    alignSegmentsToSteps script animationData narration sectionId
      sectionTitle sectionConcept in
  List.length (ss_segments repaired) = List.length (ad_steps animationData)
  /\ Forall (fun seg => seg_text seg <> EmptyString) (ss_segments repaired).
Proof.
  intros Hne repaired. subst repaired. unfold alignSegmentsToSteps.
  destruct (ad_steps animationData) as [|step0 steps]; [congruence|].
  cbn [ss_segments]. split.
  - apply mapi_length.
  - apply mapi_Forall. intros i step. cbn [segmentForStep seg_text].
    apply buildSegmentNarration_nonempty.
    intros t Ht. apply nth_error_In in Ht.
    apply (splitIntoSentences_hasNonSpace _ _ Ht).
Qed.

Lemma alignSegmentsToSteps_aligned_witness :
  ad_steps (mkAnimationData scenarioC_steps) <> []
  /\ map seg_text
       (ss_segments
          (alignSegmentsToSteps scenarioC_script
             (mkAnimationData scenarioC_steps)
             "Intro" "sec1" "Title" "attention"))
     = [ "Intro.";
         "We spotlight Encoder block and Decoder to show how it connects to attention.";
         "Step 3 deepens the understanding of attention." ]%string
  /\ List.length
       (ss_segments
          (alignSegmentsToSteps scenarioC_script
             (mkAnimationData scenarioC_steps)
             "Intro" "sec1" "Title" "attention"))
     = 3%nat.
Proof.
  assert (H : ad_steps (mkAnimationData scenarioC_steps) <> [])
    by discriminate.
  split; [exact H|]. split; [reflexivity|].
  exact (proj1 (alignSegmentsToSteps_aligned scenarioC_script
                  (mkAnimationData scenarioC_steps)
                  "Intro" "sec1" "Title" "attention" H)).
Defined.

(** C2, as stated, fails.  With no step the raw script of scenario C comes
    back with another section id, the narration as full text and a total
    duration of 0 instead of 4: only its segments are the input's. *)
Lemma alignSegmentsToSteps_no_steps_changes_script :
  let repaired :=
    alignSegmentsToSteps scenarioC_script (mkAnimationData [])
      "Another narration." "sec1" "Title" "attention" in
  ad_steps (mkAnimationData []) = []
  /\ repaired <> scenarioC_script
  /\ ss_sectionId repaired <> ss_sectionId scenarioC_script
  /\ ss_fullText repaired <> ss_fullText scenarioC_script
  /\ ~ ss_totalDuration repaired == ss_totalDuration scenarioC_script
  /\ ss_segments repaired = ss_segments scenarioC_script.
Proof.
  cbv zeta. split; [reflexivity|]. split; [discriminate|].
  split; [discriminate|]. split; [discriminate|].
  split; [discriminate|reflexivity].
Qed.

(** C2, amended.  With no step the repair keeps the segments of the input
    script as they are; the section id of the result is the identifier it
    was called with, its full text is the narration it was called with and
    its total duration is 0. *)
Theorem alignSegmentsToSteps_no_steps
    (script : SectionScript) (animationData : AnimationData)
    (narration sectionId sectionTitle sectionConcept : string) :
  ad_steps animationData = [] ->
  alignSegmentsToSteps script animationData narration sectionId
    sectionTitle sectionConcept
  = {| ss_sectionId := sectionId;
       ss_fullText := narration;
       ss_segments := ss_segments script;
       ss_totalDuration := 0 |}.
Proof.
  intro H. unfold alignSegmentsToSteps. rewrite H. reflexivity.
Qed.

Lemma alignSegmentsToSteps_no_steps_witness :
  alignSegmentsToSteps scenarioC_script (mkAnimationData [])
    "Another narration." "sec1" "Title" "attention"
  = {| ss_sectionId := "sec1";
       ss_fullText := "Another narration.";
       ss_segments := ss_segments scenarioC_script;
       ss_totalDuration := 0 |}.
Proof.
  apply (alignSegmentsToSteps_no_steps scenarioC_script (mkAnimationData [])
           "Another narration." "sec1" "Title" "attention").
  reflexivity.
Defined.

(** * Further properties of the code *)

(** ** Timeline: [getStateAtTime] *)

Lemma findActiveSegment_some segs : forall s len x cur seg0,
  snd cur = Some seg0 ->
  exists seg, snd (findActiveSegment segs s len x cur) = Some seg.
Proof.
  induction segs as [|a rest IH]; intros s len x cur seg0 Hcur.
  - exists seg0. exact Hcur.
  - rewrite findActiveSegment_cons.
    destruct (Qgeb x (seg_startTime a) && Qltb x (seg_endTime a)).
    + exists a. reflexivity.
    + destruct (Nat.eqb s (len - 1)).
      * apply (IH _ _ _ _ a). reflexivity.
      * apply (IH _ _ _ _ seg0). exact Hcur.
Qed.

Lemma sectionState_some i script start x :
  ss_segments script <> [] ->
  exists st, sectionState i script start x = Some st.
Proof.
  intro Hne. unfold sectionState.
  destruct (ss_segments script) as [|a rest] eqn:E; [congruence|].
  destruct (findActiveSegment_some (a :: rest) 0 (List.length (a :: rest))
              (x - start) (0%nat, nth_error (a :: rest) 0) a eq_refl)
    as [seg Hseg].
  rewrite Hseg. eexists. reflexivity.
Qed.

Lemma getStateAtTime_loop_some c secs : forall i x,
  Forall (fun s => ss_segments s <> []) secs ->
  exists st, getStateAtTime_loop c secs i x = Some st.
Proof.
  induction secs as [|s rest IH]; intros i x F; simpl.
  - eexists. reflexivity.
  - apply Forall_cons_iff in F. destruct F as [Hs F].
    destruct (Qgeb x _ && Qltb x _).
    + apply sectionState_some. exact Hs.
    + destruct (nth_error (transitions c) i) as [tr|]; [|apply IH; exact F].
      destruct (Qgeb x _ && Qltb x _); [eexists; reflexivity|].
      apply IH. exact F.
Qed.

Lemma getStateAtTime_some (c : TimelineController) (t : Q) :
  has_segments c -> exists st, getStateAtTime c t = Some st.
Proof.
  intro H. unfold getStateAtTime.
  destruct (Qgeb t (totalDuration c)); [eexists; reflexivity|].
  apply getStateAtTime_loop_some. exact H.
Qed.

(** X1.  [getStateAtTime] raises only inside a section without segments:
    on a controller whose sections all have a segment it returns a state
    for every time, negative, past the end or in between. *)
Theorem getStateAtTime_never_raises (c : TimelineController) (t : Q) :
  has_segments c ->
  exists st, getStateAtTime c t = Some st.
Proof.
  intro H. apply getStateAtTime_some. exact H.
Qed.

Lemma getStateAtTime_never_raises_witness :
  exists st, getStateAtTime (newTimelineController scenarioBC) (19 # 2)
             = Some st.
Proof.
  apply (getStateAtTime_never_raises (newTimelineController scenarioBC)
           (19 # 2)).
  repeat constructor; discriminate.
Defined.

Lemma Qmax_0_choice t :
  (t <= 0 /\ Qmax 0 t = 0) \/ (0 < t /\ Qmax 0 t = t).
Proof.
  unfold Qmax, GenericMinMax.gmax. destruct (0 ?= t) eqn:E.
  - left. apply Qeq_alt in E. split; [lra|reflexivity].
  - right. apply Qlt_alt in E. split; [exact E|reflexivity].
  - left. apply Qgt_alt in E. split; [lra|reflexivity].
Qed.

Lemma Qmin_choice a b :
  (a <= b /\ Qmin a b = a) \/ (b < a /\ Qmin a b = b).
Proof.
  unfold Qmin, GenericMinMax.gmin. destruct (a ?= b) eqn:E.
  - left. apply Qeq_alt in E. split; [lra|reflexivity].
  - left. apply Qlt_alt in E. split; [lra|reflexivity].
  - right. apply Qgt_alt in E. split; [exact E|reflexivity].
Qed.

Lemma Qmax_0_idem t : Qmax 0 (Qmax 0 t) = Qmax 0 t.
Proof.
  destruct (Qmax_0_choice t) as [[_ E]|[H E]]; rewrite E.
  - reflexivity.
  - exact E.
Qed.

Lemma getStateAtTime_loop_same_script c c' secs : forall i x,
  same_script c c' ->
  getStateAtTime_loop c' secs i x = getStateAtTime_loop c secs i x.
Proof.
  intros i x [_ [Ht [_ [Hs Hts]]]]. revert i.
  induction secs as [|s rest IH]; intro i; simpl; [reflexivity|].
  rewrite Hs, Ht, Hts, IH. reflexivity.
Qed.

Lemma getStateAtTime_same_script c c' t :
  same_script c c' -> getStateAtTime c' t = getStateAtTime c t.
Proof.
  intro H. pose proof H as [Hsec [_ [Htot _]]]. unfold getStateAtTime.
  rewrite Htot, Hsec, (getStateAtTime_loop_same_script c c' _ _ _ H).
  reflexivity.
Qed.

Lemma getStateAtTime_clamped c t :
  0 < totalDuration c ->
  getStateAtTime c (Qmax 0 (Qmin t (totalDuration c))) = getStateAtTime c t.
Proof.
  intro Hpos. unfold getStateAtTime.
  destruct (Qmin_choice t (totalDuration c)) as [[Hle E]|[Hlt E]]; rewrite E.
  - destruct (Qmax_0_choice t) as [[Hneg E0]|[Hp E0]]; rewrite E0.
    + assert (E1 : Qgeb 0 (totalDuration c) = false)
        by (apply Qgeb_false; exact Hpos).
      assert (E2 : Qgeb t (totalDuration c) = false)
        by (apply Qgeb_false; lra).
      rewrite E1, E2. reflexivity.
    + rewrite ?E0. reflexivity.
  - destruct (Qmax_0_choice (totalDuration c)) as [[Hneg _]|[_ E0]]; [lra|].
    rewrite E0.
    assert (E1 : Qgeb (totalDuration c) (totalDuration c) = true)
      by (apply Qgeb_true; apply Qle_refl).
    assert (E2 : Qgeb t (totalDuration c) = true)
      by (apply Qgeb_true; lra).
    rewrite E1, E2. reflexivity.
Qed.

(** X2.  On a timeline of positive duration, the state that [seek(t)]
    hands to the listeners, and the one read at the current time right
    after it, is [getStateAtTime(t)], for every [t], in range or not. *)
Theorem seek_then_read (c : TimelineController) (t : Q) :
  0 < totalDuration c ->
  let c' := fst (seek t c) in
  getStateAtTime c' (getCurrentTime c') = getStateAtTime c t
  /\ snd (seek t c) = broadcast (listeners c) (getStateAtTime c t).
Proof.
  intros Hpos c'.
  assert (Hs : same_script c c') by (repeat split).
  assert (E : getStateAtTime c' (getCurrentTime c') = getStateAtTime c t).
  { rewrite (getStateAtTime_same_script c c' _ Hs).
    apply getStateAtTime_clamped. exact Hpos. }
  split; [exact E|].
  unfold seek, notify. cbn [fst snd].
  change (getStateAtTime c' (getCurrentTime c') = getStateAtTime c t) in E.
  unfold c', seek, getCurrentTime in E. cbn [fst] in E.
  rewrite E. reflexivity.
Qed.

Lemma seek_then_read_witness :
  snd (seek (-3) (newTimelineController scenarioBC))
  = broadcast (listeners (newTimelineController scenarioBC))
      (getStateAtTime (newTimelineController scenarioBC) (-3)).
Proof.
  apply (seek_then_read (newTimelineController scenarioBC) (-3)).
  reflexivity.
Defined.

(** X3.  The time a state reports is the requested time clamped into
    [[0, totalDuration]]. *)
Theorem getStateAtTime_globalTime_clamped
    (c : TimelineController) (t : Q) (st : TimelineState) :
  0 <= totalDuration c ->
  getStateAtTime c t = Some st ->
  globalTime st == Qmax 0 (Qmin t (totalDuration c))
  /\ 0 <= globalTime st /\ globalTime st <= totalDuration c.
Proof.
  intros Hpos H. apply getStateAtTime_globalTime in H.
  destruct (Qmin_cases t (totalDuration c)) as [[A B]|[A B]];
    destruct (Qmax_0_cases (Qmin t (totalDuration c))) as [[C D]|[C D]];
    destruct (Qmax_0_cases t) as [[F G]|[F G]];
    destruct H as [[H1 H2]|[H1 H2]]; rewrite H2; repeat split; lra.
Qed.

Lemma getStateAtTime_globalTime_clamped_witness :
  exists st,
    getStateAtTime (newTimelineController scenarioBC) 40 = Some st
    /\ globalTime st == 16.
Proof.
  eexists. split; [reflexivity|].
  apply (getStateAtTime_globalTime_clamped (newTimelineController scenarioBC)
           40 _ ltac:(discriminate) eq_refl).
Defined.

(** ** Timeline: every time before the end is in a section or a transition *)

Lemma sectionState_shape i script start x st :
  sectionState i script start x = Some st ->
  phase st = PhaseSection /\ sectionIndex st = Z.of_nat i
  /\ globalTime st = x.
Proof.
  unfold sectionState.
  destruct (snd (findActiveSegment _ _ _ _ _)); [|discriminate].
  intro H. injection H as <-. repeat split.
Qed.

(** The scan returns the state of the span that holds the clamped time. *)
Lemma getStateAtTime_loop_covers (c : TimelineController) secs :
  forall i offset,
  wired c secs i offset ->
  Forall (fun s => 0 <= ss_totalDuration s) secs ->
  Forall (fun tr => 0 <= tr_duration tr) (transitions c) ->
  forall x, offset <= x -> x < endOffset secs i (transitions c) offset ->
  (exists k s,
      nth_error secs k = Some s
      /\ nth (i + k) (sectionStartTimes c) 0 <= x
      /\ x < nth (i + k) (sectionStartTimes c) 0 + ss_totalDuration s
      /\ getStateAtTime_loop c secs i x
         = sectionState (i + k) s (nth (i + k) (sectionStartTimes c) 0) x)
  \/ (exists k s tr,
      nth_error secs k = Some s
      /\ nth_error (transitions c) (i + k) = Some tr
      /\ nth (i + k) (transitionStartTimes c) 0 <= x
      /\ x < nth (i + k) (transitionStartTimes c) 0 + tr_duration tr
      /\ getStateAtTime_loop c secs i x
         = Some (transitionState (i + k) tr
                   (nth (i + k) (transitionStartTimes c) 0) x)).
Proof.
  induction secs as [|s0 rest IH]; intros i offset W Fs Ft x Hlo Hhi.
  - simpl in Hhi. lra.
  - simpl in W. destruct W as [Hs W].
    apply Forall_cons_iff in Fs. destruct Fs as [H0 Frest].
    simpl in Hhi. simpl getStateAtTime_loop. rewrite Hs.
    destruct (Qlt_le_dec x (offset + ss_totalDuration s0)) as [Hin|Hout].
    + left. exists 0%nat, s0. rewrite Nat.add_0_r, Hs.
      assert (E1 : Qgeb x offset = true) by (apply Qgeb_true; exact Hlo).
      assert (E2 : Qltb x (offset + ss_totalDuration s0) = true)
        by (apply Qltb_true; exact Hin).
      rewrite E1, E2. repeat split; assumption.
    + assert (E2 : Qltb x (offset + ss_totalDuration s0) = false)
        by (apply Qltb_false; exact Hout).
      rewrite E2, andb_false_r.
      destruct (nth_error (transitions c) i) as [tr|] eqn:Etr.
      * destruct W as [HT W]. rewrite HT.
        destruct (Qlt_le_dec x (offset + ss_totalDuration s0
                                + tr_duration tr)) as [Hin'|Hout'].
        -- right. exists 0%nat, s0, tr. rewrite Nat.add_0_r, HT.
           assert (E3 : Qgeb x (offset + ss_totalDuration s0) = true)
             by (apply Qgeb_true; exact Hout).
           assert (E4 : Qltb x (offset + ss_totalDuration s0
                                + tr_duration tr) = true)
             by (apply Qltb_true; exact Hin').
           rewrite E3, E4. repeat split; assumption.
        -- assert (E4 : Qltb x (offset + ss_totalDuration s0
                                + tr_duration tr) = false)
             by (apply Qltb_false; exact Hout').
           rewrite E4, andb_false_r.
           destruct (IH _ _ W Frest Ft x Hout' Hhi)
             as [[k [s [A [B [C D]]]]]|[k [s [tr' [A [A' [B [C D]]]]]]]].
           ++ left. exists (S k), s.
              replace (i + S k)%nat with (S i + k)%nat by lia.
              repeat split; assumption.
           ++ right. exists (S k), s, tr'.
              replace (i + S k)%nat with (S i + k)%nat by lia.
              repeat split; assumption.
      * destruct (IH _ _ W Frest Ft x Hout Hhi)
          as [[k [s [A [B [C D]]]]]|[k [s [tr' [A [A' [B [C D]]]]]]]].
        -- left. exists (S k), s.
           replace (i + S k)%nat with (S i + k)%nat by lia.
           repeat split; assumption.
        -- right. exists (S k), s, tr'.
           replace (i + S k)%nat with (S i + k)%nat by lia.
           repeat split; assumption.
Qed.

(** X4.  On the controller of a script with non-negative durations whose
    positive [totalDuration] is its durations added up in timeline order,
    the order in which the constructor adds them, every time before the
    end falls in a section or in a transition: a state returned for it is
    never the terminal one, its section index is that of an existing
    section, and the span of that section, or of the transition after it,
    holds the reported time. *)
Theorem getStateAtTime_before_end
    (p : PresentationScript) (t : Q) (st : TimelineState) :
  timeline_invariant p ->
  durations_nonneg p ->
  0 < ps_totalDuration p ->
  t < ps_totalDuration p ->
  let c := newTimelineController p in
  getStateAtTime c t = Some st ->
  exists k s,
    nth_error (ps_sections p) k = Some s
    /\ sectionIndex st = Z.of_nat k
    /\ ((phase st = PhaseSection
         /\ nth k (sectionStartTimes c) 0 <= globalTime st
         /\ globalTime st
            < nth k (sectionStartTimes c) 0 + ss_totalDuration s)
        \/ (exists tr,
              nth_error (ps_transitions p) k = Some tr
              /\ phase st = PhaseTransition
              /\ fromSection st = Some (Z.of_nat k)
              /\ toSection st = Some (Z.of_nat k + 1)%Z
              /\ nth k (transitionStartTimes c) 0 <= globalTime st
              /\ globalTime st
                 < nth k (transitionStartTimes c) 0 + tr_duration tr)).
Proof.
  intros Inv [Fs Ft] Hpos Hlt c H.
  pose proof (newTimelineController_wired p) as W. fold c in W.
  unfold getStateAtTime in H.
  assert (E0 : Qgeb t (totalDuration c) = false)
    by (apply Qgeb_false; exact Hlt).
  rewrite E0 in H.
  set (x := Qmax 0 t) in *.
  assert (Hx : 0 <= x /\ x < ps_totalDuration p).
  { subst x. destruct (Qmax_0_choice t) as [[_ E]|[A E]]; rewrite E;
      split; lra. }
  destruct Hx as [Hx0 Hx1].
  rewrite (proj2 Inv) in Hx1. unfold timelineTotal in Hx1.
  change (sectionScripts c) with (ps_sections p) in H.
  destruct (getStateAtTime_loop_covers c (ps_sections p) 0 0 W Fs Ft x
              Hx0 Hx1)
    as [[k [s [A [B [C D]]]]]|[k [s [tr [A [A' [B [C D]]]]]]]];
    cbn [Nat.add] in *; rewrite D in H.
  - exists k, s. apply sectionState_shape in H.
    destruct H as [H1 [H2 H3]]. rewrite H3.
    split; [exact A|]. split; [exact H2|]. left. repeat split; assumption.
  - exists k, s. injection H as <-. cbn.
    split; [exact A|]. split; [reflexivity|]. right. exists tr.
    repeat split; assumption.
Qed.

Lemma getStateAtTime_before_end_witness :
  exists st k s,
    getStateAtTime (newTimelineController scenarioBC) (19 # 2) = Some st
    /\ nth_error (ps_sections scenarioBC) k = Some s
    /\ sectionIndex st = Z.of_nat k.
Proof.
  destruct (getStateAtTime (newTimelineController scenarioBC) (19 # 2))
    as [st|] eqn:E; [|discriminate E].
  destruct (getStateAtTime_before_end scenarioBC (19 # 2) st)
    as [k [s [A [B _]]]].
  - split; reflexivity.
  - split; repeat constructor; discriminate.
  - reflexivity.
  - reflexivity.
  - exact E.
  - exists st, k, s. split; [reflexivity|]. split; assumption.
Defined.

(** ** Timeline: inside a transition, inside a segment *)

Lemma wired_transition (c : TimelineController) secs : forall i offset,
  wired c secs i offset ->
  forall k s tr,
    nth_error secs k = Some s ->
    nth_error (transitions c) (i + k) = Some tr ->
    nth (i + k) (transitionStartTimes c) 0
    = nth (i + k) (sectionStartTimes c) 0 + ss_totalDuration s.
Proof.
  induction secs as [|s0 rest IH]; intros i offset W k s tr Hk Ht.
  - destruct k; discriminate.
  - simpl in W. destruct W as [Hs W]. destruct k as [|k].
    + simpl in Hk. injection Hk as <-. rewrite Nat.add_0_r in *.
      rewrite Ht in W. destruct W as [HT _]. rewrite HT, Hs. reflexivity.
    + simpl in Hk.
      replace (i + S k)%nat with (S i + k)%nat in * by lia.
      destruct (nth_error (transitions c) i) as [tr0|].
      * destruct W as [_ W]. apply (IH _ _ W k s tr); assumption.
      * apply (IH _ _ W k s tr); assumption.
Qed.

(** The scan of [getStateAtTime] reaches the transition whose span holds
    the clamped time. *)
Lemma getStateAtTime_loop_transition (c : TimelineController) secs :
  forall i offset,
  wired c secs i offset ->
  Forall (fun s => 0 <= ss_totalDuration s) secs ->
  Forall (fun tr => 0 <= tr_duration tr) (transitions c) ->
  forall k s tr x,
    nth_error secs k = Some s ->
    nth_error (transitions c) (i + k) = Some tr ->
    nth (i + k) (transitionStartTimes c) 0 <= x ->
    x < nth (i + k) (transitionStartTimes c) 0 + tr_duration tr ->
    getStateAtTime_loop c secs i x
    = Some (transitionState (i + k) tr
              (nth (i + k) (transitionStartTimes c) 0) x).
Proof.
  induction secs as [|s0 rest IH];
    intros i offset W Fs Ft k s tr x Hk Ht Hlo Hhi.
  - destruct k; discriminate.
  - pose proof (wired_transition c _ _ _ W k s tr Hk Ht) as HT.
    destruct (wired_mono c _ _ _ W Fs Ft k s Hk) as [M _].
    destruct k as [|k].
    + simpl in Hk. injection Hk as <-. rewrite Nat.add_0_r in *.
      simpl. rewrite Ht.
      assert (E1 : Qltb x (nth i (sectionStartTimes c) 0
                           + ss_totalDuration s0) = false)
        by (apply Qltb_false; rewrite <- HT; exact Hlo).
      apply Qgeb_true in Hlo. apply Qltb_true in Hhi.
      rewrite E1, Hlo, Hhi, andb_false_r. reflexivity.
    + simpl in Hk. simpl in W. destruct W as [Hs W].
      apply Forall_cons_iff in Fs. destruct Fs as [H0 Frest].
      replace (i + S k)%nat with (S i + k)%nat in * by lia.
      assert (Hsk : 0 <= ss_totalDuration s).
      { apply nth_error_In in Hk. rewrite Forall_forall in Frest.
        apply (Frest _ Hk). }
      simpl getStateAtTime_loop.
      destruct (nth_error (transitions c) i) as [tr0|] eqn:E.
      * destruct W as [HT0 W].
        destruct (wired_mono c rest _ _ W Frest Ft k s Hk) as [A _].
        assert (Htr : 0 <= tr_duration tr0).
        { apply nth_error_In in E. rewrite Forall_forall in Ft.
          apply (Ft _ E). }
        assert (E1 : Qltb x (nth i (sectionStartTimes c) 0
                             + ss_totalDuration s0) = false)
          by (apply Qltb_false; rewrite Hs; rewrite HT in Hlo; lra).
        assert (E2 : Qltb x (nth i (transitionStartTimes c) 0
                             + tr_duration tr0) = false)
          by (apply Qltb_false; rewrite HT0; rewrite HT in Hlo; lra).
        rewrite E1, E2, !andb_false_r.
        apply (IH _ _ W Frest Ft k s tr x Hk Ht Hlo Hhi).
      * destruct (wired_mono c rest _ _ W Frest Ft k s Hk) as [A _].
        assert (E1 : Qltb x (nth i (sectionStartTimes c) 0
                             + ss_totalDuration s0) = false)
          by (apply Qltb_false; rewrite Hs; rewrite HT in Hlo; lra).
        rewrite E1, !andb_false_r.
        apply (IH _ _ W Frest Ft k s tr x Hk Ht Hlo Hhi).
Qed.

(** X5.  In a script that satisfies the data-model invariant, with
    non-negative durations, a time inside the span of transition [i] gives
    the transition state from section [i] to section [i+1]; its progress
    is the fraction of the transition already played, in [[0, 1)], and
    both section and segment progress are pinned at 1. *)
Theorem getStateAtTime_in_transition
    (p : PresentationScript) (i : nat) (tr : SectionTransition) (t : Q) :
  script_invariant p ->
  durations_nonneg p ->
  nth_error (ps_transitions p) i = Some tr ->
  let c := newTimelineController p in
  let transitionStart := nth i (transitionStartTimes c) 0 in
  transitionStart <= t ->
  t < transitionStart + tr_duration tr ->
  exists st q,
    getStateAtTime c t = Some st
    /\ phase st = PhaseTransition
    /\ sectionIndex st = Z.of_nat i
    /\ fromSection st = Some (Z.of_nat i)
    /\ toSection st = Some (Z.of_nat i + 1)%Z
    /\ sectionProgress st = 1 /\ segmentProgress st = 1
    /\ transitionProgress st = Some q
    /\ q == (t - transitionStart) / tr_duration tr
    /\ 0 <= q /\ q < 1.
Proof.
  intros Inv [Fs Ft] Htr c transitionStart Hlo Hhi.
  pose proof (newTimelineController_wired p) as W. fold c in W.
  destruct Inv as [Hlen Hsum]. pose proof (conj Hlen Hsum) as Inv.
  assert (Hi : (S i < List.length (ps_sections p))%nat).
  { assert (i < List.length (ps_transitions p))%nat
      by (apply nth_error_Some; congruence). lia. }
  destruct (nth_error (ps_sections p) i) as [s|] eqn:Hs;
    [|apply nth_error_None in Hs; lia].
  destruct (nth_error (ps_sections p) (S i)) as [s'|] eqn:Hs';
    [|apply nth_error_None in Hs'; lia].
  destruct (wired_section_start c _ 0 0 W i s s' tr Hs Hs' Htr) as [T1 T2].
  destruct (wired_mono c _ _ _ W Fs Ft i s Hs) as [M1 _].
  destruct (wired_mono c _ _ _ W Fs Ft (S i) s' Hs') as [_ M2].
  cbn [Nat.add] in T1, T2, M1, M2.
  change (transitions c) with (ps_transitions p) in M2.
  rewrite (endOffset_total p Inv) in M2.
  assert (Hs'0 : 0 <= ss_totalDuration s').
  { apply nth_error_In in Hs'. rewrite Forall_forall in Fs.
    apply (Fs _ Hs'). }
  assert (Hs0 : 0 <= ss_totalDuration s).
  { apply nth_error_In in Hs. rewrite Forall_forall in Fs.
    apply (Fs _ Hs). }
  fold transitionStart in T1, T2.
  assert (Hd : 0 < tr_duration tr) by lra.
  unfold getStateAtTime.
  assert (E0 : Qgeb t (totalDuration c) = false).
  { apply Qgeb_false. change (totalDuration c) with (ps_totalDuration p).
    rewrite T2 in M2. lra. }
  rewrite E0.
  assert (Ht0 : 0 <= t) by (rewrite T1 in Hlo; lra).
  assert (Hx : Qmax 0 t == t)
    by (destruct (Qmax_0_cases t) as [[Hneg Hx]|[_ Hx]]; lra).
  set (x := Qmax 0 t) in *.
  change (sectionScripts c) with (ps_sections p).
  rewrite (getStateAtTime_loop_transition c _ 0 0 W Fs Ft i s tr x Hs Htr);
    [| cbn [Nat.add]; fold transitionStart; lra
     | cbn [Nat.add]; fold transitionStart; lra].
  cbn [Nat.add]. fold transitionStart.
  eexists. eexists. split; [reflexivity|].
  unfold transitionState.
  cbn [phase sectionIndex fromSection toSection sectionProgress
       segmentProgress transitionProgress].
  assert (E1 : Qgtb (tr_duration tr) 0 = true)
    by (apply Qgtb_true; exact Hd).
  rewrite E1. repeat split.
  - unfold Qdiv. rewrite Hx. reflexivity.
  - apply Qle_shift_div_l; [exact Hd|]. lra.
  - apply Qlt_shift_div_r; [exact Hd|]. lra.
Qed.

Lemma getStateAtTime_in_transition_witness :
  exists st q,
    getStateAtTime (newTimelineController scenarioBC) (19 # 2) = Some st
    /\ phase st = PhaseTransition
    /\ fromSection st = Some 0%Z
    /\ toSection st = Some 1%Z
    /\ transitionProgress st = Some q
    /\ q == 1 # 2.
Proof.
  destruct (getStateAtTime_in_transition scenarioBC 0
              (mkTransition "b" "c" Crossfade 1) (19 # 2))
    as [st [q [A [B [_ [C [D [_ [_ [E [F _]]]]]]]]]]].
  - split; reflexivity.
  - split; repeat constructor; discriminate.
  - reflexivity.
  - vm_compute. discriminate.
  - reflexivity.
  - exists st, q. repeat split; assumption.
Defined.





(** ** Timeline: the playback loop *)

(** The two ways a tick ends. *)
Lemma tick_cases (h : nat) (ts : Q) (c c' : TimelineController)
    (r : bool) (out : Output) :
  tick h ts c = (c', r, out) ->
  same_script c c'
  /\ listeners c' = listeners c
  /\ speed c' = speed c
  /\ lastTimestamp c' = Some ts
  /\ out = notify c'
  /\ ((totalDuration c <= tickTarget c ts
       /\ currentTime c' = totalDuration c
       /\ playing c' = false /\ rafId c' = None /\ r = false)
      \/ (tickTarget c ts < totalDuration c
          /\ currentTime c' = tickTarget c ts
          /\ playing c' = playing c
          /\ ((r = true /\ rafId c' = Some h /\ playing c = true
               /\ exists st, getStateAtTime c' (tickTarget c ts) = Some st)
              \/ (r = false /\ rafId c' = rafId c
                  /\ (playing c = false
                      \/ getStateAtTime c' (tickTarget c ts) = None))))).
Proof.
  intro Htick.
  destruct c as [ct0 sp pl raf lt ls secs trs tot sst tst].
  unfold tickTarget, tickBaseline.
  cbn [currentTime speed lastTimestamp totalDuration playing rafId
       listeners].
  unfold tick, set_lastTimestamp, set_currentTime, set_playing, set_rafId
    in Htick.
  cbn [currentTime speed playing rafId lastTimestamp listeners
       sectionScripts transitions totalDuration sectionStartTimes
       transitionStartTimes] in Htick.
  set (ct := ct0 + (ts - match lt with
                         | Some l => l
                         | None => ts
                         end) / 1000 * sp) in *.
  clearbody ct.
  destruct (Qgeb ct tot) eqn:E; qbool.
  - injection Htick as <- <- <-.
    split; [repeat split|]. repeat (split; [reflexivity|]).
    left. repeat split. exact E.
  - unfold notify in Htick. cbn [currentTime listeners] in Htick.
    match type of Htick with
    | context [getStateAtTime ?c1 ?t] =>
        destruct (getStateAtTime c1 t) as [st|] eqn:Hst
    end.
    + destruct pl; injection Htick as <- <- <-.
      * assert (Hst' : getStateAtTime
                         (mkController ct sp true (Some h) (Some ts) ls
                            secs trs tot sst tst) ct = Some st).
        { rewrite <- Hst. apply getStateAtTime_same_script. repeat split. }
        split; [repeat split|]. repeat (split; [reflexivity|]).
        split.
        { unfold notify. cbn [currentTime listeners]. rewrite Hst'.
          reflexivity. }
        right. repeat split; try assumption. left. repeat split.
        exists st. exact Hst'.
      * split; [repeat split|]. repeat (split; [reflexivity|]).
        split.
        { unfold notify. cbn [currentTime listeners]. rewrite Hst.
          reflexivity. }
        right. repeat split; try assumption. right. repeat split.
        left. reflexivity.
    + injection Htick as <- <- <-.
      split; [repeat split|]. repeat (split; [reflexivity|]).
      split.
      { unfold notify. cbn [currentTime listeners]. rewrite Hst.
        reflexivity. }
      right. repeat split; try assumption. right. repeat split.
      right. exact Hst.
Qed.

Lemma run_fst_cons w e rest :
  fst (run w (e :: rest)) = fst (run (fst (step w e)) rest).
Proof.
  simpl. destruct (step w e) as [w1 out]. simpl.
  destruct (run w1 rest) as [w2 outs]. reflexivity.
Qed.

Lemma run_fst_app evs1 : forall w evs2,
  fst (run w (evs1 ++ evs2)) = fst (run (fst (run w evs1)) evs2).
Proof.
  induction evs1 as [|e rest IH]; intros w evs2; [reflexivity|].
  rewrite <- app_comm_cons, !run_fst_cons. apply IH.
Qed.

Lemma same_script_refl c : same_script c c.
Proof. repeat split. Qed.

Lemma same_script_trans a b c :
  same_script a b -> same_script b c -> same_script a c.
Proof.
  intros [A1 [A2 [A3 [A4 A5]]]] [B1 [B2 [B3 [B4 B5]]]].
  repeat split; congruence.
Qed.

Lemma existsb_eqb_false l ls :
  existsb (Nat.eqb l) ls = false -> ~ In l ls.
Proof.
  intros H Hin.
  assert (existsb (Nat.eqb l) ls = true).
  { apply existsb_exists. exists l. split; [exact Hin|apply Nat.eqb_refl]. }
  congruence.
Qed.

Lemma step_world_inv (p : PresentationScript) (w : World) (e : Event) :
  world_inv p w -> world_inv p (fst (step w e)).
Proof.
  intros [Hs [Hnd Hp]].
  destruct w as [c pd fr]. cbn [ctl pending fresh] in *.
  destruct e; unfold step; cbn [ctl pending fresh].
  - (* play *)
    unfold play. destruct (playing c) eqn:Epl; cbn [fst].
    + split; [exact Hs|split; [exact Hnd|]].
      intros h1 H1. cbn [ctl pending fresh] in *.
      destruct (Hp h1 H1). split; congruence.
    + split; [|split].
      * destruct (Qgeb (currentTime c) (totalDuration c));
          apply (same_script_trans _ c); try exact Hs; repeat split.
      * destruct (Qgeb (currentTime c) (totalDuration c)); exact Hnd.
      * intros h H. injection H as <-. cbn [pending ctl] in *.
        destruct (Qgeb (currentTime c) (totalDuration c)); split; reflexivity.
  - (* pause *)
    unfold pause. cbn [fst snd].
    assert (Hpd : cancelAnimationFrame (rafId (set_playing false c)) pd
                  = None).
    { destruct pd as [h|]; [|destruct (rafId (set_playing false c));
                              reflexivity].
      destruct (Hp h eq_refl) as [Hr _]. cbn [set_playing rafId].
      rewrite Hr. simpl. now rewrite Nat.eqb_refl. }
    rewrite Hpd. cbn [ctl pending].
    split; [|split].
    + apply (same_script_trans _ c); [exact Hs|].
      cbn [set_playing rafId]. destruct (rafId c); repeat split.
    + cbn [set_playing rafId]. destruct (rafId c); exact Hnd.
    + intros h H. discriminate.
  - (* seek *)
    unfold seek. cbn [fst ctl pending].
    split; [|split].
    + apply (same_script_trans _ c); [exact Hs|repeat split].
    + exact Hnd.
    + intros h H. apply (Hp h H).
  - (* seekToSection *)
    unfold seekToSection.
    destruct ((0 <=? sectionIndex0)%Z && _)%bool; unfold seek;
      cbn [fst ctl pending].
    + split; [|split].
      * apply (same_script_trans _ c); [exact Hs|repeat split].
      * exact Hnd.
      * intros h H. apply (Hp h H).
    + split; [exact Hs|split; [exact Hnd|]].
      intros h1 H1. cbn [ctl pending fresh] in *.
      destruct (Hp h1 H1). split; congruence.
  - (* setSpeed *)
    cbn [fst ctl pending]. split; [|split].
    + apply (same_script_trans _ c); [exact Hs|repeat split].
    + exact Hnd.
    + intros h H. apply (Hp h H).
  - (* subscribe *)
    cbn [fst ctl pending]. unfold subscribe.
    destruct (existsb (Nat.eqb listener) (listeners c)) eqn:Ex.
    + split; [exact Hs|split; [exact Hnd|]].
      intros h1 H1. cbn [ctl pending fresh] in *.
      destruct (Hp h1 H1). split; congruence.
    + split; [|split].
      * apply (same_script_trans _ c); [exact Hs|repeat split].
      * cbn [set_listeners listeners].
        apply NoDup_app; [exact Hnd|repeat constructor; intros []|].
        intros x Hx [<-|[]]. apply (existsb_eqb_false _ _ Ex Hx).
      * intros h H. apply (Hp h H).
  - (* unsubscribe *)
    cbn [fst ctl pending]. split; [|split].
    + apply (same_script_trans _ c); [exact Hs|repeat split].
    + cbn [unsubscribe set_listeners listeners]. apply NoDup_filter.
      exact Hnd.
    + intros h H. apply (Hp h H).
  - (* destroy *)
    unfold destroy, pause. cbn [fst snd].
    assert (Hpd : cancelAnimationFrame (rafId (set_playing false c)) pd
                  = None).
    { destruct pd as [h|]; [|destruct (rafId (set_playing false c));
                              reflexivity].
      destruct (Hp h eq_refl) as [Hr _]. cbn [set_playing rafId].
      rewrite Hr. simpl. now rewrite Nat.eqb_refl. }
    rewrite Hpd. cbn [ctl pending].
    split; [|split].
    + apply (same_script_trans _ c); [exact Hs|].
      cbn [set_playing rafId]. destruct (rafId c); repeat split.
    + constructor.
    + intros h H. discriminate.
  - (* a frame *)
    destruct pd as [h0|]; cbn [fst].
    + destruct (tick fr timestamp c) as [[c' r] out] eqn:Htick.
      destruct (tick_cases _ _ _ _ _ _ Htick)
        as [T1 [T2 [_ [_ [_ T3]]]]].
      destruct r; unfold world_inv; cbn [fst ctl pending fresh].
      * split; [|split].
        -- apply (same_script_trans _ c); assumption.
        -- rewrite T2. exact Hnd.
        -- intros h H. injection H as <-.
           destruct T3 as [[_ [_ [_ [_ F]]]]|[_ [_ [Hpl [[_ [R [Pl _]]]|[F _]]]]]];
             try discriminate.
           split; [exact R|]. rewrite Hpl. exact Pl.
      * split; [|split].
        -- apply (same_script_trans _ c); assumption.
        -- rewrite T2. exact Hnd.
        -- intros h H. discriminate.
    + split; [exact Hs|split; [exact Hnd|]]. intros h1 H1. discriminate.
Qed.

Lemma newWorld_inv (p : PresentationScript) : world_inv p (newWorld p).
Proof.
  split; [apply same_script_refl|]. split; [constructor|].
  intros h H. discriminate.
Qed.

Lemma run_world_inv (p : PresentationScript) evs : forall w,
  world_inv p w -> world_inv p (fst (run w evs)).
Proof.
  induction evs as [|e rest IH]; intros w H; [exact H|].
  rewrite run_fst_cons. apply IH, step_world_inv, H.
Qed.

(** X7.  Whatever is called on a controller, in whatever order, and
    whatever frames the host runs: the script and the precomputed start
    offsets are the ones of the construction, no listener is registered
    twice, and a frame is pending in the host only while the controller is
    playing and holds that frame's handle. *)
Theorem reachable_world_inv (p : PresentationScript) (evs : list Event) :
  let w := fst (run (newWorld p) evs) in
  same_script (newTimelineController p) (ctl w)
  /\ NoDup (listeners (ctl w))
  /\ forall h, pending w = Some h ->
               rafId (ctl w) = Some h /\ playing (ctl w) = true.
Proof.
  apply (run_world_inv p evs (newWorld p) (newWorld_inv p)).
Qed.

Lemma frames_ignored tss : forall w,
  pending w = None -> run w (map EvFrame tss) = (w, []).
Proof.
  induction tss as [|ts rest IH]; intros w H; [reflexivity|].
  simpl. rewrite H. rewrite (IH w H). reflexivity.
Qed.

Lemma pause_stops c :
  playing (fst (pause c)) = false
  /\ rafId (fst (pause c)) = None
  /\ lastTimestamp (fst (pause c)) = None
  /\ listeners (fst (pause c)) = listeners c
  /\ currentTime (fst (pause c)) = currentTime c
  /\ snd (pause c) = rafId c.
Proof.
  destruct c as [ct0 sp pl raf lt ls secs trs tot sst tst].
  unfold pause. destruct raf; cbn; repeat split.
Qed.

Lemma destroy_stops c :
  playing (fst (destroy c)) = false
  /\ rafId (fst (destroy c)) = None
  /\ listeners (fst (destroy c)) = []
  /\ currentTime (fst (destroy c)) = currentTime c
  /\ snd (destroy c) = rafId c.
Proof.
  destruct c as [ct0 sp pl raf lt ls secs trs tot sst tst].
  unfold destroy, pause. destruct raf; cbn; repeat split.
Qed.

Lemma step_pause w :
  step w EvPause
  = (mkWorld (fst (pause (ctl w)))
       (cancelAnimationFrame (snd (pause (ctl w))) (pending w)) (fresh w),
     Delivered []).
Proof. unfold step. destruct (pause (ctl w)). reflexivity. Qed.

Lemma step_destroy w :
  step w EvDestroy
  = (mkWorld (fst (destroy (ctl w)))
       (cancelAnimationFrame (snd (destroy (ctl w))) (pending w)) (fresh w),
     Delivered []).
Proof. unfold step. destruct (destroy (ctl w)). reflexivity. Qed.

(** X8.  After [pause()] or [destroy()], at any point of any run, no frame
    is left with the host: the frames it may still try to run deliver
    nothing and change nothing, the controller is not playing, and after
    [destroy()] no listener is left. *)
Theorem pause_cancels_frames
    (p : PresentationScript) (evs : list Event) (tss : list Q) :
  let paused := fst (run (newWorld p) (evs ++ [EvPause])) in
  let destroyed := fst (run (newWorld p) (evs ++ [EvDestroy])) in
  run paused (map EvFrame tss) = (paused, [])
  /\ playing (ctl paused) = false
  /\ rafId (ctl paused) = None
  /\ lastTimestamp (ctl paused) = None
  /\ run destroyed (map EvFrame tss) = (destroyed, [])
  /\ playing (ctl destroyed) = false
  /\ listeners (ctl destroyed) = [].
Proof.
  intros paused destroyed. subst paused destroyed.
  rewrite !run_fst_app.
  set (w := fst (run (newWorld p) evs)).
  destruct (run_world_inv p evs (newWorld p) (newWorld_inv p))
    as [_ [_ Hp]].
  fold w in Hp.
  assert (Hpd : cancelAnimationFrame (rafId (ctl w)) (pending w) = None).
  { destruct (pending w) as [h|]; [|destruct (rafId (ctl w)); reflexivity].
    destruct (Hp h eq_refl) as [Hr _]. rewrite Hr. simpl.
    now rewrite Nat.eqb_refl. }
  destruct (pause_stops (ctl w)) as [P1 [P2 [P3 [_ [_ P4]]]]].
  destruct (destroy_stops (ctl w)) as [D1 [_ [D3 [_ D4]]]].
  assert (E1 : fst (run w [EvPause])
               = mkWorld (fst (pause (ctl w))) None (fresh w)).
  { rewrite run_fst_cons, step_pause. cbn [run fst].
    rewrite P4, Hpd. reflexivity. }
  assert (E2 : fst (run w [EvDestroy])
               = mkWorld (fst (destroy (ctl w))) None (fresh w)).
  { rewrite run_fst_cons, step_destroy. cbn [run fst].
    rewrite D4, Hpd. reflexivity. }
  rewrite E1, E2. cbn [ctl].
  split; [apply frames_ignored; reflexivity|].
  split; [exact P1|]. split; [exact P2|]. split; [exact P3|].
  split; [apply frames_ignored; reflexivity|].
  split; [exact D1|exact D3].
Qed.

Lemma last_nonempty_default {A} (rest : list A) : forall y d d',
  List.last (y :: rest) d = List.last (y :: rest) d'.
Proof.
  induction rest as [|z rest IH]; intros y d d'; [reflexivity|].
  change (List.last (z :: rest) d = List.last (z :: rest) d'). apply IH.
Qed.

Lemma last_cons_default {A} (x d : A) rest :
  List.last (x :: rest) d = List.last rest x.
Proof.
  destruct rest as [|y rest]; [reflexivity|].
  change (List.last (y :: rest) d = List.last (y :: rest) x).
  apply last_nonempty_default.
Qed.

Lemma session_frames_last tss : forall t0,
  session_ok (Some t0) (map EvFrame tss) -> t0 <= List.last tss t0.
Proof.
  induction tss as [|t1 rest IH]; intros t0 H.
  - apply Qle_refl.
  - destruct H as [H01 H]. rewrite last_cons_default.
    specialize (IH t1 H). lra.
Qed.

Lemma has_segments_same_script c c' :
  same_script c c' -> has_segments c -> has_segments c'.
Proof.
  intros [E _] H. unfold has_segments. rewrite E. exact H.
Qed.

Lemma delta_nonneg (a b s : Q) :
  a <= b -> 0 <= s -> 0 <= (b - a) / 1000 * s.
Proof.
  intros H Hs. apply Qmult_le_0_compat; [|exact Hs].
  apply Qle_shift_div_l; [reflexivity|]. lra.
Qed.



(** ** Timeline: the current time stays on the timeline *)

Lemma seek_in_range t c :
  0 <= totalDuration c ->
  0 <= currentTime (fst (seek t c))
  /\ currentTime (fst (seek t c)) <= totalDuration c.
Proof.
  intro H. cbn.
  destruct (Qmin_cases t (totalDuration c)) as [[A B]|[A B]];
    destruct (Qmax_0_cases (Qmin t (totalDuration c))) as [[C D]|[C D]];
    split; lra.
Qed.

Lemma step_pause_ctl w : ctl (fst (step w EvPause)) = fst (pause (ctl w)).
Proof. rewrite step_pause. reflexivity. Qed.

Lemma step_destroy_ctl w :
  ctl (fst (step w EvDestroy)) = fst (destroy (ctl w)).
Proof. rewrite step_destroy. reflexivity. Qed.

Lemma step_in_range (T : Q) (w : World) (e : Event) :
  0 <= T ->
  totalDuration (ctl w) = T ->
  0 <= currentTime (ctl w) -> currentTime (ctl w) <= T ->
  0 <= speed (ctl w) ->
  event_ok w e ->
  let w' := fst (step w e) in
  totalDuration (ctl w') = T
  /\ 0 <= currentTime (ctl w') /\ currentTime (ctl w') <= T
  /\ 0 <= speed (ctl w').
Proof.
  intros HT Htot Hlo Hhi Hsp Hok.
  destruct w as [c pd fr]. cbn [ctl pending fresh] in *.
  destruct e; cbn [event_ok] in Hok; unfold step; cbn [ctl pending fresh].
  - unfold play. destruct (playing c); cbn [fst ctl];
      [repeat split; assumption|].
    destruct (Qgeb (currentTime c) (totalDuration c)); cbn;
      repeat split; try assumption; lra.
  - change (totalDuration
              (ctl (fst (step (mkWorld c pd fr) EvPause))) = T
            /\ 0 <= currentTime (ctl (fst (step (mkWorld c pd fr) EvPause)))
            /\ currentTime (ctl (fst (step (mkWorld c pd fr) EvPause))) <= T
            /\ 0 <= speed (ctl (fst (step (mkWorld c pd fr) EvPause)))).
    rewrite step_pause_ctl. cbn [ctl].
    destruct c as [ct0 sp pl raf lt ls secs trs tot sst tst].
    unfold pause. destruct raf; cbn in *; repeat split; assumption.
  - rewrite <- Htot in *.
    destruct (seek_in_range time c HT) as [A B].
    unfold seek in *. cbn [fst ctl] in *. cbn. repeat split; assumption.
  - unfold seekToSection.
    destruct ((0 <=? sectionIndex0)%Z && _)%bool;
      [|cbn; repeat split; assumption].
    rewrite <- Htot in *.
    destruct (seek_in_range
                (nth (Z.to_nat sectionIndex0) (sectionStartTimes c) 0) c HT)
      as [A B].
    unfold seek in *. cbn [fst ctl] in *. cbn. repeat split; assumption.
  - cbn. repeat split; assumption.
  - cbn [fst ctl]. destruct (subscribe_frame listener c) as [A [B [_ D]]].
    rewrite A, B, D. repeat split; assumption.
  - cbn. repeat split; assumption.
  - change (totalDuration
              (ctl (fst (step (mkWorld c pd fr) EvDestroy))) = T
            /\ 0 <= currentTime
                      (ctl (fst (step (mkWorld c pd fr) EvDestroy)))
            /\ currentTime (ctl (fst (step (mkWorld c pd fr) EvDestroy)))
               <= T
            /\ 0 <= speed (ctl (fst (step (mkWorld c pd fr) EvDestroy)))).
    rewrite step_destroy_ctl. cbn [ctl].
    destruct c as [ct0 sp pl raf lt ls secs trs tot sst tst].
    unfold destroy, pause. destruct raf; cbn in *; repeat split; assumption.
  - destruct pd as [h0|]; [|cbn; repeat split; assumption].
    destruct (tick fr timestamp c) as [[c' r] out] eqn:Htick.
    destruct (tick_cases _ _ _ _ _ _ Htick) as [T1 [_ [T3 [_ [_ T6]]]]].
    assert (Htot' : totalDuration c' = totalDuration c) by apply T1.
    assert (Hge : currentTime c <= tickTarget c timestamp).
    { unfold tickTarget. cbn [ctl] in Hok.
      pose proof (delta_nonneg _ _ _ Hok Hsp). lra. }
    assert (G : totalDuration c' = T
                /\ 0 <= currentTime c' /\ currentTime c' <= T
                /\ 0 <= speed c').
    { rewrite Htot', T3. subst T.
      destruct T6 as [[_ [E2 _]]|[E1 [E2 _]]]; rewrite E2;
        repeat split; try assumption; try reflexivity; lra. }
    destruct r; cbn [fst ctl]; exact G.
Qed.

Lemma run_in_range (T : Q) evs : forall w,
  0 <= T ->
  totalDuration (ctl w) = T ->
  0 <= currentTime (ctl w) -> currentTime (ctl w) <= T ->
  0 <= speed (ctl w) ->
  behaved w evs ->
  let w' := fst (run w evs) in
  totalDuration (ctl w') = T
  /\ 0 <= currentTime (ctl w') /\ currentTime (ctl w') <= T
  /\ 0 <= speed (ctl w').
Proof.
  induction evs as [|e rest IH]; intros w HT Htot Hlo Hhi Hsp Hb.
  - cbn. repeat split; assumption.
  - destruct Hb as [Hok Hb]. cbn zeta. rewrite run_fst_cons.
    destruct (step_in_range T w e HT Htot Hlo Hhi Hsp Hok)
      as [A [B [C D]]].
    apply IH; assumption.
Qed.

(** X10.  As long as the host's timestamps do not go back and no negative
    speed is set, the current time of a controller stays within
    [[0, totalDuration]], whatever is called on it, and its speed stays
    non-negative. *)
Theorem currentTime_in_range (p : PresentationScript) (evs : list Event) :
  0 <= ps_totalDuration p ->
  behaved (newWorld p) evs ->
  let w := fst (run (newWorld p) evs) in
  0 <= getCurrentTime (ctl w)
  /\ getCurrentTime (ctl w) <= getTotalDuration (ctl w)
  /\ getTotalDuration (ctl w) = ps_totalDuration p
  /\ 0 <= getSpeed (ctl w).
Proof.
  intros HT Hb.
  destruct (run_in_range (ps_totalDuration p) evs (newWorld p) HT eq_refl)
    as [A [B [C D]]]; try assumption; try (cbn; lra).
  unfold getCurrentTime, getTotalDuration, getSpeed. cbn zeta.
  rewrite A. repeat split; assumption.
Qed.

Lemma currentTime_in_range_witness :
  0 <= getCurrentTime
         (ctl (fst (run (newWorld scenarioBC)
                      [EvPlay; EvFrame 0; EvSetSpeed 2; EvFrame 1000;
                       EvSeek 100; EvFrame 900; EvFrame 2000])))
  /\ getCurrentTime
       (ctl (fst (run (newWorld scenarioBC)
                    [EvPlay; EvFrame 0; EvSetSpeed 2; EvFrame 1000;
                     EvSeek 100; EvFrame 900; EvFrame 2000])))
     <= 16.
Proof.
  destruct (currentTime_in_range scenarioBC
              [EvPlay; EvFrame 0; EvSetSpeed 2; EvFrame 1000;
               EvSeek 100; EvFrame 900; EvFrame 2000])
    as [A [B [C _]]].
  - discriminate.
  - vm_compute. repeat split; discriminate.
  - split; [exact A|]. rewrite C in B. exact B.
Defined.

(** ** Timeline: [seekToSection], listeners, replay *)





Lemma filter_other_than l (ls : list TimelineListener) :
  ~ In l ls -> filter (fun x => negb (Nat.eqb l x)) ls = ls.
Proof.
  induction ls as [|a ls IH]; intro H; [reflexivity|]. simpl.
  destruct (Nat.eqb l a) eqn:E.
  - apply Nat.eqb_eq in E. exfalso. apply H. left. congruence.
  - simpl. rewrite IH; [reflexivity|]. intro Hin. apply H. now right.
Qed.

(** X12.  The listener set behaves as a set: subscribing registers the
    listener, once, whatever was there; unsubscribing removes exactly that
    listener; and the handle returned by [subscribe] undoes the
    subscription of a listener that was not registered before. *)
Theorem subscribe_unsubscribe
    (l l' : TimelineListener) (c : TimelineController) :
  (In l' (listeners (subscribe l c)) <-> In l' (listeners c) \/ l' = l)
  /\ subscribe l (subscribe l c) = subscribe l c
  /\ (In l' (listeners (unsubscribe l c)) <-> In l' (listeners c) /\ l' <> l)
  /\ (~ In l (listeners c) -> unsubscribe l (subscribe l c) = c)
  /\ (NoDup (listeners c) -> NoDup (listeners (subscribe l c))).
Proof.
  destruct c as [ct0 sp pl raf lt ls secs trs tot sst tst].
  unfold subscribe, unsubscribe, set_listeners. cbn [listeners currentTime
    speed playing rafId lastTimestamp sectionScripts transitions
    totalDuration sectionStartTimes transitionStartTimes].
  destruct (existsb (Nat.eqb l) ls) eqn:Ex.
  - assert (Hin : In l ls).
    { apply existsb_exists in Ex. destruct Ex as [x [Hx E]].
      apply Nat.eqb_eq in E. subst x. exact Hx. }
    cbn [listeners]. rewrite Ex.
    split; [|split; [reflexivity|split; [|split]]].
    + split; [intro H; now left|intros [H| ->]; assumption].
    + rewrite filter_In, negb_true_iff, Nat.eqb_neq.
      split; intros [A B]; split; congruence.
    + intro H. contradiction.
    + intro H. exact H.
  - pose proof (existsb_eqb_false _ _ Ex) as Hnin.
    cbn [listeners].
    assert (Ex' : existsb (Nat.eqb l) (ls ++ [l]) = true).
    { rewrite existsb_app. simpl. rewrite Nat.eqb_refl.
      now rewrite orb_true_r. }
    rewrite Ex'.
    split; [|split; [reflexivity|split; [|split]]].
    + rewrite in_app_iff. simpl. split.
      * intros [H|[<-|[]]]; [left; exact H|right; reflexivity].
      * intros [H| ->]; [left; exact H|right; left; reflexivity].
    + rewrite filter_In, negb_true_iff, Nat.eqb_neq.
      split; intros [A B]; split; congruence.
    + intros _. cbn [listeners currentTime speed playing rafId lastTimestamp
        sectionScripts transitions totalDuration sectionStartTimes
        transitionStartTimes].
      f_equal. rewrite filter_app. simpl. rewrite Nat.eqb_refl. simpl.
      rewrite app_nil_r. apply filter_other_than. exact Hnin.
    + intro Hnd. apply NoDup_app; [exact Hnd|repeat constructor; intros []|].
      intros x Hx [<-|[]]. contradiction.
Qed.

(** X13.  [play()] on a controller that stands at or past the end of a
    timeline of positive duration starts over: after [play()] and the
    first frame, whatever its timestamp, the controller is playing at time
    0 and every listener has been handed a state at time 0. *)
Theorem play_restarts (w : World) (timestamp : Q) :
  has_segments (ctl w) ->
  playing (ctl w) = false ->
  pending w = None ->
  0 < totalDuration (ctl w) ->
  totalDuration (ctl w) <= currentTime (ctl w) ->
  let w' := fst (run w [EvPlay; EvFrame timestamp]) in
  let out := snd (run w [EvPlay; EvFrame timestamp]) in
  playing (ctl w') = true
  /\ getCurrentTime (ctl w') == 0
  /\ pending w' <> None
  /\ map fst out = listeners (ctl w)
  /\ Forall (fun d => globalTime (snd d) == 0) out.
Proof.
  intros Hseg Hpl Hpd Hpos Hend w' out. subst w' out.
  rewrite !run_fst_cons, !run_cons. cbn [run fst snd]. rewrite app_nil_r.
  assert (Eplay : step w EvPlay
                  = (mkWorld (fst (play (fresh w) (ctl w)))
                       (Some (fresh w)) (S (fresh w)), Delivered [])).
  { unfold step, play. rewrite Hpl. reflexivity. }
  rewrite Eplay. cbn [fst snd delivered app].
  set (c1 := fst (play (fresh w) (ctl w))).
  assert (Hc1 : currentTime c1 = 0 /\ playing c1 = true
                /\ lastTimestamp c1 = None /\ same_script (ctl w) c1
                /\ listeners c1 = listeners (ctl w)).
  { subst c1. unfold play. rewrite Hpl.
    apply Qgeb_true in Hend. rewrite Hend. cbn. repeat split. }
  destruct Hc1 as [C1 [C2 [C3 [C4 C5]]]].
  unfold step. cbn [pending ctl fresh].
  destruct (tick (S (fresh w)) timestamp c1) as [[c' r] o] eqn:Htick.
  destruct (tick_cases _ _ _ _ _ _ Htick) as [T1 [T2 [_ [_ [T5 T6]]]]].
  assert (Ett : tickTarget c1 timestamp == 0).
  { unfold tickTarget, tickBaseline. rewrite C1, C3. field. }
  assert (Htot : totalDuration c1 = totalDuration (ctl w)) by apply C4.
  rewrite Htot in T6.
  destruct T6 as [[E1 _]|[E1 [E2 [E3 E4]]]]; [rewrite Ett in E1; lra|].
  destruct E4 as [[-> [R [_ [st Hst]]]]|[_ [_ [F|F]]]].
  - cbn [fst snd ctl pending]. unfold getCurrentTime.
    split; [rewrite E3; exact C2|]. split; [rewrite E2; exact Ett|].
    split; [discriminate|].
    rewrite T5. unfold notify. rewrite E2, Hst. cbn [delivered].
    rewrite T2, C5. split.
    + rewrite map_map. cbn [fst]. apply map_id.
    + apply Forall_forall. intros d Hd. apply in_map_iff in Hd.
      destruct Hd as [x [<- _]]. cbn [snd].
      apply getStateAtTime_globalTime in Hst.
      destruct Hst as [[Hbad _]|[_ Hg]].
      * assert (Htot' : totalDuration c' = totalDuration (ctl w))
          by (rewrite <- Htot; apply T1).
        rewrite Htot' in Hbad. lra.
      * rewrite Hg.
        destruct (Qmax_0_cases (tickTarget c1 timestamp)) as [[A B]|[A B]];
          lra.
  - congruence.
  - exfalso.
    destruct (getStateAtTime_some c' (tickTarget c1 timestamp))
      as [st Hst]; [|congruence].
    apply (has_segments_same_script _ _ T1).
    apply (has_segments_same_script _ _ C4 Hseg).
Qed.

Lemma play_restarts_witness :
  Forall (fun d => globalTime (snd d) == 0)
    (snd (run (fst (run playingB2 [EvFrame 0; EvFrame 99000]))
            [EvPlay; EvFrame 120000])).
Proof.
  apply (play_restarts (fst (run playingB2 [EvFrame 0; EvFrame 99000]))
           120000).
  - repeat constructor; discriminate.
  - reflexivity.
  - reflexivity.
  - reflexivity.
  - vm_compute. discriminate.
Defined.

(** ** Keyframe engine: clamping and easing *)

Lemma clamp01_low p : p <= 0 -> Qmax 0 (Qmin 1 p) = 0.
Proof.
  intro H. destruct (Qmin_choice 1 p) as [[A _]|[_ E]]; [lra|].
  rewrite E. destruct (Qmax_0_choice p) as [[_ E0]|[A _]]; [exact E0|lra].
Qed.

Lemma clamp01_high p : 1 <= p -> Qmax 0 (Qmin 1 p) = 1.
Proof.
  intro H. destruct (Qmin_choice 1 p) as [[_ E]|[A _]]; [|lra].
  rewrite E. reflexivity.
Qed.

Lemma clamp01_mid p : 0 < p -> p < 1 -> Qmax 0 (Qmin 1 p) = p.
Proof.
  intros H0 H1. destruct (Qmin_choice 1 p) as [[A _]|[_ E]]; [lra|].
  rewrite E. destruct (Qmax_0_choice p) as [[A _]|[_ E0]]; [lra|exact E0].
Qed.

Lemma clamp01_range p :
  0 <= Qmax 0 (Qmin 1 p) /\ Qmax 0 (Qmin 1 p) <= 1.
Proof.
  destruct (Qlt_le_dec 0 p) as [A|A].
  - destruct (Qlt_le_dec p 1) as [B|B].
    + rewrite (clamp01_mid p A B). lra.
    + rewrite (clamp01_high p B). lra.
  - rewrite (clamp01_low p A). lra.
Qed.

Lemma clamp01_idem p :
  Qmax 0 (Qmin 1 (Qmax 0 (Qmin 1 p))) = Qmax 0 (Qmin 1 p).
Proof.
  destruct (Qlt_le_dec 0 p) as [A|A].
  - destruct (Qlt_le_dec p 1) as [B|B].
    + rewrite (clamp01_mid p A B). apply clamp01_mid; assumption.
    + rewrite (clamp01_high p B). reflexivity.
  - rewrite (clamp01_low p A). reflexivity.
Qed.

Lemma lerp_between a b t : 0 <= t -> t <= 1 -> between a b (lerp a b t).
Proof.
  intros H0 H1. unfold between, lerp.
  destruct (Qlt_le_dec a b) as [Hab|Hab].
  - assert (P0 : 0 <= (b - a) * t)
      by (apply Qmult_le_0_compat; lra).
    assert (P1 : 0 <= (b - a) * (1 - t))
      by (apply Qmult_le_0_compat; lra).
    assert (E : (b - a) * (1 - t) == (b - a) - (b - a) * t) by ring.
    destruct (Qmin_cases a b) as [[Om Em]|[Om Em]];
      destruct (Q.max_spec a b) as [[Ox Ex]|[Ox Ex]];
      rewrite Em, Ex; split; lra.
  - assert (P0 : 0 <= (a - b) * t)
      by (apply Qmult_le_0_compat; lra).
    assert (P1 : 0 <= (a - b) * (1 - t))
      by (apply Qmult_le_0_compat; lra).
    assert (E : (a - b) * (1 - t) == (a - b) - (a - b) * t) by ring.
    assert (E' : (b - a) * t == - ((a - b) * t)) by ring.
    destruct (Qmin_cases a b) as [[Om Em]|[Om Em]];
      destruct (Q.max_spec a b) as [[Ox Ex]|[Ox Ex]];
      rewrite Em, Ex; split; lra.
Qed.

Lemma lerp_same a t : lerp a a t == a.
Proof. unfold lerp. ring. Qed.

Lemma lerp_at_0 a b t : t == 0 -> lerp a b t == a.
Proof. intro H. unfold lerp. rewrite H. ring. Qed.

(** An easing name that nothing inherits is eased by the table's curve,
    or not at all. *)
Lemma easeProgress_plain parseEase parseMember p easing :
  isPrototypeKey easing = false ->
  exists gsapName,
    easeProgress parseEase parseMember p easing
    = Some match parseEase gsapName with
           | Some curve => curve (Qmax 0 (Qmin 1 p))
           | None => Qmax 0 (Qmin 1 p)
           end.
Proof.
  intro H. destruct (resolveAlias_plain easing H) as [g R].
  exists g. apply easeProgress_name. exact R.
Qed.

Lemma easeProgress_unit parseEase parseMember p easing :
  no_overshoot parseEase ->
  isPrototypeKey easing = false ->
  exists eased,
    easeProgress parseEase parseMember p easing = Some eased
    /\ 0 <= eased /\ eased <= 1.
Proof.
  intros Hno Hp.
  destruct (easeProgress_plain parseEase parseMember p easing Hp) as [g E].
  eexists. split; [exact E|].
  destruct (clamp01_range p) as [A B].
  destruct (parseEase g) as [curve|] eqn:Eg.
  - exact (Hno _ curve _ Eg A B).
  - split; assumption.
Qed.

Lemma easeProgress_at_0 parseEase parseMember p easing :
  exact_at_0 parseEase ->
  isPrototypeKey easing = false ->
  p <= 0 ->
  exists eased,
    easeProgress parseEase parseMember p easing = Some eased
    /\ eased == 0.
Proof.
  intros Hex Hp H0.
  destruct (easeProgress_plain parseEase parseMember p easing Hp) as [g E].
  rewrite (clamp01_low p H0) in E.
  eexists. split; [exact E|].
  destruct (parseEase g) as [curve|] eqn:Eg.
  - exact (Hex _ curve Eg).
  - reflexivity.
Qed.

(** The local progress of a pair at the time of its first keyframe. *)
Lemma local_at_from (tf tt p : Q) :
  p == tf ->
  (if Qgtb (tt - tf) 0 then (p - tf) / (tt - tf) else 0) <= 0.
Proof.
  intro H. destruct (Qgtb (tt - tf) 0) eqn:E; [|lra].
  apply Qgtb_true in E.
  assert (Z : (p - tf) / (tt - tf) == 0).
  { rewrite H. field. lra. }
  rewrite Z. lra.
Qed.

(** ** Keyframe engine: the bracketing pair *)

Lemma findFromIdx_findBracket kfs : forall i p,
  findFromIdx kfs i p = findBracket kf_time kfs i p.
Proof.
  induction kfs as [|a rest IH]; intros i p; [reflexivity|].
  destruct rest as [|b rest']; [reflexivity|].
  change (findFromIdx (a :: b :: rest') i p)
    with (if Qgeb p (kf_time a) && Qltb p (kf_time b) then i
          else findFromIdx (b :: rest') (S i) p).
  change (findBracket kf_time (a :: b :: rest') i p)
    with (if Qgeb p (kf_time a) && Qltb p (kf_time b) then i
          else findBracket kf_time (b :: rest') (S i) p).
  rewrite IH. reflexivity.
Qed.

(** Between the first and the last time, the search finds two consecutive
    keyframes whose times bracket the progress; no order of the keyframes
    is needed for that. *)
Lemma findBracket_spec {A} (time : A -> Q) (kfs : list A) :
  forall a rest i p,
  kfs = a :: rest ->
  time a <= p ->
  p < time (List.last kfs a) ->
  exists k from to,
    findBracket time kfs i p = (i + k)%nat
    /\ nth_error kfs k = Some from
    /\ nth_error kfs (k + 1) = Some to
    /\ time from <= p /\ p < time to.
Proof.
  induction kfs as [|a0 rest0 IH]; intros a rest i p E Hlo Hhi;
    [discriminate|].
  injection E as -> ->.
  destruct rest as [|b rest'].
  - simpl in Hhi. lra.
  - change (findBracket time (a :: b :: rest') i p)
      with (if Qgeb p (time a) && Qltb p (time b) then i
            else findBracket time (b :: rest') (S i) p).
    destruct (Qlt_le_dec p (time b)) as [Hin|Hout].
    + exists 0%nat, a, b.
      assert (E1 : Qgeb p (time a) = true) by (apply Qgeb_true; exact Hlo).
      assert (E2 : Qltb p (time b) = true) by (apply Qltb_true; exact Hin).
      rewrite E1, E2, Nat.add_0_r. repeat split; assumption.
    + assert (E2 : Qltb p (time b) = false)
        by (apply Qltb_false; exact Hout).
      rewrite E2, andb_false_r.
      assert (Hhi' : p < time (List.last (b :: rest') b))
        by (rewrite (last_nonempty_default rest' b b a); exact Hhi).
      destruct (IH b rest' (S i) p eq_refl Hout Hhi')
        as [k [from [to [A1 [A2 [A3 [A4 A5]]]]]]].
      exists (S k), from, to. rewrite A1.
      replace (S i + k)%nat with (i + S k)%nat by lia.
      repeat split; assumption.
Qed.

(** The channels and the scale of the state a pair gives for an eased
    progress. *)
Lemma pairState_channel gsapInterpolate from to eased f d get :
  In (f, d, get) channels ->
  get (pairState gsapInterpolate from to eased)
  = lerp (nullish (f from) d) (nullish (f to) (nullish (f from) d)) eased.
Proof.
  intro Hin. unfold pairState.
  destruct (normalizeScale (kf_scale from) 1) as [[fsx fsy] fsz].
  destruct (normalizeScale (kf_scale to) 1) as [[tsx tsy] tsz].
  unfold channels in Hin. cbn [In] in Hin.
  repeat (destruct Hin as [Hin|Hin];
          [injection Hin as <- <- <-; reflexivity|]).
  contradiction.
Qed.

Lemma pairState_scale gsapInterpolate from to eased :
  scaleOf (pairState gsapInterpolate from to eased)
  = lerpTuple3 (normalizeScale (kf_scale from) 1)
      (normalizeScale (kf_scale to) 1) eased.
Proof.
  unfold pairState, scaleOf, lerpTuple3.
  destruct (normalizeScale (kf_scale from) 1) as [[fsx fsy] fsz].
  destruct (normalizeScale (kf_scale to) 1) as [[tsx tsy] tsz].
  reflexivity.
Qed.

(** A state that a pair gives is the state of some eased progress. *)
Lemma interpolatePair_eased parseEase parseMember gsapInterpolate
    from to p st :
  interpolatePair parseEase parseMember gsapInterpolate from to p = Some st ->
  exists eased, st = pairState gsapInterpolate from to eased.
Proof.
  unfold interpolatePair.
  destruct (easeProgress parseEase parseMember _ _) as [eased|];
    [|discriminate].
  intro H. injection H as <-. exists eased. reflexivity.
Qed.

(** A pair whose easing is not an inherited name gives a state. *)
Lemma interpolatePair_some parseEase parseMember gsapInterpolate from to p :
  plainEasing (kf_easing from) ->
  exists st,
    interpolatePair parseEase parseMember gsapInterpolate from to p
    = Some st.
Proof.
  intro Hp. unfold interpolatePair.
  match goal with
  | |- context [easeProgress parseEase parseMember ?l ?n] =>
      destruct (easeProgress_plain parseEase parseMember l n Hp) as [g E]
  end.
  rewrite E. eexists. reflexivity.
Qed.

(** X14.  [interpolateKeyframes] never reads past the array.  When the
    clamped progress [p] lies strictly between the first and the last
    keyframe's time, the result is that of the interpolation between two
    consecutive keyframes whose times bracket it,
    [from.time <= p < to.time], whether or not the list is sorted.  A
    state is returned for every list and every progress when no
    keyframe's easing is a name that the alias table inherits from
    [Object.prototype]. *)
Theorem interpolateKeyframes_bracket
    (parseEase : string -> option (Q -> Q))
    (parseMember : string -> option (Q -> option Q))
    (gsapInterpolate : string -> string -> Q -> option string)
    (keyframes : list Keyframe) (progress : Q) :
  (Forall (fun kf => plainEasing (kf_easing kf)) keyframes ->
   exists st,
     interpolateKeyframes parseEase parseMember gsapInterpolate keyframes
       progress = Some st)
  /\ forall first others,
       keyframes = first :: others ->
       let p := Qmax 0 (Qmin 1 progress) in
       kf_time first < p ->
       p < kf_time (List.last keyframes first) ->
       exists i from to,
         nth_error keyframes i = Some from
         /\ nth_error keyframes (i + 1) = Some to
         /\ kf_time from <= p /\ p < kf_time to
         /\ interpolateKeyframes parseEase parseMember gsapInterpolate
              keyframes progress
            = interpolatePair parseEase parseMember gsapInterpolate
                from to p.
Proof.
  assert (Hin : forall first others,
             keyframes = first :: others ->
             let p := Qmax 0 (Qmin 1 progress) in
             kf_time first < p ->
             p < kf_time (List.last keyframes first) ->
             exists i from to,
               nth_error keyframes i = Some from
               /\ nth_error keyframes (i + 1) = Some to
               /\ kf_time from <= p /\ p < kf_time to
               /\ interpolateKeyframes parseEase parseMember gsapInterpolate
                    keyframes progress
                  = interpolatePair parseEase parseMember gsapInterpolate
                      from to p).
  { intros first others E p Hlo Hhi. subst keyframes.
    destruct (findBracket_spec kf_time (first :: others) first others 0 p
                eq_refl ltac:(lra) Hhi)
      as [k [from [to [A1 [A2 [A3 [A4 A5]]]]]]].
    exists k, from, to. repeat split; try assumption.
    unfold interpolateKeyframes. fold p.
    destruct others as [|b rest]; [simpl in Hhi; lra|].
    assert (E1 : Qleb p (kf_time first) = false)
      by (apply Qleb_false; exact Hlo).
    assert (E2 : Qgeb p (kf_time (List.last (first :: b :: rest) first))
                 = false) by (apply Qgeb_false; exact Hhi).
    rewrite E1, E2, findFromIdx_findBracket, A1. cbn [Nat.add].
    rewrite A2, A3. reflexivity. }
  split; [|exact Hin].
  intro Hplain.
  destruct keyframes as [|first others]; [eexists; reflexivity|].
  destruct others as [|b rest]; [eexists; reflexivity|].
  set (p := Qmax 0 (Qmin 1 progress)).
  destruct (Qlt_le_dec (kf_time first) p) as [Hlo|Hlo].
  - destruct (Qlt_le_dec p (kf_time (List.last (first :: b :: rest) first)))
      as [Hhi|Hhi].
    + destruct (Hin first (b :: rest) eq_refl Hlo Hhi)
        as [i [from [to [A1 [_ [_ [_ E]]]]]]].
      rewrite E. apply interpolatePair_some.
      apply nth_error_In in A1.
      rewrite Forall_forall in Hplain. exact (Hplain from A1).
    + unfold interpolateKeyframes. fold p.
      apply Qgeb_true in Hhi. rewrite Hhi.
      destruct (Qleb p (kf_time first)); eexists; reflexivity.
  - unfold interpolateKeyframes. fold p.
    apply Qleb_true in Hlo. rewrite Hlo. eexists. reflexivity.
Qed.

Lemma interpolateKeyframes_bracket_witness :
  exists i from to,
    nth_error [kfX 0 0; kfX (1 # 2) 50; kfX 1 100] i = Some from
    /\ nth_error [kfX 0 0; kfX (1 # 2) 50; kfX 1 100] (i + 1) = Some to
    /\ kf_time from <= Qmax 0 (Qmin 1 (3 # 4))
    /\ Qmax 0 (Qmin 1 (3 # 4)) < kf_time to
    /\ interpolateKeyframes sampleCurves sampleMembers noInterpolate
         [kfX 0 0; kfX (1 # 2) 50; kfX 1 100] (3 # 4)
       = interpolatePair sampleCurves sampleMembers noInterpolate from to
           (Qmax 0 (Qmin 1 (3 # 4))).
Proof.
  apply (proj2 (interpolateKeyframes_bracket sampleCurves sampleMembers
                  noInterpolate
                  [kfX 0 0; kfX (1 # 2) 50; kfX 1 100] (3 # 4))
           (kfX 0 0) [kfX (1 # 2) 50; kfX 1 100] eq_refl);
    vm_compute; reflexivity.
Defined.

(** X15.  [easeProgress] clamps before it eases: a progress at or below 0
    is eased as 0 and a progress at or above 1 as 1, for every easing
    name and every curve table. *)
Theorem easeProgress_clamps
    (parseEase : string -> option (Q -> Q))
    (parseMember : string -> option (Q -> option Q))
    (p : Q) (easing : string) :
  (p <= 0 -> easeProgress parseEase parseMember p easing
             = easeProgress parseEase parseMember 0 easing)
  /\ (1 <= p -> easeProgress parseEase parseMember p easing
                = easeProgress parseEase parseMember 1 easing)
  /\ easeProgress parseEase parseMember (Qmax 0 (Qmin 1 p)) easing
     = easeProgress parseEase parseMember p easing.
Proof.
  unfold easeProgress. split; [|split].
  - intro H. rewrite (clamp01_low p H). reflexivity.
  - intro H. rewrite (clamp01_high p H). reflexivity.
  - rewrite clamp01_idem. reflexivity.
Qed.

Lemma easeProgress_clamps_witness :
  easeProgress sampleCurves sampleMembers (-3) "easeIn"
  = easeProgress sampleCurves sampleMembers 0 "easeIn"
  /\ easeProgress sampleCurves sampleMembers 7 "easeIn"
     = easeProgress sampleCurves sampleMembers 1 "easeIn".
Proof.
  destruct (easeProgress_clamps sampleCurves sampleMembers (-3) "easeIn")
    as [L _].
  destruct (easeProgress_clamps sampleCurves sampleMembers 7 "easeIn")
    as [_ [H _]].
  split; [apply L|apply H]; discriminate.
Defined.

(** ** Keyframe engine: what a pair of keyframes gives *)

(** X16.  Between two keyframes, a channel (x, y, z, the three rotations,
    opacity) that the later keyframe leaves out keeps the earlier
    keyframe's value, or the channel's default when that one leaves it out
    too, over the whole segment and whatever the easing does: in every
    state the pair gives, and it gives one whenever the easing of the
    earlier keyframe is not a name inherited from [Object.prototype]. *)
Theorem interpolatePair_holds
    (parseEase : string -> option (Q -> Q))
    (parseMember : string -> option (Q -> option Q))
    (gsapInterpolate : string -> string -> Q -> option string)
    (from to : Keyframe) (p : Q) f d get :
  In (f, d, get) channels ->
  f to = None ->
  (plainEasing (kf_easing from) ->
   exists st,
     interpolatePair parseEase parseMember gsapInterpolate from to p
     = Some st)
  /\ forall st,
       interpolatePair parseEase parseMember gsapInterpolate from to p
       = Some st ->
       get st == nullish (f from) d.
Proof.
  intros Hin Hto. split; [apply interpolatePair_some|].
  intros st Hst.
  destruct (interpolatePair_eased _ _ _ _ _ _ _ Hst) as [eased ->].
  rewrite (pairState_channel _ _ _ _ _ _ _ Hin), Hto. cbn [nullish].
  apply lerp_same.
Qed.

Lemma interpolatePair_holds_witness :
  exists st,
    interpolatePair sampleCurves sampleMembers noInterpolate
      (kfX 0 0) (kfX 1 100) (1 # 3) = Some st
    /\ is_opacity st == nullish (kf_opacity (kfX 0 0)) 1.
Proof.
  destruct (interpolatePair_holds sampleCurves sampleMembers noInterpolate
              (kfX 0 0) (kfX 1 100) (1 # 3) kf_opacity 1 is_opacity)
    as [H1 H2].
  - unfold channels. cbn [In]. do 6 right. left. reflexivity.
  - reflexivity.
  - destruct (H1 eq_refl) as [st Hst].
    exists st. split; [exact Hst|exact (H2 st Hst)].
Defined.

(** With curves that stay in [[0, 1]], a pair never overshoots. *)
Lemma interpolatePair_between
    (parseEase : string -> option (Q -> Q))
    (parseMember : string -> option (Q -> option Q))
    (gsapInterpolate : string -> string -> Q -> option string)
    (from to : Keyframe) (p : Q) :
  no_overshoot parseEase ->
  plainEasing (kf_easing from) ->
  exists st,
    interpolatePair parseEase parseMember gsapInterpolate from to p = Some st
    /\ (forall f d get,
          In (f, d, get) channels ->
          between (nullish (f from) d) (nullish (f to) (nullish (f from) d))
            (get st))
    /\ Vec3_between (normalizeScale (kf_scale from) 1)
         (normalizeScale (kf_scale to) 1) (scaleOf st).
Proof.
  intros Hno Hp. unfold interpolatePair.
  match goal with
  | |- context [easeProgress parseEase parseMember ?l ?n] =>
      destruct (easeProgress_unit parseEase parseMember l n Hno Hp)
        as [eased [E [He0 He1]]]
  end.
  rewrite E. eexists. split; [reflexivity|]. split.
  - intros f d get Hin. rewrite (pairState_channel _ _ _ _ _ _ _ Hin).
    apply lerp_between; assumption.
  - rewrite pairState_scale. unfold lerpTuple3, Vec3_between.
    destruct (normalizeScale (kf_scale from) 1) as [[fsx fsy] fsz].
    destruct (normalizeScale (kf_scale to) 1) as [[tsx tsy] tsz].
    repeat split; apply lerp_between; assumption.
Qed.

Lemma sampleCurves_no_overshoot : no_overshoot sampleCurves.
Proof.
  intros name curve q E H0 H1. unfold sampleCurves in E.
  destruct (String.eqb name "none"); [injection E as <-; lra|].
  destruct (String.eqb name "power1.in").
  { injection E as <-.
    assert (0 <= q * q) by (apply Qmult_le_0_compat; lra).
    assert (0 <= q * (1 - q)) by (apply Qmult_le_0_compat; lra).
    assert (q * (1 - q) == q - q * q) by ring. lra. }
  destruct (String.eqb name "power1.out"); [|discriminate].
  injection E as <-.
  assert (0 <= (1 - q) * (1 - q)) by (apply Qmult_le_0_compat; lra).
  assert (0 <= (1 - q) * q) by (apply Qmult_le_0_compat; lra).
  assert ((1 - q) * q == (1 - q) - (1 - q) * (1 - q)) by ring. lra.
Qed.

(** With curves that start at 0, a pair starts at its first keyframe. *)
(** With curves that start at 0, a pair starts at its first keyframe. *)
Lemma interpolatePair_start
    (parseEase : string -> option (Q -> Q))
    (parseMember : string -> option (Q -> option Q))
    (gsapInterpolate : string -> string -> Q -> option string)
    (from to : Keyframe) (p : Q) :
  exact_at_0 parseEase ->
  plainEasing (kf_easing from) ->
  p == kf_time from ->
  exists st,
    interpolatePair parseEase parseMember gsapInterpolate from to p = Some st
    /\ (forall f d get, In (f, d, get) channels ->
          get st == nullish (f from) d)
    /\ Vec3_eq (scaleOf st) (normalizeScale (kf_scale from) 1).
Proof.
  intros Hex Hpl Hp. unfold interpolatePair.
  match goal with
  | |- context [easeProgress parseEase parseMember ?l ?n] =>
      destruct (easeProgress_at_0 parseEase parseMember l n Hex Hpl
                  (local_at_from _ _ _ Hp))
        as [eased [E He]]
  end.
  rewrite E. eexists. split; [reflexivity|]. split.
  - intros f d get Hin. rewrite (pairState_channel _ _ _ _ _ _ _ Hin).
    apply lerp_at_0. exact He.
  - rewrite pairState_scale. unfold lerpTuple3, Vec3_eq.
    destruct (normalizeScale (kf_scale from) 1) as [[fsx fsy] fsz].
    destruct (normalizeScale (kf_scale to) 1) as [[tsx tsy] tsz].
    repeat split; apply lerp_at_0; exact He.
Qed.

Lemma sampleCurves_exact_at_0 : exact_at_0 sampleCurves.
Proof.
  intros name curve E. unfold sampleCurves in E.
  destruct (String.eqb name "none"); [injection E as <-; reflexivity|].
  destruct (String.eqb name "power1.in"); [injection E as <-; reflexivity|].
  destruct (String.eqb name "power1.out"); [|discriminate].
  injection E as <-. reflexivity.
Qed.

(** ** Keyframe engine: whole tracks *)

(** The three ways a non-empty track is evaluated. *)
Lemma interpolateKeyframes_cases
    (parseEase : string -> option (Q -> Q))
    (parseMember : string -> option (Q -> option Q))
    (gsapInterpolate : string -> string -> Q -> option string)
    (first : Keyframe) (others : list Keyframe) (progress : Q) :
  let kfs := first :: others in
  let p := Qmax 0 (Qmin 1 progress) in
  let r :=
    interpolateKeyframes parseEase parseMember gsapInterpolate kfs progress in
  ((others = [] \/ p <= kf_time first) /\ r = Some (keyframeState first))
  \/ (kf_time first < p /\ kf_time (List.last kfs first) <= p
      /\ r = Some (keyframeState (List.last kfs first)))
  \/ (exists i from to,
        nth_error kfs i = Some from
        /\ nth_error kfs (i + 1) = Some to
        /\ kf_time from <= p /\ p < kf_time to
        /\ r = interpolatePair parseEase parseMember gsapInterpolate from to p).
Proof.
  intros kfs p r. subst r kfs.
  destruct others as [|b rest]; [left; split; [left|]; reflexivity|].
  destruct (Qlt_le_dec (kf_time first) p) as [Hlo|Hlo].
  - destruct (Qlt_le_dec p (kf_time (List.last (first :: b :: rest) first)))
      as [Hhi|Hhi].
    + right. right.
      destruct (findBracket_spec kf_time (first :: b :: rest) first
                  (b :: rest) 0 p eq_refl ltac:(lra) Hhi)
        as [k [from [to [A1 [A2 [A3 [A4 A5]]]]]]].
      exists k, from, to. repeat split; try assumption.
      unfold interpolateKeyframes. fold p.
      assert (E1 : Qleb p (kf_time first) = false)
        by (apply Qleb_false; exact Hlo).
      assert (E2 : Qgeb p (kf_time (List.last (first :: b :: rest) first))
                   = false) by (apply Qgeb_false; exact Hhi).
      rewrite E1, E2, findFromIdx_findBracket, A1. cbn [Nat.add].
      rewrite A2, A3. reflexivity.
    + right. left. split; [exact Hlo|]. split; [exact Hhi|].
      unfold interpolateKeyframes. fold p.
      assert (E1 : Qleb p (kf_time first) = false)
        by (apply Qleb_false; exact Hlo).
      apply Qgeb_true in Hhi. rewrite E1, Hhi. reflexivity.
  - left. split; [right; exact Hlo|].
    unfold interpolateKeyframes. fold p.
    apply Qleb_true in Hlo. rewrite Hlo. reflexivity.
Qed.

Lemma interpolateKeyframes_some
    (parseEase : string -> option (Q -> Q))
    (parseMember : string -> option (Q -> option Q))
    (gsapInterpolate : string -> string -> Q -> option string)
    (keyframes : list Keyframe) (progress : Q) :
  Forall (fun kf => plainEasing (kf_easing kf)) keyframes ->
  exists st,
    interpolateKeyframes parseEase parseMember gsapInterpolate keyframes
      progress = Some st.
Proof.
  intro Hplain.
  destruct keyframes as [|first others]; [eexists; reflexivity|].
  destruct (interpolateKeyframes_cases parseEase parseMember gsapInterpolate
              first others progress)
    as [[_ E]|[[_ [_ E]]|[i [from [to [A1 [_ [_ [_ E]]]]]]]]];
    cbv zeta in E; rewrite E; try (eexists; reflexivity).
  apply interpolatePair_some. apply nth_error_In in A1.
  rewrite Forall_forall in Hplain. exact (Hplain from A1).
Qed.

Lemma keyframeState_channel kf f d get :
  In (f, d, get) channels -> get (keyframeState kf) = nullish (f kf) d.
Proof.
  intro Hin. unfold keyframeState.
  destruct (normalizeScale (kf_scale kf) 1) as [[sx sy] sz].
  unfold channels in Hin. cbn [In] in Hin.
  repeat (destruct Hin as [Hin|Hin];
          [injection Hin as <- <- <-; reflexivity|]).
  contradiction.
Qed.

Lemma last_In {A} (l : list A) (x d : A) : In (List.last (x :: l) d) (x :: l).
Proof.
  revert x. induction l as [|y l IH]; intro x; [left; reflexivity|].
  right. change (In (List.last (y :: l) d) (y :: l)). apply IH.
Qed.

Lemma last_nth_error {A} (l : list A) (x d : A) :
  nth_error (x :: l) (List.length l) = Some (List.last (x :: l) d).
Proof.
  revert x. induction l as [|y l IH]; intro x; [reflexivity|].
  change (nth_error (y :: l) (List.length l)
          = Some (List.last (y :: l) d)). apply IH.
Qed.

Lemma increasing_nth_lt kfs : forall i j a b,
  increasing_by_time kfs ->
  nth_error kfs i = Some a -> nth_error kfs j = Some b ->
  (i < j)%nat -> kf_time a < kf_time b.
Proof.
  induction kfs as [|x rest IH]; intros i j a b Hinc Ha Hb Hij.
  - destruct i; discriminate.
  - destruct j as [|j]; [lia|].
    destruct rest as [|y rest']; [destruct j; discriminate|].
    destruct Hinc as [Hxy Hrest].
    destruct i as [|i].
    + injection Ha as <-. cbn [nth_error] in Hb.
      destruct j as [|j].
      * injection Hb as <-. exact Hxy.
      * assert (kf_time y < kf_time b).
        { apply (IH 0%nat (S j) y b Hrest eq_refl Hb). lia. }
        lra.
    + cbn [nth_error] in Ha, Hb.
      apply (IH i j a b Hrest Ha Hb). lia.
Qed.

(** X17.  When no curve of the table leaves [[0, 1]] on [[0, 1]] and no
    keyframe's easing is a name inherited from [Object.prototype], a
    track never overshoots its keyframes: if the default of a channel (x,
    y, z, the rotations, opacity) and every value the keyframes give to
    it lie in [[lo, hi]], so does that channel of the interpolated state,
    at every progress. *)
Theorem interpolateKeyframes_range
    (parseEase : string -> option (Q -> Q))
    (parseMember : string -> option (Q -> option Q))
    (gsapInterpolate : string -> string -> Q -> option string)
    (keyframes : list Keyframe) (progress lo hi : Q) f d get :
  no_overshoot parseEase ->
  Forall (fun kf => plainEasing (kf_easing kf)) keyframes ->
  In (f, d, get) channels ->
  lo <= d -> d <= hi ->
  (forall kf v, In kf keyframes -> f kf = Some v -> lo <= v /\ v <= hi) ->
  exists st,
    interpolateKeyframes parseEase parseMember gsapInterpolate keyframes
      progress = Some st
    /\ lo <= get st /\ get st <= hi.
Proof.
  intros Hno Hplain Hin Hlo Hhi Hall.
  assert (Hval : forall kf, In kf keyframes ->
                   lo <= nullish (f kf) d /\ nullish (f kf) d <= hi).
  { intros kf Hkf. destruct (f kf) as [v|] eqn:E; cbn [nullish].
    - exact (Hall kf v Hkf E).
    - split; assumption. }
  destruct keyframes as [|first others].
  - eexists. split; [reflexivity|].
    unfold channels in Hin. cbn [In] in Hin.
    repeat (destruct Hin as [Hin|Hin];
            [injection Hin as <- <- <-; cbn; split; assumption|]).
    contradiction.
  - destruct (interpolateKeyframes_cases parseEase parseMember gsapInterpolate
                first others progress)
      as [[_ E]|[[_ [_ E]]|[i [from [to [A1 [A2 [_ [_ E]]]]]]]]];
      cbv zeta in E; rewrite E.
    + eexists. split; [reflexivity|].
      rewrite (keyframeState_channel _ _ _ _ Hin).
      apply Hval. left. reflexivity.
    + eexists. split; [reflexivity|].
      rewrite (keyframeState_channel _ _ _ _ Hin).
      apply Hval. apply last_In.
    + apply nth_error_In in A1. apply nth_error_In in A2.
      destruct (Hval from A1) as [F0 F1].
      assert (T : lo <= nullish (f to) (nullish (f from) d)
                  /\ nullish (f to) (nullish (f from) d) <= hi).
      { destruct (f to) as [v|] eqn:Et; cbn [nullish].
        - exact (Hall to v A2 Et).
        - split; assumption. }
      destruct T as [T0 T1].
      rewrite Forall_forall in Hplain.
      destruct (interpolatePair_between parseEase parseMember
                  gsapInterpolate from to (Qmax 0 (Qmin 1 progress)) Hno
                  (Hplain from A1)) as [st [Est [Hch _]]].
      exists st. split; [exact Est|].
      destruct (Hch f d get Hin) as [B0 B1].
      destruct (Qmin_cases (nullish (f from) d)
                  (nullish (f to) (nullish (f from) d))) as [[_ Em]|[_ Em]];
        destruct (Q.max_spec (nullish (f from) d)
                    (nullish (f to) (nullish (f from) d)))
          as [[_ Ex]|[_ Ex]];
        rewrite Em in B0; rewrite Ex in B1; split; lra.
Qed.

Lemma interpolateKeyframes_range_witness :
  exists st,
    interpolateKeyframes sampleCurves sampleMembers noInterpolate
      [kfX 0 0; kfX (1 # 2) 50; kfX 1 100] (3 # 4) = Some st
    /\ 0 <= is_x st /\ is_x st <= 100.
Proof.
  apply (interpolateKeyframes_range sampleCurves sampleMembers noInterpolate
           [kfX 0 0; kfX (1 # 2) 50; kfX 1 100] (3 # 4) 0 100
           kf_x 0 is_x sampleCurves_no_overshoot).
  - repeat constructor.
  - unfold channels. cbn [In]. left. reflexivity.
  - discriminate.
  - discriminate.
  - intros kf v Hkf Hv. cbn [In] in Hkf.
    destruct Hkf as [<-|[<-|[<-|[]]]]; injection Hv as <-;
      split; discriminate.
Defined.

(** X18.  When every curve of the table starts at 0 and the keyframe
    times strictly increase, the track passes exactly through each of its
    keyframes whose easing is not a name inherited from
    [Object.prototype]: at such a keyframe's own time every numeric
    channel has that keyframe's value, and the keyframe's default (0, or 1
    for opacity and scale) where it leaves the channel out, not a value
    held from the keyframes before it. *)
Theorem interpolateKeyframes_at_keyframe
    (parseEase : string -> option (Q -> Q))
    (parseMember : string -> option (Q -> option Q))
    (gsapInterpolate : string -> string -> Q -> option string)
    (keyframes : list Keyframe) (progress : Q) (i : nat) (kf : Keyframe) :
  exact_at_0 parseEase ->
  increasing_by_time keyframes ->
  nth_error keyframes i = Some kf ->
  plainEasing (kf_easing kf) ->
  Qmax 0 (Qmin 1 progress) == kf_time kf ->
  exists st,
    interpolateKeyframes parseEase parseMember gsapInterpolate keyframes
      progress = Some st
    /\ (forall f d get, In (f, d, get) channels ->
          get st == nullish (f kf) d)
    /\ Vec3_eq (scaleOf st) (normalizeScale (kf_scale kf) 1).
Proof.
  intros Hex Hinc Hkf Hplain Hp.
  assert (Hstate : forall k, k = kf ->
            (forall f d get, In (f, d, get) channels ->
               get (keyframeState k) == nullish (f kf) d)
            /\ Vec3_eq (scaleOf (keyframeState k))
                 (normalizeScale (kf_scale kf) 1)).
  { intros k ->. split.
    - intros f d get Hin. rewrite (keyframeState_channel _ _ _ _ Hin).
      reflexivity.
    - unfold scaleOf, keyframeState.
      destruct (normalizeScale (kf_scale kf) 1) as [[sx sy] sz].
      cbn. repeat split; reflexivity. }
  destruct keyframes as [|first others]; [destruct i; discriminate|].
  assert (Hi : (i < S (List.length others))%nat).
  { apply (nth_error_Some (first :: others) i). rewrite Hkf. discriminate. }
  destruct (interpolateKeyframes_cases parseEase parseMember gsapInterpolate
              first others progress)
    as [[C E]|[[C1 [C2 E]]|[k [from [to [A1 [A2 [A3 [A4 E]]]]]]]]];
    cbv zeta in E; rewrite E.
  - eexists. split; [reflexivity|]. apply Hstate.
    destruct i as [|i]; [injection Hkf as <-; reflexivity|].
    exfalso. destruct C as [->|C]; [destruct i; discriminate|].
    assert (kf_time first < kf_time kf).
    { apply (increasing_nth_lt (first :: others) 0 (S i) first kf Hinc
               eq_refl Hkf). lia. }
    lra.
  - eexists. split; [reflexivity|]. apply Hstate.
    pose proof (last_nth_error others first first) as Hlast.
    destruct (Nat.eq_dec i (List.length others)) as [->|Hne].
    + rewrite Hlast in Hkf. injection Hkf as <-. reflexivity.
    + exfalso.
      assert (kf_time kf < kf_time (List.last (first :: others) first)).
      { apply (increasing_nth_lt (first :: others) i (List.length others)
                 kf _ Hinc Hkf Hlast). lia. }
      lra.
  - assert (Hfrom : from = kf).
    { destruct (Nat.lt_trichotomy k i) as [Hlt|[->|Hgt]].
      - exfalso.
        destruct (Nat.eq_dec (k + 1) i) as [<-|Hne].
        + rewrite A2 in Hkf. injection Hkf as <-. lra.
        + assert (kf_time to < kf_time kf).
          { apply (increasing_nth_lt (first :: others) (k + 1) i to kf Hinc
                     A2 Hkf). lia. }
          lra.
      - rewrite A1 in Hkf. injection Hkf as <-. reflexivity.
      - exfalso.
        assert (kf_time kf < kf_time from).
        { apply (increasing_nth_lt (first :: others) i k kf from Hinc
                   Hkf A1). lia. }
        lra. }
    subst from.
    exact (interpolatePair_start parseEase parseMember gsapInterpolate kf to
             (Qmax 0 (Qmin 1 progress)) Hex Hplain Hp).
Qed.

Lemma interpolateKeyframes_at_keyframe_witness :
  exists st,
    interpolateKeyframes sampleCurves sampleMembers noInterpolate
      [kfX 0 0; kfX (1 # 2) 50; kfX 1 100] (2 # 4) = Some st
    /\ (forall f d get, In (f, d, get) channels ->
          get st == nullish (f (kfX (1 # 2) 50)) d)
    /\ Vec3_eq (scaleOf st) (normalizeScale (kf_scale (kfX (1 # 2) 50)) 1).
Proof.
  apply (interpolateKeyframes_at_keyframe sampleCurves sampleMembers
           noInterpolate
           [kfX 0 0; kfX (1 # 2) 50; kfX 1 100] (2 # 4) 1 (kfX (1 # 2) 50)
           sampleCurves_exact_at_0).
  - simpl. repeat split; reflexivity.
  - reflexivity.
  - reflexivity.
  - reflexivity.
Defined.

(** ** Keyframe engine: 3D tracks and camera tracks *)

(** X19.  [interpolate3DKeyframes] on a non-empty track never reads past
    the array.  With [p] the clamped progress: at or before the first
    keyframe's time the state is the first keyframe's, at or after the
    last keyframe's time (and after the first's) it is the last
    keyframe's, and strictly in between the result is that of the
    interpolation of two consecutive keyframes with
    [from.time <= p < to.time], a state whenever the easing of the earlier
    one is not a name inherited from [Object.prototype]. *)
Theorem interpolate3DKeyframes_cases
    (parseEase : string -> option (Q -> Q))
    (parseMember : string -> option (Q -> option Q))
    (first : Keyframe3D) (others : list Keyframe3D) (progress : Q) :
  let kfs := first :: others in
  let p := Qmax 0 (Qmin 1 progress) in
  let r := interpolate3DKeyframes parseEase parseMember kfs progress in
  (p <= k3_time first -> r = Some (keyframe3DState first))
  /\ (k3_time first < p -> k3_time (List.last kfs first) <= p ->
      r = Some (keyframe3DState (List.last kfs first)))
  /\ (k3_time first < p -> p < k3_time (List.last kfs first) ->
      exists i from to,
        nth_error kfs i = Some from
        /\ nth_error kfs (i + 1) = Some to
        /\ k3_time from <= p /\ p < k3_time to
        /\ r = interpolate3DPair parseEase parseMember from to p
        /\ (plainEasing (k3_easing from) -> exists st, r = Some st)).
Proof.
  intros kfs p r. subst r kfs. split; [|split].
  - intro Hlo. unfold interpolate3DKeyframes. fold p.
    destruct others as [|b rest]; [reflexivity|].
    apply Qleb_true in Hlo. rewrite Hlo. reflexivity.
  - intros Hlo Hhi. unfold interpolate3DKeyframes. fold p.
    destruct others as [|b rest]; [reflexivity|].
    assert (E1 : Qleb p (k3_time first) = false)
      by (apply Qleb_false; exact Hlo).
    apply Qgeb_true in Hhi. rewrite E1, Hhi. reflexivity.
  - intros Hlo Hhi.
    destruct others as [|b rest]; [simpl in Hhi; lra|].
    destruct (findBracket_spec k3_time (first :: b :: rest) first
                (b :: rest) 0 p eq_refl ltac:(lra) Hhi)
      as [k [from [to [A1 [A2 [A3 [A4 A5]]]]]]].
    assert (Er : interpolate3DKeyframes parseEase parseMember
                   (first :: b :: rest) progress
                 = interpolate3DPair parseEase parseMember from to p).
    { unfold interpolate3DKeyframes. fold p.
      assert (E1 : Qleb p (k3_time first) = false)
        by (apply Qleb_false; exact Hlo).
      assert (E2 : Qgeb p (k3_time (List.last (first :: b :: rest) first))
                   = false) by (apply Qgeb_false; exact Hhi).
      rewrite E1, E2, A1. cbn [Nat.add]. rewrite A2, A3. reflexivity. }
    exists k, from, to.
    split; [exact A2|]. split; [exact A3|]. split; [exact A4|].
    split; [exact A5|]. split; [exact Er|].
    intro Hpl. rewrite Er. unfold interpolate3DPair.
    match goal with
    | |- context [easeProgress parseEase parseMember ?l ?n] =>
        destruct (easeProgress_plain parseEase parseMember l n Hpl)
          as [g E]
    end.
    rewrite E. eexists. reflexivity.
Qed.

Lemma interpolate3DKeyframes_cases_witness :
  interpolate3DKeyframes sampleCurves sampleMembers
    [k3At (1 # 4) (0, 0, 0); k3At (3 # 4) (2, 4, 6)] (1 # 8)
  = Some (keyframe3DState (k3At (1 # 4) (0, 0, 0)))
  /\ interpolate3DKeyframes sampleCurves sampleMembers
       [k3At (1 # 4) (0, 0, 0); k3At (3 # 4) (2, 4, 6)] (7 # 8)
     = Some (keyframe3DState (k3At (3 # 4) (2, 4, 6))).
Proof.
  split.
  - apply (proj1 (interpolate3DKeyframes_cases sampleCurves sampleMembers
                    (k3At (1 # 4) (0, 0, 0)) [k3At (3 # 4) (2, 4, 6)]
                    (1 # 8))).
    vm_compute. discriminate.
  - apply (proj1 (proj2 (interpolate3DKeyframes_cases sampleCurves
                    sampleMembers
                    (k3At (1 # 4) (0, 0, 0)) [k3At (3 # 4) (2, 4, 6)]
                    (7 # 8)))).
    + vm_compute. reflexivity.
    + vm_compute. discriminate.
Defined.

(** X20.  [interpolateCameraTrack] on a non-empty track never reads past
    the array.  With [p] the clamped progress: at or before the first
    keyframe's time the camera is at the first keyframe, at or after the
    last keyframe's time (and after the first's) at the last one, and
    strictly in between the result is that of the interpolation between
    two consecutive keyframes with [from.time <= p < to.time], a state
    whenever the easing of the earlier one is not a name inherited from
    [Object.prototype]. *)
Theorem interpolateCameraTrack_cases
    (parseEase : string -> option (Q -> Q))
    (parseMember : string -> option (Q -> option Q))
    (first : CameraKeyframe) (others : list CameraKeyframe) (progress : Q) :
  let kfs := first :: others in
  let p := Qmax 0 (Qmin 1 progress) in
  let r := interpolateCameraTrack parseEase parseMember kfs progress in
  (p <= ck_time first -> r = Some (cameraState first))
  /\ (ck_time first < p -> ck_time (List.last kfs first) <= p ->
      r = Some (cameraState (List.last kfs first)))
  /\ (ck_time first < p -> p < ck_time (List.last kfs first) ->
      exists i from to,
        nth_error kfs i = Some from
        /\ nth_error kfs (i + 1) = Some to
        /\ ck_time from <= p /\ p < ck_time to
        /\ r = interpolateCameraPair parseEase parseMember from to p
        /\ (plainEasing (ck_easing from) -> exists st, r = Some st)).
Proof.
  intros kfs p r. subst r kfs. split; [|split].
  - intro Hlo. unfold interpolateCameraTrack. fold p.
    destruct others as [|b rest]; [reflexivity|].
    apply Qleb_true in Hlo. rewrite Hlo. reflexivity.
  - intros Hlo Hhi. unfold interpolateCameraTrack. fold p.
    destruct others as [|b rest]; [reflexivity|].
    assert (E1 : Qleb p (ck_time first) = false)
      by (apply Qleb_false; exact Hlo).
    apply Qgeb_true in Hhi. rewrite E1, Hhi. reflexivity.
  - intros Hlo Hhi.
    destruct others as [|b rest]; [simpl in Hhi; lra|].
    destruct (findBracket_spec ck_time (first :: b :: rest) first
                (b :: rest) 0 p eq_refl ltac:(lra) Hhi)
      as [k [from [to [A1 [A2 [A3 [A4 A5]]]]]]].
    assert (Er : interpolateCameraTrack parseEase parseMember
                   (first :: b :: rest) progress
                 = interpolateCameraPair parseEase parseMember from to p).
    { unfold interpolateCameraTrack. fold p.
      assert (E1 : Qleb p (ck_time first) = false)
        by (apply Qleb_false; exact Hlo).
      assert (E2 : Qgeb p (ck_time (List.last (first :: b :: rest) first))
                   = false) by (apply Qgeb_false; exact Hhi).
      rewrite E1, E2, A1. cbn [Nat.add]. rewrite A2, A3. reflexivity. }
    exists k, from, to.
    split; [exact A2|]. split; [exact A3|]. split; [exact A4|].
    split; [exact A5|]. split; [exact Er|].
    intro Hpl. rewrite Er. unfold interpolateCameraPair.
    match goal with
    | |- context [easeProgress parseEase parseMember ?l ?n] =>
        destruct (easeProgress_plain parseEase parseMember l n Hpl)
          as [g E]
    end.
    rewrite E. eexists. reflexivity.
Qed.

Lemma interpolateCameraTrack_cases_witness :
  interpolateCameraTrack sampleCurves sampleMembers
    [ckAt (1 # 4) (0, 0, 6); ckAt (3 # 4) (2, 4, 6)] (1 # 8)
  = Some (cameraState (ckAt (1 # 4) (0, 0, 6)))
  /\ interpolateCameraTrack sampleCurves sampleMembers
       [ckAt (1 # 4) (0, 0, 6); ckAt (3 # 4) (2, 4, 6)] (7 # 8)
     = Some (cameraState (ckAt (3 # 4) (2, 4, 6))).
Proof.
  split.
  - apply (proj1 (interpolateCameraTrack_cases sampleCurves sampleMembers
                    (ckAt (1 # 4) (0, 0, 6)) [ckAt (3 # 4) (2, 4, 6)]
                    (1 # 8))).
    vm_compute. discriminate.
  - apply (proj1 (proj2 (interpolateCameraTrack_cases sampleCurves
                    sampleMembers
                    (ckAt (1 # 4) (0, 0, 6)) [ckAt (3 # 4) (2, 4, 6)]
                    (7 # 8)))).
    + vm_compute. reflexivity.
    + vm_compute. discriminate.
Defined.

(** ** Keyframe engine: legacy animations as tracks *)

Lemma clampedEnterEnd_range index :
  15 # 100 <= clampedEnterEnd index /\ clampedEnterEnd index <= 4 # 10.
Proof.
  unfold clampedEnterEnd.
  assert (H : 0 <= inject_Z (Z.of_nat index)).
  { change 0 with (inject_Z 0). rewrite <- Zle_Qle. lia. }
  assert (H5 : 0 <= inject_Z (Z.of_nat index) * (5 # 100))
    by (apply Qmult_le_0_compat; [exact H|discriminate]).
  destruct (Qmin_cases ((15 # 100)
                        + inject_Z (Z.of_nat index) * (5 # 100)) (4 # 10))
    as [[O E]|[O E]]; rewrite E; split; lra.
Qed.

(** The track of a legacy animation: the enter pair, the hold keyframe and
    the exit keyframe. *)
Lemma keyframesFromLegacyAnimation_shape animation elementProps index :
  let baseX := orZero (xy_x elementProps) in
  let baseY := orZero (xy_y elementProps) in
  exists k0 sc k3,
    keyframesFromLegacyAnimation animation elementProps index
    = [ k0;
        legacyKeyframe (clampedEnterEnd index) baseX baseY 1 sc None;
        legacyKeyframe (75 # 100) baseX baseY 1 None
          (Some "easeInOut"%string);
        k3 ]
    /\ kf_time k0 = 0 /\ kf_opacity k0 = Some 0
    /\ kf_time k3 = 1 /\ kf_opacity k3 = Some 0
    /\ (sc = None \/ sc = Some (ScaleNumber 1))
    /\ plainEasing (kf_easing k0) /\ plainEasing (kf_easing k3).
Proof.
  intros baseX baseY. unfold keyframesFromLegacyAnimation.
  fold baseX baseY.
  destruct (String.eqb (la_enter animation) "slideUp");
    [|destruct (String.eqb (la_enter animation) "slideRight");
      [|destruct (String.eqb (la_enter animation) "scale")]];
    (destruct (String.eqb (orString (la_exit animation) "fadeOut")
                 "slideDown");
     [|destruct (String.eqb (orString (la_exit animation) "fadeOut")
                   "scaleDown");
       [|destruct (String.eqb (orString (la_exit animation) "fadeOut")
                     "slideLeft")]]);
    cbn [app]; eexists _, _, _; (split; [reflexivity|]);
    unfold plainEasing; cbn [legacyKeyframe kf_time kf_opacity kf_easing];
    repeat split; first [reflexivity | left; reflexivity | right; reflexivity].
Qed.

(** X21.  Whatever the enter and exit names, the element's position and
    its index in the step, [keyframesFromLegacyAnimation] gives a track of
    four keyframes at times [0 < enterEnd < 0.75 < 1], strictly
    increasing, where [enterEnd = min(0.15 + 0.05 * index, 0.4)] lies in
    [[0.15, 0.4]]; every keyframe gives x, y and opacity. *)
Theorem keyframesFromLegacyAnimation_track
    (animation : LegacyAnimation) (elementProps : ElementXY) (index : nat) :
  let kfs := keyframesFromLegacyAnimation animation elementProps index in
  map kf_time kfs = [0; clampedEnterEnd index; 75 # 100; 1]
  /\ increasing_by_time kfs
  /\ 15 # 100 <= clampedEnterEnd index /\ clampedEnterEnd index <= 4 # 10
  /\ Forall (fun kf => kf_x kf <> None /\ kf_y kf <> None
                       /\ kf_opacity kf <> None) kfs.
Proof.
  intro kfs. subst kfs.
  destruct (clampedEnterEnd_range index) as [R0 R1].
  unfold keyframesFromLegacyAnimation.
  destruct (String.eqb (la_enter animation) "slideUp");
    [|destruct (String.eqb (la_enter animation) "slideRight");
      [|destruct (String.eqb (la_enter animation) "scale")]];
    (destruct (String.eqb (orString (la_exit animation) "fadeOut")
                 "slideDown");
     [|destruct (String.eqb (orString (la_exit animation) "fadeOut")
                   "scaleDown");
       [|destruct (String.eqb (orString (la_exit animation) "fadeOut")
                     "slideLeft")]]);
    cbn [app map legacyKeyframe kf_time increasing_by_time];
    (split; [reflexivity|]);
    (split; [repeat split; lra|]);
    (split; [exact R0|]); (split; [exact R1|]);
    repeat constructor; discriminate.
Qed.

(** X22.  The track of a legacy animation, evaluated by
    [interpolateKeyframes]: the element is invisible (opacity 0) at
    progress 0 and below and at progress 1 and above, and from the end of
    its entrance to progress 0.75 it rests at its own position, fully
    opaque and at scale 1, whatever the enter and exit names and whatever
    the easing curves do. *)
Theorem legacy_track_rests
    (parseEase : string -> option (Q -> Q))
    (parseMember : string -> option (Q -> option Q))
    (gsapInterpolate : string -> string -> Q -> option string)
    (animation : LegacyAnimation) (elementProps : ElementXY) (index : nat)
    (progress : Q) :
  let kfs := keyframesFromLegacyAnimation animation elementProps index in
  exists st,
    interpolateKeyframes parseEase parseMember gsapInterpolate kfs progress
    = Some st
    /\ (progress <= 0 \/ 1 <= progress -> is_opacity st == 0)
    /\ (clampedEnterEnd index <= progress -> progress < 75 # 100 ->
        is_x st == orZero (xy_x elementProps)
        /\ is_y st == orZero (xy_y elementProps)
        /\ is_opacity st == 1
        /\ Vec3_eq (scaleOf st) (1, 1, 1)).
Proof.
  intro kfs. subst kfs.
  destruct (keyframesFromLegacyAnimation_shape animation elementProps index)
    as [k0 [sc [k3 [E [T0 [O0 [T3 [O3 [Hsc [Pl0 Pl3]]]]]]]]]].
  cbv zeta in E. rewrite E. clear E.
  set (baseX := orZero (xy_x elementProps)).
  set (baseY := orZero (xy_y elementProps)).
  set (k1 := legacyKeyframe (clampedEnterEnd index) baseX baseY 1 sc None).
  set (k2 := legacyKeyframe (75 # 100) baseX baseY 1 None
               (Some "easeInOut"%string)).
  destruct (clampedEnterEnd_range index) as [R0 R1].
  assert (Hplain : Forall (fun kf => plainEasing (kf_easing kf))
                     [k0; k1; k2; k3]).
  { repeat constructor; try assumption; reflexivity. }
  destruct (Qlt_le_dec 0 progress) as [P0|P0].
  - destruct (Qlt_le_dec progress 1) as [P1|P1].
    + (* strictly inside: the statement only speaks of the rest phase *)
      destruct (Qlt_le_dec progress (clampedEnterEnd index)) as [Q0|Q0];
        [|destruct (Qlt_le_dec progress (75 # 100)) as [Q1|Q1]].
      * destruct (interpolateKeyframes_some parseEase parseMember
                    gsapInterpolate [k0; k1; k2; k3] progress Hplain)
          as [st Est].
        exists st. split; [exact Est|]. split; [intros [H|H]; lra|].
        intros H _. lra.
      * assert (Epair : interpolateKeyframes parseEase parseMember
                          gsapInterpolate [k0; k1; k2; k3] progress
                        = interpolatePair parseEase parseMember
                            gsapInterpolate k1 k2 progress).
        { unfold interpolateKeyframes.
           rewrite (clamp01_mid progress P0 P1).
           assert (E1 : Qleb progress (kf_time k0) = false)
             by (apply Qleb_false; rewrite T0; exact P0).
           assert (E2 : Qgeb progress
                          (kf_time (List.last [k0; k1; k2; k3] k0)) = false)
             by (apply Qgeb_false; cbn [List.last]; rewrite T3; exact P1).
           rewrite E1, E2.
           assert (F : findFromIdx [k0; k1; k2; k3] 0 progress = 1%nat).
           { cbn [findFromIdx].
             assert (B1 : Qltb progress (kf_time k1) = false)
               by (apply Qltb_false; exact Q0).
             assert (B2 : Qgeb progress (kf_time k1) = true)
               by (apply Qgeb_true; exact Q0).
             assert (B3 : Qltb progress (kf_time k2) = true)
               by (apply Qltb_true; exact Q1).
             rewrite B1, B2, B3, andb_false_r. reflexivity. }
           rewrite F. cbn [Nat.add nth_error]. reflexivity. }
        destruct (interpolatePair_some parseEase parseMember gsapInterpolate
                    k1 k2 progress ltac:(reflexivity)) as [st Hst].
        destruct (interpolatePair_eased _ _ _ _ _ _ _ Hst) as [eased ->].
        eexists. split; [rewrite Epair; exact Hst|].
        split; [intros [H|H]; lra|intros _ _].
        unfold pairState, scaleOf.
        assert (S1 : normalizeScale (kf_scale k1) 1 = (1, 1, 1))
          by (destruct Hsc as [->| ->]; reflexivity).
        rewrite S1.
        cbn [k2 legacyKeyframe kf_scale normalizeScale is_x is_y
             is_opacity is_scaleX is_scaleY is_scaleZ kf_x kf_y
             kf_opacity k1 nullish Vec3_eq].
        repeat split; apply lerp_same.
      * destruct (interpolateKeyframes_some parseEase parseMember
                    gsapInterpolate [k0; k1; k2; k3] progress Hplain)
          as [st Est].
        exists st. split; [exact Est|]. split; [intros [H|H]; lra|].
        intros _ H. lra.
    + exists (keyframeState k3). split; [|split].
      * unfold interpolateKeyframes. rewrite (clamp01_high progress P1).
        assert (E1 : Qleb 1 (kf_time k0) = false)
          by (rewrite T0; reflexivity).
        assert (E2 : Qgeb 1 (kf_time (List.last [k0; k1; k2; k3] k0))
                     = true)
          by (cbn [List.last]; rewrite T3; reflexivity).
        rewrite E1, E2. reflexivity.
      * intros _. unfold keyframeState.
        destruct (normalizeScale (kf_scale k3) 1) as [[sx sy] sz].
        cbn [is_opacity]. rewrite O3. reflexivity.
      * intros _ H. lra.
  - exists (keyframeState k0). split; [|split].
    + unfold interpolateKeyframes. rewrite (clamp01_low progress P0).
      assert (E1 : Qleb 0 (kf_time k0) = true)
        by (rewrite T0; reflexivity).
      rewrite E1. reflexivity.
    + intros _. unfold keyframeState.
      destruct (normalizeScale (kf_scale k0) 1) as [[sx sy] sz].
      cbn [is_opacity]. rewrite O0. reflexivity.
    + intros H _. lra.
Qed.

Lemma legacy_track_rests_witness :
  exists st,
    interpolateKeyframes sampleCurves sampleMembers noInterpolate
      (keyframesFromLegacyAnimation (legacyOf "scale" (Some "slideLeft"%string))
         {| xy_x := Some 120; xy_y := None |} 2) (1 # 2) = Some st
    /\ is_x st == 120 /\ is_y st == 0 /\ is_opacity st == 1
    /\ Vec3_eq (scaleOf st) (1, 1, 1).
Proof.
  destruct (legacy_track_rests sampleCurves sampleMembers noInterpolate
              (legacyOf "scale" (Some "slideLeft"%string))
              {| xy_x := Some 120; xy_y := None |} 2 (1 # 2))
    as [st [E [_ H]]].
  exists st. split; [exact E|].
  apply H; vm_compute; [discriminate|reflexivity].
Defined.


(** ** Script repair: texts in normal form *)

Lemma toUpperChar_facts c :
  isLower (toUpperChar c) = false
  /\ (isSpace c = false -> isSpace (toUpperChar c) = false)
  /\ (upperCaseKeeps c = true -> toUpperChar c = c)
  /\ toUpperChar (toUpperChar c) = toUpperChar c.
Proof.
  destruct c as [[] [] [] [] [] [] [] []]; vm_compute;
    repeat split; intros; congruence.
Qed.

Lemma collapseFrom_tidy s : forall b, tidy b (collapseFrom b s) = true.
Proof.
  induction s as [|c r IH]; intro b; [reflexivity|].
  cbn [collapseFrom]. destruct (isSpace c) eqn:E.
  - destruct b; [apply IH|].
    cbn [tidy]. change (isSpace " "%char) with true. cbn [negb andb].
    rewrite Ascii.eqb_refl. apply IH.
  - cbn [tidy]. rewrite E. apply IH.
Qed.

Lemma tidy_collapseFrom s : forall b,
  tidy b s = true -> collapseFrom b s = s.
Proof.
  induction s as [|c r IH]; intros b H; [reflexivity|].
  cbn [tidy] in H. cbn [collapseFrom]. destruct (isSpace c) eqn:E.
  - apply andb_true_iff in H. destruct H as [H Hr].
    apply andb_true_iff in H. destruct H as [Hb Hc].
    apply negb_true_iff in Hb. subst b.
    apply Ascii.eqb_eq in Hc. subst c. now rewrite (IH true Hr).
  - now rewrite (IH false H).
Qed.

Lemma tidy_trimStart s : forall b,
  tidy b s = true -> tidy false (trimStart s) = true.
Proof.
  induction s as [|c r IH]; intros b H; [reflexivity|].
  cbn [tidy] in H. cbn [trimStart]. destruct (isSpace c) eqn:E.
  - apply andb_true_iff in H. destruct H as [_ Hr]. exact (IH true Hr).
  - cbn [tidy]. rewrite E. exact H.
Qed.

Lemma tidy_trimEnd s : forall b,
  tidy b s = true -> tidy b (trimEnd s) = true.
Proof.
  induction s as [|c r IH]; intros b H; [reflexivity|].
  cbn [tidy] in H. cbn [trimEnd]. destruct (isSpace c) eqn:E.
  - apply andb_true_iff in H. destruct H as [H Hr].
    pose proof (IH true Hr) as Ht.
    destruct (trimEnd r) as [|c' t']; [reflexivity|].
    cbn [tidy]. rewrite E. fold (tidy true (String c' t')).
    rewrite H. exact Ht.
  - pose proof (IH false H) as Ht.
    destruct (trimEnd r) as [|c' t'].
    + cbn [tidy]. rewrite E. reflexivity.
    + cbn [tidy]. rewrite E. exact Ht.
Qed.

Lemma trimStart_first s c r :
  trimStart s = String c r -> isSpace c = false.
Proof.
  induction s as [|c0 r0 IH]; [discriminate|].
  cbn [trimStart]. destruct (isSpace c0) eqn:E; [exact IH|].
  intro H. injection H as <- _. exact E.
Qed.

Lemma trimEnd_first s c :
  firstChar (trimEnd s) = Some c -> firstChar s = Some c.
Proof.
  destruct s as [|c0 r0]; [discriminate|].
  cbn [trimEnd]. destruct (trimEnd r0); [destruct (isSpace c0)|];
    cbn [firstChar]; congruence.
Qed.

Lemma trimEnd_last s : forall l,
  lastChar (trimEnd s) = Some l -> isSpace l = false.
Proof.
  induction s as [|c r IH]; intro l; [discriminate|].
  cbn [trimEnd]. destruct (trimEnd r) as [|c' t'].
  - destruct (isSpace c) eqn:E; [discriminate|].
    cbn [lastChar]. intro H. injection H as <-. exact E.
  - change (lastChar (String c (String c' t')))
      with (lastChar (String c' t')). apply IH.
Qed.

Lemma trimEnd_id s :
  (forall l, lastChar s = Some l -> isSpace l = false) -> trimEnd s = s.
Proof.
  induction s as [|c r IH]; intro H; [reflexivity|].
  cbn [trimEnd]. destruct r as [|c' r'].
  - cbn [trimEnd]. now rewrite (H c eq_refl).
  - rewrite IH; [reflexivity|].
    intros l Hl. apply H. exact Hl.
Qed.

Lemma trim_collapse_normalized s : normalized (trim (collapseSpaces s)).
Proof.
  unfold normalized, trim, collapseSpaces. split; [|split].
  - apply tidy_trimEnd, (tidy_trimStart _ false), collapseFrom_tidy.
  - intros c H. apply trimEnd_first in H.
    destruct (trimStart (collapseFrom false s)) as [|c0 r0] eqn:E;
      [discriminate|].
    injection H as <-. exact (trimStart_first _ _ _ E).
  - apply trimEnd_last.
Qed.

Lemma normalized_trim_collapse s :
  normalized s -> trim (collapseSpaces s) = s.
Proof.
  intros [Ht [Hf Hl]]. unfold trim, collapseSpaces.
  rewrite (tidy_collapseFrom s false Ht).
  assert (E : trimStart s = s).
  { destruct s as [|c r]; [reflexivity|].
    cbn [trimStart]. now rewrite (Hf c eq_refl). }
  rewrite E. apply trimEnd_id. exact Hl.
Qed.

Lemma normalized_head c c' rest :
  normalized (String c rest) -> isSpace c' = false ->
  normalized (String c' rest).
Proof.
  intros [Ht [Hf Hl]] Hc'. pose proof (Hf c eq_refl) as Hc.
  split; [|split].
  - cbn [tidy] in *. rewrite Hc in Ht. rewrite Hc'. exact Ht.
  - intros x H. injection H as <-. exact Hc'.
  - intros x H. destruct rest as [|c1 r1].
    + injection H as <-. exact Hc'.
    + apply Hl. exact H.
Qed.

Lemma lastChar_app_dot s : lastChar (s ++ ".")%string = Some "."%char.
Proof.
  induction s as [|c r IH]; [reflexivity|].
  change ((String c r ++ ".")%string) with (String c (r ++ ".")%string).
  destruct (r ++ ".")%string as [|c' r'] eqn:E; [discriminate|].
  exact IH.
Qed.

Lemma tidy_app_dot s : forall b,
  tidy b s = true -> tidy b (s ++ ".")%string = true.
Proof.
  induction s as [|c r IH]; intros b H; [reflexivity|].
  change ((String c r ++ ".")%string) with (String c (r ++ ".")%string).
  cbn [tidy] in *. destruct (isSpace c).
  - apply andb_true_iff in H. destruct H as [H Hr].
    rewrite H. exact (IH true Hr).
  - exact (IH false H).
Qed.

Lemma normalized_app_dot c rest :
  normalized (String c rest) -> normalized (String c rest ++ ".")%string.
Proof.
  intros [Ht [Hf Hl]]. split; [|split].
  - apply tidy_app_dot. exact Ht.
  - intros x H. apply Hf. exact H.
  - intros x H. rewrite lastChar_app_dot in H. injection H as <-.
    reflexivity.
Qed.

(** What [ensureSentence] returns. *)
Lemma ensureSentence_cases text :
  (hasNonSpace text = false /\ ensureSentence text = EmptyString)
  \/ (hasNonSpace text = true /\ sentence (ensureSentence text)
      /\ ensureSentence text <> EmptyString).
Proof.
  unfold ensureSentence.
  pose proof (trim_collapse_normalized text) as Hn.
  pose proof (trim_collapse_hasNonSpace text) as Hh.
  destruct (trim (collapseSpaces text)) as [|c rest] eqn:E.
  - left. split; [symmetry; exact Hh|reflexivity].
  - right.
    assert (Hc : isSpace c = false)
      by (apply (proj1 (proj2 Hn)); reflexivity).
    destruct (toUpperChar_facts c) as [U1 [U2 _]].
    pose proof (normalized_head c (toUpperChar c) rest Hn (U2 Hc)) as Hcap.
    split.
    { rewrite <- Hh. cbn [hasNonSpace]. now rewrite Hc. }
    destruct (lastChar (String (toUpperChar c) rest)) as [l|] eqn:L.
    + destruct (isTerminal l) eqn:T.
      * split; [|discriminate]. split; [exact Hcap|]. split.
        -- intros x H. injection H as <-. exact U1.
        -- unfold endsWithMark. rewrite L. exact T.
      * split; [|discriminate]. split; [|split].
        -- apply normalized_app_dot. exact Hcap.
        -- intros x H. injection H as <-. exact U1.
        -- unfold endsWithMark. rewrite lastChar_app_dot. reflexivity.
    + split; [|discriminate]. split; [|split].
      * apply normalized_app_dot. exact Hcap.
      * intros x H. injection H as <-. exact U1.
      * unfold endsWithMark. rewrite lastChar_app_dot. reflexivity.
Qed.

(** The first code unit of what [ensureSentence] returns is in upper
    case. *)
Lemma ensureSentence_front text c :
  firstChar (ensureSentence text) = Some c -> toUpperChar c = c.
Proof.
  unfold ensureSentence.
  destruct (trim (collapseSpaces text)) as [|c0 rest]; [discriminate|].
  destruct (toUpperChar_facts c0) as [_ [_ [_ U4]]].
  destruct (lastChar (String (toUpperChar c0) rest)) as [l|];
    [destruct (isTerminal l)|];
    cbn [append firstChar]; intro H; injection H as <-; exact U4.
Qed.

Lemma ensureSentence_sentence_id s :
  sentence s ->
  (forall c, firstChar s = Some c -> toUpperChar c = c) ->
  ensureSentence s = s.
Proof.
  intros [Hn [_ He]] Hf. unfold ensureSentence.
  rewrite (normalized_trim_collapse s Hn).
  destruct s as [|c rest]; [reflexivity|].
  rewrite (Hf c eq_refl).
  unfold endsWithMark in He.
  destruct (lastChar (String c rest)) as [l|]; [|discriminate].
  now rewrite He.
Qed.

(** X23.  [ensureSentence] gives the empty string exactly for a text
    without a visible character, that is, a text of white space only, the
    no-break space included.  For any other text it gives a sentence in
    normal form: single blanks between the words, no white space at
    either end, no lower-case letter [a] to [z] in front and [.], [!] or
    [?] at the end. *)
Theorem ensureSentence_shape (text : string) :
  (hasNonSpace text = false -> ensureSentence text = EmptyString)
  /\ (hasNonSpace text = true ->
      sentence (ensureSentence text)
      /\ ensureSentence text <> EmptyString).
Proof.
  destruct (ensureSentence_cases text) as [[H E]|[H E]]; split; intro H';
    try congruence; exact E.
Qed.

Lemma ensureSentence_shape_witness :
  sentence (ensureSentence "  the   encoder reads tokens ")
  /\ ensureSentence "  the   encoder reads tokens " <> EmptyString.
Proof.
  apply (proj2 (ensureSentence_shape "  the   encoder reads tokens ")).
  reflexivity.
Defined.

(** X24.  [ensureSentence] leaves a sentence that is already in that form
    as it is, when upper-casing leaves its first code unit as it is (so
    not for a lower-case letter in front, accented ones included); and
    applying [ensureSentence] twice is the same as applying it once. *)
Theorem ensureSentence_idempotent (text : string) :
  (sentence text ->
   (forall c, firstChar text = Some c -> upperCaseKeeps c = true) ->
   ensureSentence text = text)
  /\ ensureSentence (ensureSentence text) = ensureSentence text.
Proof.
  split.
  - intros Hs Hf. apply ensureSentence_sentence_id; [exact Hs|].
    intros c Hc. destruct (toUpperChar_facts c) as [_ [_ [U3 _]]].
    apply U3, Hf, Hc.
  - destruct (ensureSentence_cases text) as [[_ E]|[_ [E _]]].
    + rewrite E. reflexivity.
    + apply ensureSentence_sentence_id; [exact E|].
      apply ensureSentence_front.
Qed.

Lemma ensureSentence_idempotent_witness :
  ensureSentence "We see it." = "We see it."%string.
Proof.
  apply (proj1 (ensureSentence_idempotent "We see it.")).
  - split; [|split].
    + split; [reflexivity|].
      split; intros c H; injection H as <-; reflexivity.
    + intros c H. injection H as <-. reflexivity.
    + reflexivity.
  - intros c H. injection H as <-. reflexivity.
Defined.

(** ** Script repair: sentences, highlights and emphasis *)

Lemma isTerminal_not_space l : isTerminal l = true -> isSpace l = false.
Proof.
  unfold isTerminal. intro H.
  apply orb_true_iff in H. destruct H as [H|H];
    [apply orb_true_iff in H; destruct H as [H|H]|];
    apply Ascii.eqb_eq in H; subst l; reflexivity.
Qed.

Lemma lastChar_cons c r l :
  lastChar r = Some l -> lastChar (String c r) = Some l.
Proof. destruct r; [discriminate|]. intro H. exact H. Qed.

Lemma lastChar_of_list xs l :
  lastChar (string_of_list_ascii (xs ++ [l])) = Some l.
Proof.
  induction xs as [|x xs IH]; [reflexivity|].
  change (string_of_list_ascii ((x :: xs) ++ [l]))
    with (String x (string_of_list_ascii (xs ++ [l]))).
  apply lastChar_cons. exact IH.
Qed.

Lemma lastChar_collapseFrom s l : forall b,
  lastChar s = Some l -> isSpace l = false ->
  lastChar (collapseFrom b s) = Some l.
Proof.
  induction s as [|c r IH]; intros b H Hl; [discriminate|].
  destruct r as [|c' r'].
  - injection H as <-. cbn [collapseFrom]. rewrite Hl. reflexivity.
  - assert (Hr : lastChar (String c' r') = Some l) by exact H.
    cbn [collapseFrom]. fold (collapseFrom true (String c' r')).
    fold (collapseFrom false (String c' r')).
    destruct (isSpace c); [destruct b|].
    + exact (IH true Hr Hl).
    + apply lastChar_cons. exact (IH true Hr Hl).
    + apply lastChar_cons. exact (IH false Hr Hl).
Qed.

Lemma lastChar_trimStart s l :
  lastChar s = Some l -> isSpace l = false ->
  lastChar (trimStart s) = Some l.
Proof.
  induction s as [|c r IH]; intros H Hl; [discriminate|].
  cbn [trimStart]. destruct (isSpace c) eqn:E; [|exact H].
  destruct r as [|c' r'].
  - injection H as <-. congruence.
  - apply IH; [exact H|exact Hl].
Qed.

Lemma endsWithMark_trim_collapse s :
  endsWithMark s = true -> endsWithMark (trim (collapseSpaces s)) = true.
Proof.
  unfold endsWithMark. destruct (lastChar s) as [l|] eqn:L; [|discriminate].
  intro T. pose proof (isTerminal_not_space l T) as Hl.
  assert (L' : lastChar (trimStart (collapseFrom false s)) = Some l)
    by (apply lastChar_trimStart; [apply lastChar_collapseFrom|];
        assumption).
  unfold trim, collapseSpaces. rewrite trimEnd_id.
  - rewrite L'. exact T.
  - intros x Hx. rewrite L' in Hx. injection Hx as <-. exact Hl.
Qed.

Lemma endsWithMark_nonempty s : endsWithMark s = true -> s <> EmptyString.
Proof. destruct s; [discriminate|discriminate]. Qed.

(** Every piece of the split but the last ends with a terminal mark. *)
Lemma splitAfterMarks_init s : forall st cur,
  (st = AfterMark ->
   exists l cur', cur = l :: cur' /\ isTerminal l = true) ->
  exists init lst,
    splitAfterMarks st cur s = (init ++ [lst])%list
    /\ Forall (fun p => endsWithMark p = true) init.
Proof.
  induction s as [|c r IH]; intros st cur Hinv.
  - exists [], (string_of_list_ascii (rev cur)). split; [reflexivity|].
    constructor.
  - cbn [splitAfterMarks]. destruct (isSpace c) eqn:E.
    + destruct st.
      * destruct (Hinv eq_refl) as [l [cur' [-> T]]].
        destruct (IH InGap [] ltac:(discriminate)) as [init [lst [E1 F1]]].
        exists (string_of_list_ascii (rev (l :: cur')) :: init), lst.
        split; [rewrite E1; reflexivity|].
        constructor; [|exact F1].
        unfold endsWithMark. cbn [rev]. rewrite lastChar_of_list. exact T.
      * apply IH. discriminate.
      * apply IH. discriminate.
    + apply IH. intro H. exists c, cur. split; [reflexivity|].
      destruct (isTerminal c); [reflexivity|discriminate].
Qed.

(** X25.  [splitIntoSentences] returns sentences that are not empty and
    are in normal form (single blanks, no white space at either end), and
    every sentence but the last ends with [.], [!] or [?]. *)
Theorem splitIntoSentences_sentences (text : string) :
  Forall (fun s => s <> EmptyString /\ normalized s)
    (splitIntoSentences text)
  /\ forall init lst,
       splitIntoSentences text = (init ++ [lst])%list ->
       Forall (fun s => endsWithMark s = true) init.
Proof.
  unfold splitIntoSentences. destruct (isEmpty text).
  { split; [constructor|]. intros [|x init] lst H; discriminate. }
  set (f := fun sentence => trim (collapseSpaces sentence)).
  set (ne := fun sentence => negb (isEmpty sentence)).
  split.
  - apply Forall_forall. intros s Hs. apply filter_In in Hs.
    destruct Hs as [Hin Hne]. apply in_map_iff in Hin.
    destruct Hin as [x [<- _]]. split.
    + apply isEmpty_false. apply negb_true_iff. exact Hne.
    + apply trim_collapse_normalized.
  - destruct (splitAfterMarks_init text Elsewhere [] ltac:(discriminate))
      as [pieces [final [E F]]].
    rewrite E, map_app, filter_app.
    assert (Hkeep : filter ne (map f pieces) = map f pieces
                    /\ Forall (fun s => endsWithMark s = true)
                         (map f pieces)).
    { clear E. induction F as [|p ps Hp _ IH]; [split; [reflexivity|constructor]|].
      destruct IH as [IH1 IH2].
      pose proof (endsWithMark_trim_collapse p Hp) as Hfp.
      cbn [map filter]. split.
      - unfold ne at 1.
        destruct (isEmpty (f p)) eqn:Ee.
        + exfalso. apply (endsWithMark_nonempty _ Hfp).
          unfold f in Ee. destruct (trim (collapseSpaces p));
            [reflexivity|discriminate].
        + cbn [negb]. now rewrite IH1.
      - constructor; assumption. }
    destruct Hkeep as [K1 K2]. rewrite K1.
    intros init lst H. cbn [map filter] in H.
    destruct (ne (f final)).
    + apply app_inj_tail in H. destruct H as [<- _]. exact K2.
    + rewrite app_nil_r in H. rewrite H in K2.
      apply Forall_app in K2. exact (proj1 K2).
Qed.

Lemma splitIntoSentences_sentences_witness :
  Forall (fun s => endsWithMark s = true)
    ["First one."%string; "Is it?"%string].
Proof.
  apply (proj2 (splitIntoSentences_sentences
                  " First  one.   Is it?  and the rest")
           ["First one."%string; "Is it?"%string] "and the rest"%string).
  vm_compute. reflexivity.
Defined.

Lemma dedupe_In seen xs x :
  In x (dedupe seen xs) ->
  In x xs /\ existsb (String.eqb x) seen = false.
Proof.
  revert seen. induction xs as [|y rest IH]; intros seen H; [contradiction|].
  cbn [dedupe] in H. destruct (existsb (String.eqb y) seen) eqn:E.
  - destruct (IH seen H) as [A B]. split; [right; exact A|exact B].
  - destruct H as [<-|H]; [split; [left; reflexivity|exact E]|].
    destruct (IH (y :: seen) H) as [A B]. split; [right; exact A|].
    cbn [existsb] in B. apply orb_false_iff in B. exact (proj2 B).
Qed.

Lemma dedupe_NoDup xs : forall seen, NoDup (dedupe seen xs).
Proof.
  induction xs as [|y rest IH]; intro seen; [constructor|].
  cbn [dedupe]. destruct (existsb (String.eqb y) seen); [apply IH|].
  constructor; [|apply IH].
  intro H. apply dedupe_In in H. destruct H as [_ H].
  cbn [existsb] in H. rewrite String.eqb_refl in H. discriminate.
Qed.

Lemma NoDup_firstn {A} (l : list A) : forall n, NoDup l -> NoDup (firstn n l).
Proof.
  induction l as [|x l IH]; intros n H; [rewrite firstn_nil; constructor|].
  destruct n as [|n]; [constructor|].
  cbn [firstn]. inversion H as [|? ? Hx Hl]; subst.
  constructor; [|apply IH; exact Hl].
  intro Hin. apply Hx. exact (In_firstn _ _ _ Hin).
Qed.

Lemma highlightPhrases_In elements h :
  In h (highlightPhrases elements) ->
  exists element raw,
    In element elements
    /\ isFocusType (el_type element) = true
    /\ rawContent (el_props element) = JsString raw
    /\ h = trim (collapseSpaces raw)
    /\ h <> EmptyString.
Proof.
  induction elements as [|element rest IH]; intro H; [contradiction|].
  cbn [highlightPhrases] in H.
  assert (Hrest : In h (highlightPhrases rest) ->
            exists element0 raw,
              In element0 (element :: rest)
              /\ isFocusType (el_type element0) = true
              /\ rawContent (el_props element0) = JsString raw
              /\ h = trim (collapseSpaces raw)
              /\ h <> EmptyString).
  { intro Hin. destruct (IH Hin) as [e [raw [A B]]].
    exists e, raw. split; [right; exact A|exact B]. }
  destruct (isFocusType (el_type element)) eqn:F; [|exact (Hrest H)].
  destruct (rawContent (el_props element)) as [| |raw|] eqn:R;
    try exact (Hrest H).
  destruct (0 <? String.length (trim (collapseSpaces raw)))%nat eqn:L;
    [|exact (Hrest H)].
  destruct H as [<-|H]; [|exact (Hrest H)].
  exists element, raw. split; [left; reflexivity|].
  repeat split; try assumption.
  apply length_pos_nonempty. exact L.
Qed.

(** X26.  [extractStepHighlights] returns at most three phrases, no phrase
    twice; each one is not empty, is in normal form, and is the cleaned
    [content] (or, without one, [label]) string of an element of the step
    whose type is highlight, shape, node or text. *)
Theorem extractStepHighlights_phrases (step : AnimationStep) :
  let highlights := extractStepHighlights step in
  (List.length highlights <= 3)%nat
  /\ NoDup highlights
  /\ Forall (fun h =>
       h <> EmptyString /\ normalized h
       /\ exists element raw,
            In element (step_elements step)
            /\ isFocusType (el_type element) = true
            /\ rawContent (el_props element) = JsString raw
            /\ h = trim (collapseSpaces raw)) highlights.
Proof.
  intro highlights. subst highlights. unfold extractStepHighlights.
  split; [apply firstn_le_length|]. split.
  - apply NoDup_firstn, dedupe_NoDup.
  - apply Forall_forall. intros h Hh.
    apply In_firstn in Hh. apply dedupe_In in Hh. destruct Hh as [Hh _].
    destruct (highlightPhrases_In _ _ Hh) as [e [raw [A [B [C [D E]]]]]].
    split; [exact E|]. split.
    + rewrite D. apply trim_collapse_normalized.
    + exists e, raw. repeat split; assumption.
Qed.

Lemma filterChars_idem f s : filterChars f (filterChars f s) = filterChars f s.
Proof.
  induction s as [|c r IH]; [reflexivity|].
  cbn [filterChars]. destruct (f c) eqn:E; [|exact IH].
  cbn [filterChars]. now rewrite E, IH.
Qed.

Lemma wordsLongerThan_In n s w :
  In w (wordsLongerThan n s) ->
  (n < String.length w)%nat /\ cleanWord w = w.
Proof.
  unfold wordsLongerThan. intro H. apply filter_In in H.
  destruct H as [Hin Hlen]. apply in_map_iff in Hin.
  destruct Hin as [x [<- _]]. split.
  - apply Nat.ltb_lt. exact Hlen.
  - unfold cleanWord. apply filterChars_idem.
Qed.

Lemma NoDup_snoc {A} (l : list A) x : NoDup l -> ~ In x l -> NoDup (l ++ [x]).
Proof.
  intros Hl Hx. apply NoDup_app; [exact Hl|repeat constructor; intros []|].
  intros y Hy [<-|[]]. exact (Hx Hy).
Qed.

(** The invariant of the two loops of [buildEmphasis]. *)
Lemma emphasisLoop_inv (Q : string -> Prop) words : forall emphasis,
  Forall Q words -> Forall Q emphasis ->
  NoDup (map toLowerCase emphasis) ->
  (List.length emphasis < 2)%nat ->
  forall out full, emphasisLoop words emphasis = (out, full) ->
  Forall Q out /\ NoDup (map toLowerCase out)
  /\ (List.length out <= 2)%nat
  /\ (full = false -> (List.length out < 2)%nat).
Proof.
  induction words as [|word rest IH];
    intros emphasis Hw He Hnd Hlen out full E.
  - injection E as <- <-. repeat split; try assumption; lia.
  - cbn [emphasisLoop] in E.
    apply Forall_cons_iff in Hw. destruct Hw as [Hword Hrest].
    set (emphasis' :=
           if negb (isEmpty (toLowerCase word))
              && negb (existsb
                         (fun w => String.eqb (toLowerCase w)
                                     (toLowerCase word)) emphasis)
           then (emphasis ++ [word])%list else emphasis) in E.
    assert (H' : Forall Q emphasis' /\ NoDup (map toLowerCase emphasis')
                 /\ (List.length emphasis' <= 2)%nat).
    { subst emphasis'.
      destruct (negb (isEmpty (toLowerCase word))
                && negb (existsb
                           (fun w => String.eqb (toLowerCase w)
                                       (toLowerCase word)) emphasis))
        eqn:C.
      - apply andb_true_iff in C. destruct C as [_ C].
        apply negb_true_iff in C. split; [|split].
        + apply Forall_app. split; [exact He|]. constructor;
            [exact Hword|constructor].
        + rewrite map_app. apply NoDup_snoc; [exact Hnd|].
          intro Hin. apply in_map_iff in Hin.
          destruct Hin as [w [Ew Hin]].
          assert (T : existsb (fun w => String.eqb (toLowerCase w)
                                          (toLowerCase word)) emphasis
                      = true).
          { apply existsb_exists. exists w. split; [exact Hin|].
            apply String.eqb_eq. exact Ew. }
          congruence.
        + rewrite length_app. cbn [List.length]. lia.
      - split; [exact He|]. split; [exact Hnd|lia]. }
    destruct H' as [A [B C]].
    destruct (2 <=? List.length emphasis')%nat eqn:L.
    + injection E as <- <-. repeat split; try assumption. discriminate.
    + apply Nat.leb_gt in L. exact (IH emphasis' Hrest A B L out full E).
Qed.

(** X27.  [buildEmphasis] returns at most two words; the words differ
    even when case is ignored, each has more than three characters, and
    each consists of ASCII letters, digits and hyphens only. *)
Theorem buildEmphasis_words (step : AnimationStep) (segmentText : string) :
  let emphasis := buildEmphasis step segmentText in
  (List.length emphasis <= 2)%nat
  /\ NoDup (map toLowerCase emphasis)
  /\ Forall (fun w => (3 < String.length w)%nat /\ cleanWord w = w)
       emphasis.
Proof.
  intro emphasis. subst emphasis. unfold buildEmphasis.
  set (Q := fun w => (3 < String.length w)%nat /\ cleanWord w = w).
  assert (H1 : Forall Q (flat_map (wordsLongerThan 3)
                           (extractStepHighlights step))).
  { apply Forall_forall. intros w Hw. apply in_flat_map in Hw.
    destruct Hw as [phrase [_ Hw]]. exact (wordsLongerThan_In _ _ _ Hw). }
  assert (H2 : Forall Q (wordsLongerThan 4 segmentText)).
  { apply Forall_forall. intros w Hw.
    destruct (wordsLongerThan_In _ _ _ Hw) as [A B]. split; [lia|exact B]. }
  destruct (emphasisLoop (flat_map (wordsLongerThan 3)
                            (extractStepHighlights step)) [])
    as [first full] eqn:E1.
  destruct (emphasisLoop_inv Q _ [] H1 ltac:(constructor)
              ltac:(constructor) ltac:(cbn; lia) first full E1)
    as [A [B [C D]]].
  destruct full.
  - rewrite (firstn_all2 (n := 2) first C). repeat split; assumption.
  - destruct (emphasisLoop (wordsLongerThan 4 segmentText) first)
      as [second full2] eqn:E2.
    destruct (emphasisLoop_inv Q _ first H2 A B (D eq_refl) second full2 E2)
      as [A2 [B2 [C2 _]]].
    cbn [fst]. rewrite (firstn_all2 (n := 2) second C2).
    repeat split; assumption.
Qed.

(** ** Script repair: the repaired segments *)

Lemma mapi_nth_error {A B} (f : nat -> A -> B) xs : forall k i,
  nth_error (mapi f k xs) i = option_map (f (k + i)%nat) (nth_error xs i).
Proof.
  induction xs as [|x rest IH]; intros k i.
  - destruct i; reflexivity.
  - destruct i as [|i]; cbn [mapi nth_error option_map].
    + now rewrite Nat.add_0_r.
    + rewrite IH. now replace (S k + i)%nat with (k + S i)%nat by lia.
Qed.

Lemma append_nonempty a c r : (a ++ String c r)%string <> EmptyString.
Proof. destruct a; discriminate. Qed.

Lemma buildSegmentNarration_sentence step fallbackSentence concept title i :
  (forall t, fallbackSentence = Some t -> hasNonSpace t = true) ->
  sentence (buildSegmentNarration step fallbackSentence concept title i).
Proof.
  intro Hfb.
  assert (S : forall t, hasNonSpace t = true -> sentence (ensureSentence t)).
  { intros t Ht. destruct (ensureSentence_cases t) as [[H _]|[_ [H _]]];
      [congruence|exact H]. }
  unfold buildSegmentNarration.
  destruct (truthy fallbackSentence
            && (0 <? String.length (nullish fallbackSentence EmptyString))%nat)
    eqn:E.
  - destruct fallbackSentence as [t|]; [|discriminate].
    apply S. cbn [nullish]. apply Hfb. reflexivity.
  - destruct (extractStepHighlights step) as [|h0 more].
    + destruct (negb (isEmpty (step_description step))
                && (0 <? String.length (trim (step_description step)))%nat)
        eqn:D.
      * apply andb_true_iff in D. destruct D as [_ D].
        apply S, nonempty_hasNonSpace_trim.
        apply (length_pos_nonempty _ D).
      * apply S. reflexivity.
    + apply S. reflexivity.
Qed.

Lemma toFixed2_floor x : 5 # 2 <= x -> 5 # 2 <= toFixed2 x.
Proof.
  intro H. unfold toFixed2.
  assert (F : (250 <= Qfloor (x * 100 + (1 # 2)))%Z).
  { rewrite <- (Qfloor_Z 250). apply Qfloor_resp_le.
    change (inject_Z 250) with 250. lra. }
  unfold Qle. cbn [Qnum Qden]. lia.
Qed.

(** What [alignSegmentsToSteps] writes for the step at index [i]. *)
Lemma alignSegmentsToSteps_nth
    (script : SectionScript) (animationData : AnimationData)
    (narration sectionId sectionTitle sectionConcept : string)
    (i : nat) (step : AnimationStep) :
  nth_error (ad_steps animationData) i = Some step ->
  nth_error
    (ss_segments (alignSegmentsToSteps script animationData narration
                    sectionId sectionTitle sectionConcept)) i
  = Some (segmentForStep (splitIntoSentences narration) sectionId
            sectionTitle sectionConcept i step).
Proof.
  intro H. unfold alignSegmentsToSteps.
  destruct (ad_steps animationData) as [|s0 steps] eqn:E;
    [destruct i; discriminate|].
  cbn [ss_segments]. rewrite mapi_nth_error, H. reflexivity.
Qed.

(** X28.  With steps, [alignSegmentsToSteps] ties the segment at index [i]
    to the step at index [i]: its id is [seg-<sectionId>-<i+1>], its step
    id is the step's id, or a generated one that is not empty when the
    step has none, its estimated duration is the step's duration when that
    is not 0 and at least 2.5 otherwise, its start and end time are 0 and
    its pacing is normal.  Its text is a sentence in normal form, and it
    is the [i]-th sentence of the narration, passed through
    [ensureSentence], when the narration has that many sentences.  An
    emphasis list, when present, is not empty. *)
Theorem alignSegmentsToSteps_segment
    (script : SectionScript) (animationData : AnimationData)
    (narration sectionId sectionTitle sectionConcept : string)
    (i : nat) (step : AnimationStep) :
  nth_error (ad_steps animationData) i = Some step ->
  exists seg,
    nth_error
      (ss_segments (alignSegmentsToSteps script animationData narration
                      sectionId sectionTitle sectionConcept)) i = Some seg
    /\ seg_id seg
       = ("seg-" ++ sectionId ++ "-" ++ showNat (i + 1))%string
    /\ seg_stepId seg <> EmptyString
    /\ (step_id step <> EmptyString -> seg_stepId seg = step_id step)
    /\ (~ step_duration step == 0 ->
        seg_estimatedDuration seg = step_duration step)
    /\ (step_duration step == 0 -> 5 # 2 <= seg_estimatedDuration seg)
    /\ seg_startTime seg = 0 /\ seg_endTime seg = 0
    /\ seg_pacing seg = Normal
    /\ sentence (seg_text seg)
    /\ (forall s, nth_error (splitIntoSentences narration) i = Some s ->
          seg_text seg = ensureSentence s)
    /\ seg_emphasis seg <> Some [].
Proof.
  intro H. eexists. split; [apply alignSegmentsToSteps_nth; exact H|].
  cbn [segmentForStep seg_id seg_stepId seg_estimatedDuration seg_startTime
       seg_endTime seg_pacing seg_text seg_emphasis].
  split; [reflexivity|]. split.
  { destruct (isEmpty (step_id step)) eqn:E; cbn [negb].
    - apply append_nonempty.
    - apply isEmpty_false. exact E. }
  split.
  { intro Hid. apply isEmpty_false in Hid. rewrite Hid. reflexivity. }
  split.
  { intro Hd. destruct (Qeq_bool (step_duration step) 0) eqn:E;
      [|reflexivity].
    apply Qeq_bool_iff in E. contradiction. }
  split.
  { intro Hd. apply Qeq_bool_iff in Hd. rewrite Hd.
    apply toFixed2_floor. apply Q.le_max_l. }
  split; [reflexivity|]. split; [reflexivity|]. split; [reflexivity|].
  split.
  { apply buildSegmentNarration_sentence. intros t Ht.
    apply nth_error_In in Ht.
    apply (splitIntoSentences_hasNonSpace _ _ Ht). }
  split.
  { intros s Hs. rewrite Hs. unfold buildSegmentNarration.
    assert (Hne : s <> EmptyString).
    { apply nth_error_In in Hs.
      pose proof (splitIntoSentences_hasNonSpace _ _ Hs) as Hv.
      intros ->. discriminate. }
    destruct s as [|c r]; [congruence|]. reflexivity. }
  destruct (buildEmphasis step _); discriminate.
Qed.

Lemma alignSegmentsToSteps_segment_witness :
  exists seg,
    nth_error
      (ss_segments (alignSegmentsToSteps scenarioC_script
                      (mkAnimationData scenarioC_steps)
                      "Intro" "sec1" "Title" "attention")) 1 = Some seg
    /\ seg_id seg = "seg-sec1-2"%string
    /\ seg_stepId seg = "sec1-step-2"%string
    /\ seg_estimatedDuration seg = 3.
Proof.
  destruct (alignSegmentsToSteps_segment scenarioC_script
              (mkAnimationData scenarioC_steps)
              "Intro" "sec1" "Title" "attention" 1
              (mkStep EmptyString EmptyString 3
                 [ mkElement TyShape
                     (Some [("label"%string, JsString "Encoder  block")]);
                   mkElement TyArrow None;
                   mkElement TyText
                     (Some [("content"%string, JsNull);
                            ("label"%string, JsString "Decoder")]) ])
              eq_refl)
    as [seg [E [Hid [_ [_ [Hd _]]]]]].
  exists seg. split; [exact E|]. split; [exact Hid|].
  split.
  - vm_compute in E. injection E as <-. reflexivity.
  - apply Hd. discriminate.
Defined.

(** ** Script repair: the validation in [analyzePaper] *)

Lemma syncSegments_some steps segments : forall i,
  (i + List.length segments <= List.length steps)%nat ->
  exists synced,
    syncSegments steps i segments = Some synced
    /\ List.length synced = List.length segments
    /\ map seg_text synced = map seg_text segments
    /\ forall k step seg,
         nth_error steps (i + k) = Some step ->
         nth_error synced k = Some seg ->
         seg_stepId seg = step_id step
         /\ (~ step_duration step == 0 ->
             seg_estimatedDuration seg = step_duration step).
Proof.
  induction segments as [|segment rest IH]; intros i Hlen.
  - exists []. split; [reflexivity|]. split; [reflexivity|].
    split; [reflexivity|].
    intros k step seg _ H. destruct k; discriminate.
  - cbn [List.length] in Hlen. cbn [syncSegments].
    destruct (nth_error steps i) as [step0|] eqn:E.
    2:{ apply nth_error_None in E. lia. }
    destruct (IH (S i) ltac:(lia)) as [synced [E1 [L1 [T1 P1]]]].
    rewrite E1. eexists. split; [reflexivity|].
    cbn [List.length map].
    split; [now rewrite L1|]. split; [now rewrite T1|].
    intros k step seg Hs Hk. destruct k as [|k].
    + rewrite Nat.add_0_r, E in Hs. injection Hs as <-.
      injection Hk as <-. unfold syncSegment.
      cbn [seg_stepId seg_estimatedDuration].
      split; [reflexivity|]. intro Hd.
      destruct (Qeq_bool (step_duration step0) 0) eqn:B; [|reflexivity].
      apply Qeq_bool_iff in B. contradiction.
    + cbn [nth_error] in Hk.
      apply (P1 k step seg); [|exact Hk].
      now replace (S i + k)%nat with (i + S k)%nat by lia.
Qed.

(** X29.  The validation of a section in [analyzePaper] never raises and
    gives the section an id that is not empty.  When the section has a
    script and animation data, the script it leaves has that id as its
    section id and a total duration of 0; without steps it keeps the raw
    segments; with steps, whether the script was regenerated or only
    synchronised, it has one segment per step, its full text is the join
    of the segments' texts, and the segment at index [i] takes the id of
    the step at index [i] when that is not empty and its duration when
    that is not 0. *)
Theorem fixSection_repairs (section : PaperSection) (index : nat) :
  exists fixed,
    fixSection section index = Some fixed
    /\ sec_id fixed <> EmptyString
    /\ forall script animationData,
         sec_script section = Some script ->
         sec_animationData section = Some animationData ->
         exists script',
           sec_script fixed = Some script'
           /\ ss_sectionId script' = sec_id fixed
           /\ ss_totalDuration script' = 0
           /\ (ad_steps animationData = [] ->
               ss_segments script' = ss_segments script)
           /\ (ad_steps animationData <> [] ->
               List.length (ss_segments script')
               = List.length (ad_steps animationData)
               /\ ss_fullText script'
                  = joinSpace (map seg_text (ss_segments script'))
               /\ forall i step seg,
                    nth_error (ad_steps animationData) i = Some step ->
                    nth_error (ss_segments script') i = Some seg ->
                    (step_id step <> EmptyString ->
                     seg_stepId seg = step_id step)
                    /\ (~ step_duration step == 0 ->
                        seg_estimatedDuration seg = step_duration step)).
Proof.
  unfold fixSection.
  set (id := if negb (isEmpty (sec_id section)) then sec_id section
             else ("section-" ++ showNat (index + 1))%string).
  assert (Hid : id <> EmptyString).
  { subst id. destruct (isEmpty (sec_id section)) eqn:E; cbn [negb].
    - discriminate.
    - apply isEmpty_false. exact E. }
  destruct (sec_script section) as [script|] eqn:Es.
  2:{ eexists. split; [reflexivity|]. split; [exact Hid|].
      intros s a H. discriminate. }
  set (narration := if isEmpty (sec_narration section)
                    then ss_fullText script else sec_narration section).
  destruct (sec_animationData section) as [animationData|] eqn:Ea.
  2:{ eexists. split; [reflexivity|]. split; [exact Hid|].
      intros s a _ H. discriminate. }
  destruct (shouldRegenerate script animationData) eqn:R.
  - eexists. split; [reflexivity|]. split; [exact Hid|].
    intros s a Hs Ha. injection Hs as <-. injection Ha as <-.
    eexists. split; [reflexivity|].
    cbn [sec_id ss_sectionId ss_totalDuration ss_segments ss_fullText].
    split; [reflexivity|].
    split.
    { unfold alignSegmentsToSteps.
      destruct (ad_steps animationData); reflexivity. }
    split.
    { intro H0. unfold alignSegmentsToSteps. rewrite H0. reflexivity. }
    intro Hne. split; [|split].
    + unfold alignSegmentsToSteps.
      destruct (ad_steps animationData) as [|s0 steps]; [congruence|].
      cbn [ss_segments]. apply mapi_length.
    + unfold alignSegmentsToSteps.
      destruct (ad_steps animationData) as [|s0 steps]; [congruence|].
      reflexivity.
    + intros i step seg Hstep Hseg.
      rewrite (alignSegmentsToSteps_nth script animationData narration id
                 (sec_title section) (sec_concept section) i step Hstep)
        in Hseg.
      injection Hseg as <-.
      cbn [segmentForStep seg_stepId seg_estimatedDuration]. split.
      * intro H. apply isEmpty_false in H. rewrite H. reflexivity.
      * intro Hd. destruct (Qeq_bool (step_duration step) 0) eqn:B;
          [|reflexivity].
        apply Qeq_bool_iff in B. contradiction.
  - assert (Hcount : List.length (ss_segments script)
                     = List.length (ad_steps animationData)
                     /\ ss_segments script <> []).
    { unfold shouldRegenerate in R.
      apply orb_false_iff in R. destruct R as [R _].
      apply orb_false_iff in R. destruct R as [R1 R2].
      apply negb_false_iff, Nat.eqb_eq in R1.
      apply Nat.eqb_neq in R2. split; [exact R1|].
      intro H0. rewrite H0 in R2. apply R2. reflexivity. }
    destruct Hcount as [Hlen Hsome].
    destruct (syncSegments_some (ad_steps animationData)
                (ss_segments script) 0 ltac:(cbn [Nat.add]; lia))
      as [synced [E1 [L1 [T1 P1]]]].
    rewrite E1.
    eexists. split; [reflexivity|]. split; [exact Hid|].
    intros s a Hs Ha. injection Hs as <-. injection Ha as <-.
    eexists. split; [reflexivity|].
    cbn [sec_id ss_sectionId ss_totalDuration ss_segments ss_fullText].
    split; [reflexivity|]. split; [reflexivity|].
    split.
    { intro H0. exfalso. apply Hsome.
      rewrite H0 in Hlen. destruct (ss_segments script);
        [reflexivity|discriminate]. }
    intros _. split; [congruence|]. split; [reflexivity|].
    intros i step seg Hstep Hseg.
    destruct (P1 i step seg Hstep Hseg) as [A B].
    split; [intros _; exact A|exact B].
Qed.

Lemma fixSection_repairs_witness :
  exists fixed script',
    fixSection syncedSection 4 = Some fixed
    /\ sec_id fixed = "section-5"%string
    /\ sec_script fixed = Some script'
    /\ ss_sectionId script' = sec_id fixed
    /\ List.length (ss_segments script') = 2%nat.
Proof.
  destruct (fixSection_repairs syncedSection 4)
    as [fixed [E [_ H]]].
  destruct (H twoSegments (mkAnimationData twoSteps) eq_refl eq_refl)
    as [script' [E' [Hsid [_ [_ Hsteps]]]]].
  exists fixed, script'. split; [exact E|]. split.
  - vm_compute in E. injection E as <-. reflexivity.
  - split; [exact E'|]. split; [exact Hsid|].
    exact (proj1 (Hsteps ltac:(discriminate))).
Defined.

(** ** Retrying a rate-limited request *)

Lemma attempts_left (m : Q) (attempt : nat) :
  inject_Z (Z.of_nat attempt) < m ->
  (attempt < Z.to_nat (Qceiling m))%nat.
Proof.
  intro H. pose proof (Qle_ceiling m) as C.
  assert (L : (Z.of_nat attempt < Qceiling m)%Z)
    by (rewrite Zlt_Qlt; lra).
  lia.
Qed.

Lemma retryLoop_spec {T} (operation : nat -> Outcome T)
    (random : nat -> Q) (config : RetryConfig) :
  forall fuel attempt delay waits,
  (1 <= fuel)%nat ->
  (Z.to_nat (Qceiling (maxAttempts config)) <= attempt + fuel)%nat ->
  exists result calls waited,
    retryLoop operation random config fuel attempt delay waits
    = Some (result, calls, (waits ++ waited)%list)
    /\ (attempt < calls)%nat
    /\ (calls <= Nat.max (attempt + 1)
                   (Z.to_nat (Qceiling (maxAttempts config))))%nat
    /\ List.length waited = (calls - 1 - attempt)%nat
    /\ Forall (fun w => w <= maxDelayMs config
                        /\ (initialDelayMs config <= maxDelayMs config ->
                            initialDelayMs config <= w)) waited
    /\ (forall k, (attempt <= k)%nat -> (k < calls - 1)%nat ->
          exists error, operation k = Rejected error
                        /\ isRateLimitError error = true)
    /\ match result with
       | Returned value => operation (calls - 1)%nat = Resolved value
       | ThrewBusy =>
           exists error, operation (calls - 1)%nat = Rejected error
                         /\ isRateLimitError error = true
                         /\ maxAttempts config
                            <= inject_Z (Z.of_nat calls)
       | Rethrew error =>
           operation (calls - 1)%nat = Rejected error
           /\ isRateLimitError error = false
       end.
Proof.
  induction fuel as [|fuel IH]; intros attempt delay waits H1 HN; [lia|].
  cbn [retryLoop].
  destruct (operation attempt) as [value|error] eqn:Eop.
  - exists (Returned value), (S attempt), [].
    rewrite app_nil_r. split; [reflexivity|].
    split; [lia|]. split; [lia|]. split; [cbn; lia|].
    split; [constructor|]. split; [intros k A B; lia|].
    replace (S attempt - 1)%nat with attempt by lia. exact Eop.
  - destruct (isRateLimitError error) eqn:Erl; cbn [negb orb].
    + destruct (Qgeb (inject_Z (Z.of_nat (attempt + 1)))
                  (maxAttempts config)) eqn:Emax.
      * exists ThrewBusy, (attempt + 1)%nat, [].
        rewrite app_nil_r. split; [reflexivity|].
        split; [lia|]. split; [lia|]. split; [cbn; lia|].
        split; [constructor|]. split; [intros k A B; lia|].
        replace (attempt + 1 - 1)%nat with attempt by lia.
        exists error. split; [exact Eop|]. split; [exact Erl|].
        apply Qgeb_true. exact Emax.
      * apply Qgeb_false in Emax. apply attempts_left in Emax.
        set (waitTime :=
               Qmin (maxDelayMs config)
                 (Qmax (initialDelayMs config)
                    (delay + delay * jitterRatio config
                             * (random attempt - (1 # 2)) * 2))).
        destruct (IH (attempt + 1)%nat
                    (Qmin (maxDelayMs config) (delay * multiplier config))
                    (waits ++ [waitTime])%list ltac:(lia) ltac:(lia))
          as [result [calls [waited [E [A [B [C [D [F G]]]]]]]]].
        exists result, calls, (waitTime :: waited).
        split.
        { rewrite E. rewrite <- app_assoc. reflexivity. }
        split; [lia|]. split; [lia|].
        split; [cbn [List.length]; lia|].
        split.
        { constructor; [|exact D]. subst waitTime. split.
          - apply Q.le_min_l.
          - intro Hle. apply Q.min_glb; [exact Hle|apply Q.le_max_l]. }
        split; [|exact G].
        intros k Hk1 Hk2.
        destruct (Nat.eq_dec k attempt) as [->|Hne].
        -- exists error. split; [exact Eop|exact Erl].
        -- apply F; lia.
    + exists (Rethrew error), (attempt + 1)%nat, [].
      rewrite app_nil_r. split; [reflexivity|].
      split; [lia|]. split; [lia|]. split; [cbn; lia|].
      split; [constructor|]. split; [intros k A B; lia|].
      replace (attempt + 1 - 1)%nat with attempt by lia.
      split; [exact Eop|exact Erl].
Qed.

(** X30.  [withGeminiRetry] ends after at most [max(1, ceil(maxAttempts))]
    calls of the operation, whatever the operation and the random numbers
    do.  It waits once between two calls, never longer than [maxDelayMs]
    and, when [initialDelayMs <= maxDelayMs], never shorter than
    [initialDelayMs].  Every call but the last failed with a rate-limit
    error.  It returns the value of the last call when that succeeded,
    rethrows the error of the last call when that is not a rate-limit
    error, and throws the busy error when the last call was rate-limited
    and [maxAttempts] calls were made. *)
Theorem withGeminiRetry_bounded {T} (operation : nat -> Outcome T)
    (random : nat -> Q) (config : RetryConfig) (fuel : nat) :
  (callLimit config <= fuel)%nat ->
  exists result calls waits,
    withGeminiRetry operation random config fuel
    = Some (result, calls, waits)
    /\ (1 <= calls)%nat /\ (calls <= callLimit config)%nat
    /\ List.length waits = (calls - 1)%nat
    /\ Forall (fun w => w <= maxDelayMs config
                        /\ (initialDelayMs config <= maxDelayMs config ->
                            initialDelayMs config <= w)) waits
    /\ (forall k, (k < calls - 1)%nat ->
          exists error, operation k = Rejected error
                        /\ isRateLimitError error = true)
    /\ match result with
       | Returned value => operation (calls - 1)%nat = Resolved value
       | ThrewBusy =>
           exists error, operation (calls - 1)%nat = Rejected error
                         /\ isRateLimitError error = true
                         /\ maxAttempts config
                            <= inject_Z (Z.of_nat calls)
       | Rethrew error =>
           operation (calls - 1)%nat = Rejected error
           /\ isRateLimitError error = false
       end.
Proof.
  intro Hfuel. unfold callLimit in *. unfold withGeminiRetry.
  destruct (retryLoop_spec operation random config fuel 0
              (initialDelayMs config) [] ltac:(lia) ltac:(lia))
    as [result [calls [waited [E [A [B [C [D [F G]]]]]]]]].
  exists result, calls, waited. cbn [app] in E.
  split; [exact E|]. split; [lia|]. split; [cbn [Nat.add] in B; lia|].
  split; [lia|]. split; [exact D|]. split; [|exact G].
  intros k Hk. apply F; lia.
Qed.

Lemma withGeminiRetry_bounded_witness :
  exists result calls waits,
    withGeminiRetry busyTwice (fun _ => 1 # 4) DEFAULT_RETRY_CONFIG 4
    = Some (result, calls, waits)
    /\ (calls <= 4)%nat
    /\ Forall (fun w => w <= 20000 /\ 1000 <= w) waits.
Proof.
  destruct (withGeminiRetry_bounded busyTwice (fun _ => 1 # 4)
              DEFAULT_RETRY_CONFIG 4 ltac:(vm_compute; lia))
    as [result [calls [waits [E [_ [B [_ [D _]]]]]]]].
  exists result, calls, waits. split; [exact E|]. split; [exact B|].
  apply (Forall_impl _ (P := fun w =>
           w <= maxDelayMs DEFAULT_RETRY_CONFIG
           /\ (initialDelayMs DEFAULT_RETRY_CONFIG
               <= maxDelayMs DEFAULT_RETRY_CONFIG ->
               initialDelayMs DEFAULT_RETRY_CONFIG <= w))); [|exact D].
  intros w [W1 W2]. split; [exact W1|]. apply W2. discriminate.
Defined.
